(** * GFD2024_Numerics: finite-difference teaching notebooks

    A shallow embedding of the computational cells of the five notebooks

    - finite differences of sin(x)        (forward / backward / centered),
    - ballistic trajectory                (forward Euler with clamping),
    - oil spill diffusion, FTCS           (explicit three-point stencil),
    - oil spill diffusion, implicit       (tridiagonal system, matrix inverse),
    - tsunami wave propagation            (centered in time and space),

    followed by the properties of these loops.

    Modelling conventions.
    - A one-dimensional NumPy array is a [list]; a NumPy scalar is a real
      number.  Arithmetic is the exact arithmetic of the reals (of an
      arbitrary field for the implicit scheme): rounding of binary64 is not
      modelled, nor are the values inf and NaN that NumPy returns, without
      raising, for a quotient by zero or the square root of a negative
      number.  Properties that depend on the value of such an operation
      are stated where it is a number: non-zero steps, and a non-negative
      gravity and non-negative depths for the wave scheme.
    - A division of Python floats raises ZeroDivisionError on a zero
      divisor and is modelled as such where the loop body performs one
      (the analytic trajectory of the ballistic notebook).
    - Every operation that can raise in Python (indexing out of range,
      shapes that do not broadcast, inverting a singular matrix) returns
      [option]; [None] stands for the exception.
    - [copy.deepcopy] produces an independent value.  Every array name of
      the notebooks is bound either to a deep copy or to the result of an
      expression, so no two names ever alias and the loop state is a record
      of values threaded through the statements in program order. *)

From Stdlib Require Import Reals Lra Lia List ZArith Bool.
From HB Require Import structures.
From mathcomp Require boot order algebra.

Set Implicit Arguments.

(** ** Exceptions as [option] *)

Definition bind {A B : Type} (m : option A) (k : A -> option B) : option B :=
  match m with
  | Some a => k a
  | None => None
  end.

Notation "'do' x <- m ; k" := (bind m (fun x => k))
  (at level 10, x name, m at level 100, k at level 200).

(** ** Python / NumPy one-dimensional arrays *)

Module Py.
Import ListNotations.
Local Open Scope Z_scope.

Section Arrays.
Context {T : Type}.

(** [a[i]] with a Python index: a negative index counts from the end,
    anything outside [-n, n) raises IndexError. *)
Definition norm_index (n : nat) (i : Z) : option nat :=
  if 0 <=? i then
    (if i <? Z.of_nat n then Some (Z.to_nat i) else None)
  else
    (if - Z.of_nat n <=? i then Some (Z.to_nat (Z.of_nat n + i)) else None).

Definition getitem (a : list T) (i : Z) : option T :=
  do k <- norm_index (length a) i; nth_error a k.

(** In-place store [a[i] = v], returning the updated array. *)
Definition update (a : list T) (k : nat) (v : T) : list T :=
  firstn k a ++ v :: skipn (S k) a.

Definition setitem (a : list T) (i : Z) (v : T) : option (list T) :=
  do k <- norm_index (length a) i; Some (update a k v).

(** Slice bounds never raise: they are clamped to [0, n]. *)
Definition slice_bound (n : nat) (i : Z) : nat :=
  if i <? 0 then Z.to_nat (Z.max 0 (Z.of_nat n + i))
  else Nat.min (Z.to_nat i) n.

Definition slice_lo (n : nat) (lo : option Z) : nat :=
  match lo with Some i => slice_bound n i | None => 0%nat end.

Definition slice_hi (n : nat) (hi : option Z) : nat :=
  match hi with Some i => slice_bound n i | None => n end.

(** [a[lo:hi]] *)
Definition slice (a : list T) (lo hi : option Z) : list T :=
  let l := slice_lo (length a) lo in
  let h := slice_hi (length a) hi in
  firstn (h - l) (skipn l a).

(** [a[lo:hi] = v]: the value must have the shape of the slice, or hold a
    single element that is broadcast over the slice. *)
Definition setslice (a : list T) (lo hi : option Z) (v : list T)
  : option (list T) :=
  let l := slice_lo (length a) lo in
  let h := slice_hi (length a) hi in
  let len := (h - l)%nat in
  if (length v =? len)%nat then
    Some (firstn l a ++ v ++ skipn (l + len) a)
  else
    match v with
    | [x] => Some (firstn l a ++ repeat x len ++ skipn (l + len) a)
    | _ => None
    end.

(** Elementwise binary operation with NumPy broadcasting of one-element
    operands; other shape mismatches raise ValueError. *)
Fixpoint map2 (f : T -> T -> T) (a b : list T) : list T :=
  match a, b with
  | x :: a', y :: b' => f x y :: map2 f a' b'
  | _, _ => []
  end.

Definition broadcast2 (f : T -> T -> T) (a b : list T) : option (list T) :=
  if (length a =? length b)%nat then Some (map2 f a b)
  else
    match a, b with
    | [x], _ => Some (map (f x) b)
    | _, [y] => Some (map (fun x => f x y) a)
    | _, _ => None
    end.

(** [np.ones(n) * c], [np.zeros(n)], ... *)
Definition full (n : nat) (c : T) : list T := repeat c n.

(** [for ii in range(...)] over an array that the body updates. *)
Fixpoint for_range (St : Type) (js : list nat)
  (body : nat -> St -> option St) (s : St) : option St :=
  match js with
  | [] => Some s
  | j :: js' => do s' <- body j s; for_range js' body s'
  end.

(** [tt in ttplot] and [ttplot.index(tt)]. *)
Fixpoint index_of (tt : nat) (ttplot : list nat) : option nat :=
  match ttplot with
  | [] => None
  | t :: rest =>
      if Nat.eqb t tt then Some 0%nat
      else do k <- index_of tt rest; Some (S k)
  end.

End Arrays.

(** [range(lo, hi)] *)
Definition range (lo hi : nat) : list nat := seq lo (hi - lo).

(** [a / b] on Python floats: ZeroDivisionError on a zero divisor. *)
Definition truediv (a b : R) : option R :=
  if Req_dec_T b 0%R then None else Some (a / b)%R.

(** Saving a snapshot row: [to_plot[ttplot.index(tt),:] = copy.deepcopy(uu_cur)]
    guarded by [tt in ttplot]. *)
Definition save_plot {T} (ttplot : list nat) (tt : nat) (uu_cur : list T)
  (to_plot : list (list T)) : option (list (list T)) :=
  match index_of tt ttplot with
  | None => Some to_plot
  | Some k =>
      do row <- nth_error to_plot k;
      do row' <- setslice row None None uu_cur;
      Some (update to_plot k row')
  end.

End Py.

(** ** NumPy arithmetic on arrays of reals *)

Module Np.
Local Open Scope R_scope.

Definition add : list R -> list R -> option (list R) := Py.broadcast2 Rplus.
Definition sub : list R -> list R -> option (list R) := Py.broadcast2 Rminus.
Definition mul : list R -> list R -> option (list R) := Py.broadcast2 Rmult.

(** scalar * array *)
Definition scal (c : R) (a : list R) : list R := map (Rmult c) a.

Definition zeros (n : nat) : list R := Py.full n 0.
Definition ones (n : nat) : list R := Py.full n 1.

(** [np.zeros((rows, cols))] *)
Definition zeros2 (rows cols : nat) : list (list R) := Py.full rows (zeros cols).

End Np.

(** ** unnamed/part_001: explicit FTCS diffusion of an oil spill *)

Module DiffusionFTCS.
Import ListNotations.
Local Open Scope R_scope.

Record state := State {
  uu_cur : list R;
  uu_old : list R;
  to_plot : list (list R)
}.

Section Scheme.
Variables (bigd deltat_sec deltax : R).
Variables (uu_left_dirich uu_right_dirich : R).
Variable ttplot : list nat.

Definition alpha : R := bigd * deltat_sec / deltax ^ 2.

(** [alpha*uu_old[0:-2] + (1-2*alpha)*uu_old[1:-1] + alpha*uu_old[2:]] *)
Definition stencil (uu_old : list R) : option (list R) :=
  do t <- Np.add (Np.scal alpha (Py.slice uu_old (Some 0%Z) (Some (-2)%Z)))
          (Np.scal (1 - 2 * alpha) (Py.slice uu_old (Some 1%Z) (Some (-1)%Z)));
  Np.add t (Np.scal alpha (Py.slice uu_old (Some 2%Z) None)).

(** The three assignments to [uu_cur] of one pass through the loop body;
    [uu_old] is the deep copy taken on entry. *)
Definition step (uu_cur : list R) : option (list R) :=
  let uu_old := uu_cur in
  do rhs <- stencil uu_old;
  do c1 <- Py.setslice uu_cur (Some 1%Z) (Some (-1)%Z) rhs;
  do c2 <- Py.setitem c1 0%Z uu_left_dirich;
  Py.setitem c2 (-1)%Z uu_right_dirich.

Definition body (tt : nat) (s : state) : option state :=
  do c <- step (uu_cur s);
  do tp <- Py.save_plot ttplot tt c (to_plot s);
  Some {| uu_cur := c; uu_old := uu_cur s; to_plot := tp |}.

(** State on entry of the time loop; [uu_old] is not bound yet. *)
Definition init (uu_0 : list R) : state :=
  {| uu_cur := uu_0;
     uu_old := [];
     to_plot := Np.zeros2 (length ttplot) (length uu_0) |}.

Definition time_loop (nsteps : nat) (uu_0 : list R) : option state :=
  Py.for_range (Py.range 0 nsteps) body (init uu_0).

(** Total mass of the interior: sum of the interior values times the step. *)
Definition mass (uu : list R) : R :=
  fold_right Rplus 0 (Py.slice uu (Some 1%Z) (Some (-1)%Z)) * deltax.

End Scheme.
End DiffusionFTCS.

(** ** tsunami_wave.ipynb: scheme centered in time and in space *)

Module TsunamiWave.
Import ListNotations.
Local Open Scope R_scope.

Record state := State {
  uu_cur : list R;
  uu_old : list R;
  uu_old_2 : list R;
  to_plot : list (list R)
}.

Section Scheme.
Variables (grv deltat_sec deltax : R).
Variable bathy_a : list R.
Variable ttplot : list nat.
(** The value held by the buffers created with [np.nan*np.ones(xnum)];
    no property below depends on it. *)
Variable nan : R.

Local Notation "a [ lo ; hi ]" := (Py.slice a lo hi)
  (at level 2, left associativity, format "a [ lo ;  hi ]").
Local Notation i0 := (Some 0%Z).
Local Notation i1 := (Some 1%Z).
Local Notation i2 := (Some 2%Z).
Local Notation m1 := (Some (-1)%Z).
Local Notation m2 := (Some (-2)%Z).

(** [uu_old[2:]-2*uu_old[1:-1]+uu_old[0:-2]] *)
Definition sp_term1 (uu_old : list R) : option (list R) :=
  do d <- Np.sub uu_old[i2; None] (Np.scal 2 uu_old[i1; m1]);
  Np.add d uu_old[i0; m2].

(** [(bathy_a[2:]-bathy_a[0:-2])*(uu_old[2:]-uu_old[0:-2])] *)
Definition sp_term2 (uu_old : list R) : option (list R) :=
  do db <- Np.sub bathy_a[i2; None] bathy_a[i0; m2];
  do du <- Np.sub uu_old[i2; None] uu_old[i0; m2];
  Np.mul db du.

(** [((np.sqrt(grv*bathy_a)*deltat_sec/deltax)**2)[1:-1]]; a number, as
    here, where [grv*bathy_a >= 0] and [deltax] is not zero (NaN or inf in
    NumPy otherwise). *)
Definition fac1 : list R :=
  (map (fun b => (sqrt (grv * b) * deltat_sec / deltax) ^ 2) bathy_a)[i1; m1].

(** [(np.sqrt(grv)*deltat_sec/(2*deltax))**2]; a number, as here, where
    [grv >= 0] and [deltax] is not zero. *)
Definition fac2 : R := (sqrt grv * deltat_sec / (2 * deltax)) ^ 2.

(** Right-hand side of the assignment to [uu_cur[1:-1]], both branches. *)
Definition interior (tt : nat) (uu_old uu_old_2 : list R)
  : option (list R) :=
  do s1 <- sp_term1 uu_old;
  do s2 <- sp_term2 uu_old;
  if Nat.eqb tt 0 then
    (* uu_old[1:-1] + (1/2)*fac1*sp_term1 + fac2*sp_term2 *)
    do h <- Np.mul (Np.scal (1 / 2) fac1) s1;
    do t <- Np.add uu_old[i1; m1] h;
    Np.add t (Np.scal fac2 s2)
  else
    (* -1*uu_old_2[1:-1] + 2*uu_old[1:-1] + fac1*sp_term1 + fac2*sp_term2 *)
    do t <- Np.add (Np.scal (-1) uu_old_2[i1; m1]) (Np.scal 2 uu_old[i1; m1]);
    do l <- Np.mul fac1 s1;
    do t' <- Np.add t l;
    Np.add t' (Np.scal fac2 s2).

(** Boundary assignments [uu_cur[0] = uu_cur[2]] and
    [uu_cur[-1] = uu_cur[-3]], in this order. *)
Definition boundary (uu_cur : list R) : option (list R) :=
  do v <- Py.getitem uu_cur 2%Z;
  do c <- Py.setitem uu_cur 0%Z v;
  do w <- Py.getitem c (-3)%Z;
  Py.setitem c (-1)%Z w.

Definition body (tt : nat) (s : state) : option state :=
  let uu_old_2' := uu_old s in
  let uu_old' := uu_cur s in
  do rhs <- interior tt uu_old' uu_old_2';
  do c1 <- Py.setslice (uu_cur s) i1 m1 rhs;
  do c2 <- boundary c1;
  do tp <- Py.save_plot ttplot tt c2 (to_plot s);
  Some {| uu_cur := c2; uu_old := uu_old'; uu_old_2 := uu_old_2';
          to_plot := tp |}.

Definition init (uu_0 : list R) : state :=
  let xnum := length uu_0 in
  {| uu_cur := uu_0;
     uu_old := Np.scal nan (Np.ones xnum);
     uu_old_2 := Np.scal nan (Np.ones xnum);
     to_plot := Np.zeros2 (length ttplot) xnum |}.

Definition time_loop (nsteps : nat) (uu_0 : list R) : option state :=
  Py.for_range (Py.range 0 nsteps) body (init uu_0).

End Scheme.
End TsunamiWave.

(** ** README.md: derivative of the sine by finite differences *)

Module FiniteDifference.
Import ListNotations.
Local Open Scope R_scope.

(** [np.arange(xmin, xmax, step)]: [ceil((xmax - xmin)/step)] points
    [xmin + i*step]. *)
Definition ceil (x : R) : Z := (1 - up (- x))%Z.

Definition arange (xmin xmax step : R) : list R :=
  map (fun i => xmin + INR i * step)
      (seq 0 (Z.to_nat (ceil ((xmax - xmin) / step)))).

Definition sinefunc (rad : list R) : list R := map sin rad.
Definition cosinefunc (rad : list R) : list R := map cos rad.

Section Estimators.
Variable deltax : R.
Variable uux : list R.

Definition numx : nat := length uux.

Local Notation "'uux' '[[' i ']]'" := (Py.getitem uux i) (at level 2).

(** Forward difference, with the backward formula at the right end. *)
Definition fd_dudx : option (list R) :=
  do fd <- Py.for_range (Py.range 0 (numx - 1))
             (fun ii fd =>
                do a <- uux[[Z.of_nat (ii + 1)]];
                do b <- uux[[Z.of_nat ii]];
                Py.setitem fd (Z.of_nat ii) ((a - b) / deltax))
             (Np.zeros numx);
  do a <- uux[[(-1)%Z]];
  do b <- uux[[(-2)%Z]];
  Py.setitem fd (-1)%Z ((a - b) / deltax).

(** Backward difference, with the forward formula at the left end. *)
Definition bd_dudx : option (list R) :=
  do bd <- Py.for_range (Py.range 1 numx)
             (fun ii bd =>
                do a <- uux[[Z.of_nat ii]];
                do b <- uux[[Z.of_nat ii - 1]];
                Py.setitem bd (Z.of_nat ii) ((a - b) / deltax))
             (Np.zeros numx);
  do a <- uux[[1%Z]];
  do b <- uux[[0%Z]];
  Py.setitem bd 0%Z ((a - b) / deltax).

(** Centered difference, one-sided at both ends. *)
Definition cd_dudx : option (list R) :=
  do cd <- Py.for_range (Py.range 1 (numx - 1))
             (fun ii cd =>
                do a <- uux[[Z.of_nat (ii + 1)]];
                do b <- uux[[Z.of_nat ii - 1]];
                Py.setitem cd (Z.of_nat ii) ((a - b) / (2 * deltax)))
             (Np.zeros numx);
  do a <- uux[[(-1)%Z]];
  do b <- uux[[(-2)%Z]];
  do cd' <- Py.setitem cd (-1)%Z ((a - b) / deltax);
  do a0 <- uux[[1%Z]];
  do b0 <- uux[[0%Z]];
  Py.setitem cd' 0%Z ((a0 - b0) / deltax).

End Estimators.

(** Residuals against the true derivative, [est - true_dudx] (the
    argument of the [np.round(., 3)] applied for printing), and the
    largest of their absolute values (the entry selected by
    [np.argmax(abs(resids))], in absolute value). *)
Definition resids (est true_dudx : list R) : option (list R) :=
  Np.sub est true_dudx.

Definition max_abs (r : list R) : R :=
  fold_right Rmax 0 (map Rabs r).

End FiniteDifference.

(** ** unnamed/part_000: forward Euler for the height of a cannon ball *)

Module Ballistic.
Import ListNotations.
Local Open Scope R_scope.

(** [-(gravity/2)*(1/uinit**2)*xpos**2+(winit/uinit)*xpos].  The notebook
    passes Python floats for [uinit] and [winit], so [1/uinit**2] and
    [winit/uinit] are divisions of Python floats: they raise
    ZeroDivisionError when [uinit] is zero. *)
Definition analytic_ballistic (xpos uinit winit gravity : R) : option R :=
  do q <- Py.truediv 1 (uinit ^ 2);
  do r <- Py.truediv winit uinit;
  Some (- (gravity / 2) * q * xpos ^ 2 + r * xpos).

Record state := State {
  xxfull : list R;
  nmr_zzfull : list R;
  atic_zzfull : list R
}.

Section Trajectory.
Variables (xx0 zz0 uu0 ww0 grv deltat : R).
Variable nsteps : nat.

(** Arrays of zeros with their first entry set. *)
Definition init : option state :=
  do nmr <- Py.setitem (Np.zeros nsteps) 0%Z zz0;
  do atic <- Py.setitem (Np.zeros nsteps) 0%Z zz0;
  do xx <- Py.setitem (Np.zeros nsteps) 0%Z xx0;
  Some {| xxfull := xx; nmr_zzfull := nmr; atic_zzfull := atic |}.

Definition body (kk : nat) (s : state) : option state :=
  let k1 := Z.of_nat (kk + 1) in
  do xx <- Py.setitem (xxfull s) k1 (uu0 * INR (kk + 1) * deltat);
  do z <- Py.getitem (nmr_zzfull s) (Z.of_nat kk);
  do nmr <- Py.setitem (nmr_zzfull s) k1
              (z + deltat * (ww0 - grv * INR (kk + 1) * deltat));
  do x <- Py.getitem xx k1;
  do zpos <- analytic_ballistic x uu0 ww0 grv;
  do atic <- Py.setitem (atic_zzfull s) k1 zpos;
  do a <- Py.getitem atic k1;
  do atic' <- Py.setitem atic k1 (Rmax a 0);
  do n <- Py.getitem nmr k1;
  do nmr' <- Py.setitem nmr k1 (Rmax n 0);
  Some {| xxfull := xx; nmr_zzfull := nmr'; atic_zzfull := atic' |}.

Definition forward_euler : option state :=
  do s <- init;
  Py.for_range (Py.range 0 (nsteps - 1)) body s.

End Trajectory.
End Ballistic.

(** ** oilspill_diffusion_implicit.ipynb: fully implicit diffusion *)

Module DiffusionImplicit.
(* Python indices 0 and -1, named before the ring notations take over. *)
Local Notation idx_first := (0%Z) (only parsing).
Local Notation idx_last := ((-1)%Z) (only parsing).
Import boot order algebra.
Import GRing.Theory.
Local Open Scope ring_scope.

Record state (F : Type) := State {
  uu_cur : seq F;
  uu_old : seq F;
  to_plot : seq (seq F)
}.

Section Scheme.
Variable F : fieldType.
Variables (bigd deltat_sec deltax : F).
Variable xnum : nat.
Variable ttplot : seq nat.

Definition alpha : F := bigd * deltat_sec / deltax ^+ 2.

Definition ones (n : nat) : seq F := Py.full n 1.
Definition scal (c : F) (a : seq F) : seq F := [seq c * x | x <- a].

(** The three diagonals, with the entries that turn the first and the last
    row into identity rows. *)
Definition updiag : option (seq F) :=
  Py.setitem (scal (- alpha) (ones (xnum - 1)%N)) idx_first 0.

Definition maindiag : option (seq F) :=
  do m <- Py.setitem (scal (1 + 2%:R * alpha) (ones xnum)) idx_first 1;
  Py.setitem m idx_last 1.

Definition lowdiag : option (seq F) :=
  Py.setitem (scal (- alpha) (ones (xnum - 1)%N)) idx_last 0.

(** [diags([low, main, up], [-1, 0, 1]).toarray()]: entry [k] of the
    diagonal of offset [-1] sits at [(k+1, k)], of offset [1] at [(k, k+1)].
    The diagonals must have the lengths the offsets ask for. *)
Definition diags (low main up : seq F) : option 'M[F]_xnum :=
  if (size main == xnum) && (size low == (xnum - 1)%N) && (size up == (xnum - 1)%N)
  then
    Some (\matrix_(i < xnum, j < xnum)
            (if (i : nat) == j then nth 0 main i
             else if (j : nat) == i.+1 then nth 0 up i
             else if (i : nat) == j.+1 then nth 0 low j
             else 0))
  else None.

Definition hmat : option 'M[F]_xnum :=
  do u <- updiag;
  do m <- maindiag;
  do l <- lowdiag;
  diags l m u.

(** [np.linalg.inv]: the inverse matrix, LinAlgError on a singular one. *)
Definition np_linalg_inv (A : 'M[F]_xnum) : option 'M[F]_xnum :=
  if A \in unitmx then Some (invmx A) else None.

Definition invhmat : option 'M[F]_xnum :=
  do h <- hmat; np_linalg_inv h.

(** [a.reshape((xnum,1))] and [a.flatten()] *)
Definition reshape (a : seq F) : option 'cV[F]_xnum :=
  if size a == xnum then Some (\col_(i < xnum) nth 0 a i) else None.

Definition flatten (v : 'cV[F]_xnum) : seq F :=
  [seq v i ord0 | i <- enum 'I_xnum].

(** One pass through the body of the time loop, for the matrix computed
    before the loop. *)
Definition step (inv : 'M[F]_xnum) (uu_cur : seq F) : option (seq F) :=
  let uu_old := uu_cur in
  do col <- reshape uu_old;
  Some (flatten (inv *m col)).

Definition body (inv : 'M[F]_xnum) (tt : nat) (s : state F)
  : option (state F) :=
  do c <- step inv (uu_cur s);
  do tp <- Py.save_plot ttplot tt c (to_plot s);
  Some {| uu_cur := c; uu_old := uu_cur s; to_plot := tp |}.

Definition init (uu_0 : seq F) : state F :=
  {| uu_cur := uu_0;
     uu_old := [::];
     to_plot := Py.full (size ttplot) (Py.full xnum 0) |}.

(** The notebook from the H-matrix cell on.  The matrix and its inverse are
    computed once; the Dirichlet constants are in scope but not used. *)
Definition notebook (uu_left_dirich uu_right_dirich : F) (nsteps : nat)
  (uu_0 : seq F) : option (state F) :=
  do inv <- invhmat;
  Py.for_range (Py.range 0 nsteps) (body inv) (init uu_0).

(** Initial profile: [uu_base*np.ones(xnum)] plus the Gaussian
    [uu_spill*np.exp(-(1/2)*xgrid**2/spill_scale**2)], on the grid
    [xgrid = i*deltax].  [expF] stands for [np.exp]. *)
Variable expF : F -> F.

Definition xgrid : seq F := [seq i%:R * deltax | i <- iota 0 xnum].

Definition uu_0 (uu_base uu_spill spill_scale : F) : seq F :=
  Py.map2 +%R (scal uu_base (ones xnum))
    (scal uu_spill
       [seq expF (- (1 / 2%:R) * x ^+ 2 / spill_scale ^+ 2) | x <- xgrid]).

End Scheme.
End DiffusionImplicit.

(** ** unnamed/part_001: grid and initial profile of the oil spill *)

Module OilSpill.
Import ListNotations.
Local Open Scope R_scope.

Section Setup.
Variables (xmax deltax spill_scale uu_base uu_spill : R).

(** [xgrid = np.arange(0, xmax, deltax)] and [xnum = len(xgrid)] *)
Definition xgrid : list R := FiniteDifference.arange 0 xmax deltax.
Definition xnum : nat := length xgrid.

(** [np.exp(-(1/2)*xgrid**2/spill_scale**2)] *)
Definition gaussian : list R :=
  map (fun x => exp (- (1 / 2) * x ^ 2 / spill_scale ^ 2)) xgrid.

(** [uu_0 = uu_base*np.ones(xnum)] then
    [uu_0 = uu_0 + uu_spill*np.exp(...)] *)
Definition uu_0 : option (list R) :=
  let uu_0 := Np.scal uu_base (Np.ones xnum) in
  Np.add uu_0 (Np.scal uu_spill gaussian).

End Setup.
End OilSpill.

(** * Properties *)

(** Evaluation of the array code on literal inputs, leaving the arithmetic
    of the reals to [lra] / [field]. *)
Ltac run_arrays :=
  cbv -[Rplus Rminus Rmult Rdiv Rinv Ropp IZR pow sqrt Rle Rlt Rge Rgt Rabs
        Rmax Rmin INR sin cos PI].

(** ** Facts about the array operations *)

Module PyFacts.
Import ListNotations.
Import Py.

Section Facts.
Context {T : Type}.
Implicit Types (a b v : list T) (d x : T) (i : Z) (j k n : nat).

Lemma bind_some {A B} (m : option A) (f : A -> option B) (r : A) :
  m = Some r -> bind m f = f r.
Proof. now intros ->. Qed.

Lemma norm_index_nat n k :
  (k < n)%nat -> norm_index n (Z.of_nat k) = Some k.
Proof.
  intros Hk. unfold norm_index.
  destruct (Z.leb_spec 0 (Z.of_nat k)); [|lia].
  destruct (Z.ltb_spec (Z.of_nat k) (Z.of_nat n)); [|lia].
  now rewrite Nat2Z.id.
Qed.

Lemma norm_index_neg n k :
  (1 <= k <= n)%nat -> norm_index n (- Z.of_nat k) = Some (n - k)%nat.
Proof.
  intros Hk. unfold norm_index.
  destruct (Z.leb_spec 0 (- Z.of_nat k)); [lia|].
  destruct (Z.leb_spec (- Z.of_nat n) (- Z.of_nat k)); [|lia].
  f_equal. lia.
Qed.

Lemma norm_index_lt n i k : norm_index n i = Some k -> (k < n)%nat.
Proof.
  unfold norm_index.
  destruct (Z.leb_spec 0 i).
  - destruct (Z.ltb_spec i (Z.of_nat n)); [|discriminate].
    intros [= <-]. lia.
  - destruct (Z.leb_spec (- Z.of_nat n) i); [|discriminate].
    intros [= <-]. lia.
Qed.

Lemma length_update a k x :
  (k < length a)%nat -> length (update a k x) = length a.
Proof.
  intros Hk. unfold update.
  rewrite length_app, length_firstn. cbn [length].
  rewrite length_skipn. lia.
Qed.

Lemma nth_update a k x j d :
  (k < length a)%nat ->
  nth j (update a k x) d = if Nat.eqb j k then x else nth j a d.
Proof.
  intros Hk. unfold update.
  assert (Hf : length (firstn k a) = k) by (rewrite length_firstn; lia).
  destruct (Nat.eqb_spec j k) as [->|Hne].
  - rewrite app_nth2 by lia. rewrite Hf, Nat.sub_diag. reflexivity.
  - destruct (Nat.lt_ge_cases j k) as [Hlt|Hge].
    + rewrite app_nth1 by lia.
      rewrite <- (firstn_skipn k a) at 2. now rewrite app_nth1 by lia.
    + rewrite app_nth2 by lia. rewrite Hf.
      destruct (j - k)%nat as [|m] eqn:E; [lia|]. cbn [nth].
      rewrite nth_skipn. f_equal. lia.
Qed.

Lemma getitem_nat a k d :
  (k < length a)%nat -> getitem a (Z.of_nat k) = Some (nth k a d).
Proof.
  intros Hk. unfold getitem. rewrite (norm_index_nat Hk). simpl.
  now apply nth_error_nth'.
Qed.

Lemma getitem_neg a k d :
  (1 <= k <= length a)%nat ->
  getitem a (- Z.of_nat k) = Some (nth (length a - k) a d).
Proof.
  intros Hk. unfold getitem. rewrite (norm_index_neg Hk). simpl.
  apply nth_error_nth'. lia.
Qed.

Lemma setitem_nat a k x :
  (k < length a)%nat -> setitem a (Z.of_nat k) x = Some (update a k x).
Proof. intros Hk. unfold setitem. now rewrite (norm_index_nat Hk). Qed.

Lemma setitem_neg a k x :
  (1 <= k <= length a)%nat ->
  setitem a (- Z.of_nat k) x = Some (update a (length a - k) x).
Proof. intros Hk. unfold setitem. now rewrite (norm_index_neg Hk). Qed.

Lemma setitem_length a i x b : setitem a i x = Some b -> length b = length a.
Proof.
  unfold setitem. destruct (norm_index (length a) i) as [k|] eqn:E;
    [|discriminate].
  simpl. intros [= <-]. apply length_update. eapply norm_index_lt; eauto.
Qed.

(** Slices *)

Lemma slice_bound_nat n k : slice_bound n (Z.of_nat k) = Nat.min k n.
Proof.
  unfold slice_bound. destruct (Z.ltb_spec (Z.of_nat k) 0); [lia|].
  now rewrite Nat2Z.id.
Qed.

Lemma slice_bound_neg n k :
  (1 <= k)%nat -> slice_bound n (- Z.of_nat k) = (n - k)%nat.
Proof.
  intros Hk. unfold slice_bound.
  destruct (Z.ltb_spec (- Z.of_nat k) 0); lia.
Qed.

Lemma slice_hi_le n hi : (slice_hi n hi <= n)%nat.
Proof.
  destruct hi as [i|]; simpl; [|lia]. unfold slice_bound.
  destruct (Z.ltb_spec i 0); lia.
Qed.

Lemma length_slice a lo hi :
  length (slice a lo hi)
  = (slice_hi (length a) hi - slice_lo (length a) lo)%nat.
Proof.
  unfold slice. rewrite length_firstn, length_skipn.
  pose proof (slice_hi_le (length a) hi). lia.
Qed.

Lemma nth_slice a lo hi j d :
  (j < slice_hi (length a) hi - slice_lo (length a) lo)%nat ->
  nth j (slice a lo hi) d = nth (slice_lo (length a) lo + j) a d.
Proof.
  intros Hj. unfold slice.
  rewrite nth_firstn.
  destruct (Nat.ltb_spec j
    (slice_hi (length a) hi - slice_lo (length a) lo)); [|lia].
  apply nth_skipn.
Qed.

Lemma setslice_same a lo hi v :
  length v = (slice_hi (length a) hi - slice_lo (length a) lo)%nat ->
  setslice a lo hi v
  = Some (firstn (slice_lo (length a) lo) a ++ v
          ++ skipn (slice_lo (length a) lo + length v) a).
Proof.
  intros Hv. unfold setslice. rewrite <- Hv, Nat.eqb_refl. reflexivity.
Qed.

(** Elementwise operations *)

Lemma length_map2 (f : T -> T -> T) a b :
  length (map2 f a b) = Nat.min (length a) (length b).
Proof.
  revert b. induction a as [|x a IH]; intros [|y b]; simpl; auto.
Qed.

Lemma nth_map2 (f : T -> T -> T) a b j d d1 d2 :
  (j < length a)%nat -> (j < length b)%nat ->
  nth j (map2 f a b) d = f (nth j a d1) (nth j b d2).
Proof.
  revert b j. induction a as [|x a IH]; intros [|y b] [|j]; simpl;
    try lia; auto.
  intros. apply IH; lia.
Qed.

Lemma broadcast2_same (f : T -> T -> T) a b :
  length a = length b -> broadcast2 f a b = Some (map2 f a b).
Proof. intros H. unfold broadcast2. now rewrite H, Nat.eqb_refl. Qed.

Lemma nth_map_in (f : T -> T) a j d d' :
  (j < length a)%nat -> nth j (map f a) d' = f (nth j a d).
Proof.
  intros Hj. rewrite (nth_indep _ d' (f d)) by now rewrite length_map.
  apply map_nth.
Qed.

End Facts.
End PyFacts.

(** The three shifted views [a[0:-2]], [a[1:-1]], [a[2:]] of the stencils,
    and loops that fill an array entry by entry. *)

Module StencilFacts.
Import ListNotations.
Import Py PyFacts.

Section Views.
Context {T : Type}.
Implicit Types (a : list T) (d : T) (j : nat).

Definition left_view a := slice a (Some 0%Z) (Some (-2)%Z).
Definition mid_view a := slice a (Some 1%Z) (Some (-1)%Z).
Definition right_view a := slice a (Some 2%Z) None.

Lemma bound_m1 n : slice_bound n (-1) = (n - 1)%nat.
Proof. exact (@slice_bound_neg n 1 (le_n 1)). Qed.

Lemma bound_m2 n : slice_bound n (-2) = (n - 2)%nat.
Proof. apply (@slice_bound_neg n 2). lia. Qed.

Lemma bound_0 n : slice_bound n 0 = 0%nat.
Proof. exact (slice_bound_nat n 0). Qed.

Lemma bound_1 n : slice_bound n 1 = Nat.min 1 n.
Proof. exact (slice_bound_nat n 1). Qed.

Lemma bound_2 n : slice_bound n 2 = Nat.min 2 n.
Proof. exact (slice_bound_nat n 2). Qed.

Lemma length_left_view a : length (left_view a) = (length a - 2)%nat.
Proof.
  unfold left_view. rewrite length_slice. cbn [slice_lo slice_hi].
  rewrite bound_m2, bound_0. lia.
Qed.

Lemma length_mid_view a : length (mid_view a) = (length a - 2)%nat.
Proof.
  unfold mid_view. rewrite length_slice. cbn [slice_lo slice_hi].
  rewrite bound_m1, bound_1. lia.
Qed.

Lemma length_right_view a : length (right_view a) = (length a - 2)%nat.
Proof.
  unfold right_view. rewrite length_slice. cbn [slice_lo slice_hi].
  rewrite bound_2. lia.
Qed.

Lemma nth_left_view a j d :
  (j < length a - 2)%nat -> nth j (left_view a) d = nth j a d.
Proof.
  intros Hj. unfold left_view. rewrite nth_slice; cbn [slice_lo slice_hi];
    rewrite ?bound_m2, ?bound_0; auto. lia.
Qed.

Lemma nth_mid_view a j d :
  (j < length a - 2)%nat -> nth j (mid_view a) d = nth (S j) a d.
Proof.
  intros Hj. unfold mid_view. rewrite nth_slice; cbn [slice_lo slice_hi];
    rewrite ?bound_m1, ?bound_1.
  - f_equal. lia.
  - lia.
Qed.

Lemma nth_right_view a j d :
  (j < length a - 2)%nat -> nth j (right_view a) d = nth (S (S j)) a d.
Proof.
  intros Hj. unfold right_view. rewrite nth_slice; cbn [slice_lo slice_hi];
    rewrite ?bound_2.
  - f_equal. lia.
  - lia.
Qed.

(** Assigning to [a[1:-1]] a value of the right shape. *)
Lemma set_interior a (v : list T) :
  length v = (length a - 2)%nat ->
  exists c, setslice a (Some 1%Z) (Some (-1)%Z) v = Some c
    /\ length c = length a
    /\ forall j d, nth j c d
         = if (Nat.leb 1 j && Nat.leb j (length a - 2))%bool
           then nth (j - 1) v d else nth j a d.
Proof.
  intros Hv. destruct a as [|x a'].
  { destruct v; [|discriminate]. exists []. repeat split.
    intros j d. rewrite !(nth_overflow []) by (simpl; lia).
    now destruct (_ && _)%bool. }
  set (a := x :: a') in *.
  assert (Hn : (1 <= length a)%nat) by (simpl; lia).
  rewrite setslice_same; cbn [slice_lo slice_hi]; rewrite ?bound_m1, ?bound_1;
    [|lia].
  replace (Nat.min 1 (length a)) with 1%nat by lia.
  eexists; split; [reflexivity|]. split.
  - rewrite !length_app, length_firstn, length_skipn. lia.
  - intros j d.
    assert (Hf : length (firstn 1 a) = 1%nat) by (rewrite length_firstn; lia).
    destruct (Nat.leb_spec 1 j); cbn [andb].
    + rewrite app_nth2 by lia. rewrite Hf.
      destruct (Nat.leb_spec j (length a - 2)).
      * now rewrite app_nth1 by lia.
      * rewrite app_nth2 by lia. rewrite nth_skipn. f_equal. lia.
    + rewrite app_nth1 by lia.
      rewrite <- (firstn_skipn 1 a) at 2. now rewrite app_nth1 by lia.
Qed.

End Views.
End StencilFacts.

(** ** Loops and the snapshot buffer *)

Module LoopFacts.
Import ListNotations.
Import Py PyFacts.

Lemma for_range_app (St : Type) (body : nat -> St -> option St) js1 js2 s :
  for_range (js1 ++ js2) body s
  = bind (for_range js1 body s) (for_range js2 body).
Proof.
  revert s. induction js1 as [|j js1 IH]; intros s; simpl; [reflexivity|].
  destruct (body j s) as [s'|]; simpl; auto.
Qed.

(** Running one more iteration. *)
Lemma for_range_S (St : Type) (body : nat -> St -> option St) n s :
  for_range (range 0 (S n)) body s
  = bind (for_range (range 0 n) body s) (body n).
Proof.
  unfold range. rewrite !Nat.sub_0_r, seq_S, for_range_app. simpl.
  destruct (for_range (seq 0 n) body s) as [s'|]; simpl; [|reflexivity].
  now destruct (body n s').
Qed.

(** A loop whose body preserves an invariant runs to completion. *)
Lemma for_range_inv (St : Type) (Inv : St -> Prop)
    (body : nat -> St -> option St) js s :
  Inv s ->
  (forall j s0, In j js -> Inv s0 ->
     exists s1, body j s0 = Some s1 /\ Inv s1) ->
  exists s', for_range js body s = Some s' /\ Inv s'.
Proof.
  revert s. induction js as [|j js IH]; intros s Hs Hb; simpl.
  - now exists s.
  - destruct (Hb j s) as (s1 & -> & H1); [now left|assumption|]. simpl.
    apply IH; [assumption|]. intros j' s0 Hin. apply Hb. now right.
Qed.

Lemma index_of_lt tt ttplot k :
  index_of tt ttplot = Some k -> (k < length ttplot)%nat.
Proof.
  revert k. induction ttplot as [|t rest IH]; intros k; simpl;
    [discriminate|].
  destruct (Nat.eqb t tt).
  - intros [= <-]. lia.
  - destruct (index_of tt rest) as [k'|]; simpl; [|discriminate].
    intros [= <-]. specialize (IH k' eq_refl). lia.
Qed.

(** Shape of the snapshot buffer: one row per plotted step, one column per
    grid point. *)
Definition plot_shape {T} (rows cols : nat) (to_plot : list (list T)) : Prop :=
  length to_plot = rows /\ Forall (fun row => length row = cols) to_plot.

Lemma plot_shape_full {T} rows cols (z : T) :
  plot_shape rows cols (full rows (full cols z)).
Proof.
  unfold plot_shape, full. split; [apply repeat_length|].
  apply Forall_forall. intros row Hin. apply repeat_spec in Hin. subst.
  apply repeat_length.
Qed.

(** Saving a snapshot never fails on a well-shaped buffer. *)
Lemma save_plot_ok {T} ttplot tt (uu : list T) to_plot :
  plot_shape (length ttplot) (length uu) to_plot ->
  exists tp, save_plot ttplot tt uu to_plot = Some tp
    /\ plot_shape (length ttplot) (length uu) tp.
Proof.
  intros [Hrows Hcols]. unfold save_plot.
  destruct (index_of tt ttplot) as [k|] eqn:Ek.
  2:{ exists to_plot. now split. }
  apply index_of_lt in Ek.
  assert (Hk : (k < length to_plot)%nat) by lia.
  rewrite (nth_error_nth' to_plot [] Hk). cbn [bind].
  assert (Hrow : length (nth k to_plot []) = length uu).
  { rewrite Forall_nth in Hcols. now apply Hcols. }
  rewrite setslice_same by (simpl; lia). cbn [bind slice_lo firstn app].
  eexists; split; [reflexivity|]. split.
  - rewrite length_update; lia.
  - apply Forall_nth. intros i d Hi.
    rewrite length_update in Hi by lia.
    rewrite nth_update by lia.
    destruct (Nat.eqb i k).
    + rewrite length_app, length_skipn. simpl. lia.
    + rewrite Forall_nth in Hcols. now apply Hcols.
Qed.

End LoopFacts.

(** ** Explicit diffusion: one step *)

Module FtcsFacts.
Import ListNotations.
Import Py PyFacts StencilFacts DiffusionFTCS.
Local Open Scope R_scope.

Section Step.
Variables (bigd deltat_sec deltax : R).
Variables (uu_left_dirich uu_right_dirich : R).

Local Notation alpha := (alpha bigd deltat_sec deltax).
Local Notation stencil := (stencil bigd deltat_sec deltax).
Local Notation step :=
  (step bigd deltat_sec deltax uu_left_dirich uu_right_dirich).

(** The three-point formula at interior index [j], read from [u]. *)
Definition three_point (u : list R) (j : nat) : R :=
  alpha * nth (j - 1) u 0 + (1 - 2 * alpha) * nth j u 0
  + alpha * nth (j + 1) u 0.

Lemma ftcs_stencil_spec (u : list R) :
  exists r, stencil u = Some r
    /\ length r = (length u - 2)%nat
    /\ forall j, (j < length u - 2)%nat ->
         nth j r 0 = three_point u (S j).
Proof.
  unfold DiffusionFTCS.stencil, Np.add, Np.scal.
  fold (left_view u) (mid_view u) (right_view u).
  rewrite broadcast2_same
    by now rewrite !length_map, length_left_view, length_mid_view.
  cbn [bind].
  rewrite broadcast2_same
    by (rewrite length_map2, !length_map, length_left_view, length_mid_view,
          length_right_view; lia).
  eexists; split; [reflexivity|]. split.
  - rewrite !length_map2, !length_map, length_left_view, length_mid_view,
      length_right_view. lia.
  - intros j Hj. unfold three_point.
    rewrite (nth_map2 _ _ _ 0 0 0);
      rewrite ?length_map2, ?length_map, ?length_left_view, ?length_mid_view,
        ?length_right_view; try lia.
    rewrite (nth_map2 _ _ _ 0 0 0);
      rewrite ?length_map, ?length_left_view, ?length_mid_view; try lia.
    rewrite !(nth_map_in _ _ 0 0)
      by (rewrite ?length_left_view, ?length_mid_view, ?length_right_view;
          lia).
    rewrite nth_left_view, nth_mid_view, nth_right_view by lia.
    replace (S j - 1)%nat with j by lia.
    replace (S j + 1)%nat with (S (S j)) by lia.
    reflexivity.
Qed.

(** Closed form of one step on a non-empty field. *)
Lemma ftcs_step_spec (u : list R) :
  (1 <= length u)%nat ->
  exists next, step u = Some next
    /\ length next = length u
    /\ forall j, (j < length u)%nat ->
         nth j next 0
         = if Nat.eqb j (length u - 1) then uu_right_dirich
           else if Nat.eqb j 0 then uu_left_dirich
           else three_point u j.
Proof.
  intros Hn. unfold DiffusionFTCS.step.
  destruct (ftcs_stencil_spec u) as (r & -> & Hlr & Hr). cbn [bind].
  destruct (set_interior u r Hlr) as (c1 & -> & Hl1 & H1). cbn [bind].
  rewrite (@setitem_nat _ c1 0) by lia. cbn [bind].
  assert (Hl2 : length (update c1 0 uu_left_dirich) = length u)
    by (rewrite length_update; lia).
  rewrite (@setitem_neg _ _ 1) by lia.
  eexists; split; [reflexivity|]. split.
  - rewrite length_update; lia.
  - intros j Hj. rewrite Hl2.
    rewrite nth_update by lia.
    destruct (Nat.eqb_spec j (length u - 1)); [reflexivity|].
    rewrite nth_update by lia.
    destruct (Nat.eqb_spec j 0); [reflexivity|].
    rewrite H1.
    destruct (Nat.leb_spec 1 j); [|lia].
    destruct (Nat.leb_spec j (length u - 2)); [|lia]. cbn [andb].
    rewrite Hr by lia. f_equal. lia.
Qed.

(** The loop runs to completion on every non-empty field, keeping the
    shapes of the field and of the snapshot buffer. *)
Variable ttplot : list nat.

Local Notation body :=
  (body bigd deltat_sec deltax uu_left_dirich uu_right_dirich ttplot).
Local Notation time_loop :=
  (time_loop bigd deltat_sec deltax uu_left_dirich uu_right_dirich ttplot).

Definition ftcs_shape (xnum : nat) (s : state) : Prop :=
  length (uu_cur s) = xnum
  /\ LoopFacts.plot_shape (length ttplot) xnum (to_plot s).

Lemma ftcs_body_ok (xnum tt : nat) (s : state) :
  (1 <= xnum)%nat -> ftcs_shape xnum s ->
  exists s', body tt s = Some s'
    /\ ftcs_shape xnum s'
    /\ step (uu_cur s) = Some (uu_cur s')
    /\ uu_old s' = uu_cur s.
Proof.
  intros Hx [Hlen Hplot]. unfold DiffusionFTCS.body.
  destruct (ftcs_step_spec (uu_cur s)) as (c & Hc & Hlc & _); [lia|].
  rewrite Hc. cbn [bind].
  destruct (@LoopFacts.save_plot_ok _ ttplot tt c (to_plot s))
    as (tp & -> & Htp); [now rewrite Hlc, Hlen|].
  cbn [bind]. eexists; split; [reflexivity|].
  repeat split; cbn; try lia; try apply Htp.
  rewrite <- Hlen, <- Hlc. apply Htp.
Qed.

Lemma ftcs_loop_ok (uu_0 : list R) (nsteps : nat) :
  (1 <= length uu_0)%nat ->
  exists s, time_loop nsteps uu_0 = Some s /\ ftcs_shape (length uu_0) s.
Proof.
  intros Hn. unfold DiffusionFTCS.time_loop.
  apply LoopFacts.for_range_inv.
  - split; [reflexivity|]. apply LoopFacts.plot_shape_full.
  - intros j s0 _ Hs0.
    destruct (@ftcs_body_ok _ j s0 Hn Hs0) as (s1 & H1 & H2 & _).
    now exists s1.
Qed.

(** Iteration [nsteps] of the loop applies [step] to the field left by the
    first [nsteps] iterations. *)
Lemma ftcs_loop_next (uu_0 : list R) (nsteps : nat) :
  (1 <= length uu_0)%nat ->
  exists s s',
    time_loop nsteps uu_0 = Some s
    /\ time_loop (S nsteps) uu_0 = Some s'
    /\ length (uu_cur s) = length uu_0
    /\ step (uu_cur s) = Some (uu_cur s')
    /\ uu_old s' = uu_cur s.
Proof.
  intros Hn.
  destruct (@ftcs_loop_ok uu_0 nsteps Hn) as (s & Hs & Hshape).
  destruct (@ftcs_body_ok _ nsteps s Hn Hshape) as (s' & Hb & _ & Hstep & Hold).
  exists s, s'. unfold DiffusionFTCS.time_loop in *.
  rewrite LoopFacts.for_range_S, Hs. cbn [bind].
  repeat split; try assumption. apply Hshape.
Qed.

End Step.
End FtcsFacts.

(** ** Explicit diffusion: the step and the run *)

Module FtcsClaims.
Import ListNotations.
Import Py PyFacts StencilFacts DiffusionFTCS FtcsFacts.
Local Open Scope R_scope.

(** C1.  On a field of at least three points one FTCS step never raises; it
    returns a field of the same length whose interior entries are
    [alpha*u[j-1] + (1-2*alpha)*u[j] + alpha*u[j+1]] read from the previous
    field, with [alpha = D*dt/dx^2], and whose two end entries are the left
    and right Dirichlet constants. *)
Theorem ftcs_step_three_point
    (bigd deltat_sec deltax uu_left_dirich uu_right_dirich : R)
    (u : list R) :
  (3 <= length u)%nat ->
  exists next,
    step bigd deltat_sec deltax uu_left_dirich uu_right_dirich u = Some next
    /\ length next = length u
    /\ alpha bigd deltat_sec deltax = bigd * deltat_sec / deltax ^ 2
    /\ (forall j, (1 <= j <= length u - 2)%nat ->
          nth j next 0
          = alpha bigd deltat_sec deltax * nth (j - 1) u 0
            + (1 - 2 * alpha bigd deltat_sec deltax) * nth j u 0
            + alpha bigd deltat_sec deltax * nth (j + 1) u 0)
    /\ nth 0 next 0 = uu_left_dirich
    /\ nth (length u - 1) next 0 = uu_right_dirich.
Proof.
  intros Hn.
  destruct (@ftcs_step_spec bigd deltat_sec deltax uu_left_dirich
              uu_right_dirich u) as (next & Hs & Hl & Hj); [lia|].
  exists next. repeat split; try assumption.
  - intros j Hr. rewrite Hj by lia.
    destruct (Nat.eqb_spec j (length u - 1)); [lia|].
    destruct (Nat.eqb_spec j 0); [lia|]. reflexivity.
  - rewrite Hj by lia.
    destruct (Nat.eqb_spec 0 (length u - 1)); [lia|]. reflexivity.
  - rewrite Hj by lia. now rewrite Nat.eqb_refl.
Qed.

Lemma ftcs_step_three_point_witness :
  (3 <= length [1; 5; 2; 0])%nat
  /\ exists next,
       step 10 8640 1000 (56 / 100) (1 / 1000) [1; 5; 2; 0] = Some next
       /\ length next = 4%nat
       /\ nth 0 next 0 = 56 / 100
       /\ nth 3 next 0 = 1 / 1000.
Proof.
  split; [simpl; lia|].
  destruct (@ftcs_step_three_point 10 8640 1000 (56 / 100) (1 / 1000)
              [1; 5; 2; 0]) as (next & H1 & H2 & _ & _ & H5 & H6);
    [simpl; lia|].
  exists next. repeat split; assumption.
Defined.

(** Bounds on a list of reals. *)
Definition list_max (u : list R) : R := fold_right Rmax 0 u.

Lemma nth_le_list_max (u : list R) j :
  (j < length u)%nat -> nth j u 0 <= list_max u.
Proof.
  revert j. induction u as [|x u IH]; intros [|j] Hj; simpl in *; try lia.
  - apply Rmax_l.
  - eapply Rle_trans; [apply IH; lia|apply Rmax_r].
Qed.

Lemma sum_bounds (l : list R) (M : R) :
  Forall (fun x => 0 <= x <= M) l ->
  0 <= fold_right Rplus 0 l <= INR (length l) * M.
Proof.
  induction 1 as [|x l Hx _ IH].
  - simpl. lra.
  - cbn [fold_right length]. rewrite S_INR. lra.
Qed.

Section Stability.
Variables (bigd deltat_sec deltax : R).
Variables (uu_left_dirich uu_right_dirich : R).
Variable ttplot : list nat.

Local Notation alpha := (alpha bigd deltat_sec deltax).
Local Notation step :=
  (step bigd deltat_sec deltax uu_left_dirich uu_right_dirich).
Local Notation time_loop :=
  (time_loop bigd deltat_sec deltax uu_left_dirich uu_right_dirich ttplot).

Hypothesis alpha_range : 0 <= alpha <= 1 / 2.
Variable M : R.
Hypothesis left_range : 0 <= uu_left_dirich <= M.
Hypothesis right_range : 0 <= uu_right_dirich <= M.

(** Entries between 0 and [M]. *)
Definition within (u : list R) : Prop :=
  forall j, (j < length u)%nat -> 0 <= nth j u 0 <= M.

(** The three-point formula is a convex combination of its inputs. *)
Lemma three_point_within (u : list R) j :
  within u -> (1 <= j)%nat -> (j + 1 < length u)%nat ->
  0 <= three_point bigd deltat_sec deltax u j <= M.
Proof.
  intros Hu H1 H2. unfold three_point.
  pose proof (Hu (j - 1)%nat ltac:(lia)) as Ha.
  pose proof (Hu j ltac:(lia)) as Hb.
  pose proof (Hu (j + 1)%nat ltac:(lia)) as Hc.
  set (a := nth (j - 1) u 0) in *. set (b := nth j u 0) in *.
  set (c := nth (j + 1) u 0) in *.
  destruct alpha_range as [Ha0 Ha1]. split; nra.
Qed.

Lemma ftcs_step_within (u next : list R) :
  within u -> step u = Some next -> within next.
Proof.
  intros Hu Hs. destruct u as [|x u'].
  { discriminate Hs. }
  set (u := x :: u') in *.
  destruct (@ftcs_step_spec bigd deltat_sec deltax uu_left_dirich
              uu_right_dirich u) as (n' & Hs' & Hl & Hj); [simpl; lia|].
  rewrite Hs in Hs'. injection Hs' as <-.
  intros j Hlt. rewrite Hl in Hlt. rewrite Hj by assumption.
  destruct (Nat.eqb_spec j (length u - 1)); [assumption|].
  destruct (Nat.eqb_spec j 0); [assumption|].
  apply three_point_within; [assumption|lia|lia].
Qed.

Lemma ftcs_loop_within (uu_0 : list R) (nsteps : nat) (s : state) :
  within uu_0 -> time_loop nsteps uu_0 = Some s -> within (uu_cur s).
Proof.
  intros H0. revert s. induction nsteps as [|n IH]; intros s Hs.
  - injection Hs as <-. exact H0.
  - unfold DiffusionFTCS.time_loop in *.
    rewrite LoopFacts.for_range_S in Hs.
    destruct (for_range (range 0 n) _ _) as [s0|]; [|discriminate].
    cbn [bind] in Hs. specialize (IH s0 eq_refl).
    unfold body in Hs.
    destruct (DiffusionFTCS.step _ _ _ _ _ (uu_cur s0)) as [c|] eqn:Hc;
      [|discriminate].
    cbn [bind] in Hs.
    destruct (save_plot ttplot n c (to_plot s0)); [|discriminate].
    injection Hs as <-. cbn. eapply ftcs_step_within; eauto.
Qed.

Lemma mass_within (u : list R) :
  within u -> Rabs (mass deltax u) <= INR (length u - 2) * M * Rabs deltax.
Proof.
  intros Hu. unfold mass. fold (mid_view u).
  assert (Hs : Forall (fun x => 0 <= x <= M) (mid_view u)).
  { apply Forall_nth. intros i d Hi. rewrite length_mid_view in Hi.
    rewrite (nth_indep _ d 0) by now rewrite length_mid_view.
    rewrite nth_mid_view by assumption. apply Hu. lia. }
  apply sum_bounds in Hs. rewrite length_mid_view in Hs.
  rewrite Rabs_mult, (Rabs_pos_eq _ (proj1 Hs)).
  apply Rmult_le_compat_r; [apply Rabs_pos|apply Hs].
Qed.

End Stability.

(** C7.  For a diffusion number [alpha = D*dt/dx^2] (a diffusion
    coefficient and steps make it non-negative) with [alpha <= 1/2] and
    non-negative Dirichlet constants, a non-negative field stays
    non-negative after any number of steps, the run never raises on a
    non-empty field, and the absolute value of the interior mass stays
    below one bound, the same for every step count. *)
Theorem ftcs_nonnegative_and_mass_bounded
    (bigd deltat_sec deltax uu_left_dirich uu_right_dirich : R)
    (ttplot : list nat) (uu_0 : list R) :
  0 <= alpha bigd deltat_sec deltax <= 1 / 2 ->
  0 <= uu_left_dirich -> 0 <= uu_right_dirich ->
  Forall (fun x => 0 <= x) uu_0 ->
  exists B,
    (forall nsteps s,
       time_loop bigd deltat_sec deltax uu_left_dirich uu_right_dirich
         ttplot nsteps uu_0 = Some s ->
       Forall (fun x => 0 <= x) (uu_cur s)
       /\ Rabs (mass deltax (uu_cur s)) <= B)
    /\ ((1 <= length uu_0)%nat ->
        forall nsteps, exists s,
          time_loop bigd deltat_sec deltax uu_left_dirich uu_right_dirich
            ttplot nsteps uu_0 = Some s).
Proof.
  intros Ha Hl Hr H0.
  set (M := Rmax (Rmax uu_left_dirich uu_right_dirich) (list_max uu_0)).
  assert (HlM : 0 <= uu_left_dirich <= M).
  { split; [assumption|]. unfold M.
    eapply Rle_trans; [apply Rmax_l|apply Rmax_l]. }
  assert (HrM : 0 <= uu_right_dirich <= M).
  { split; [assumption|]. unfold M.
    eapply Rle_trans; [apply Rmax_r|apply Rmax_l]. }
  assert (Hw : within M uu_0).
  { intros j Hj. split.
    - rewrite Forall_nth in H0. now apply H0.
    - unfold M. eapply Rle_trans; [now apply nth_le_list_max|apply Rmax_r]. }
  exists (INR (length uu_0 - 2) * M * Rabs deltax). split.
  - intros nsteps s Hs.
    pose proof (@ftcs_loop_within _ _ _ _ _ ttplot Ha M HlM HrM uu_0 nsteps s
                  Hw Hs) as Hws.
    assert (Hlen : length (uu_cur s) = length uu_0).
    { destruct uu_0 as [|x u'] eqn:E.
      - destruct nsteps; [now injection Hs as <-|discriminate Hs].
      - destruct (@ftcs_loop_ok bigd deltat_sec deltax uu_left_dirich
                    uu_right_dirich ttplot (x :: u') nsteps) as (s' & Hs' & Hsh);
          [simpl; lia|].
        rewrite Hs in Hs'. injection Hs' as <-. apply Hsh. }
    split.
    + apply Forall_nth. intros i d Hi.
      rewrite (nth_indep _ d 0) by assumption. now apply Hws.
    + rewrite <- Hlen. now apply mass_within.
  - intros Hn nsteps.
    destruct (@ftcs_loop_ok bigd deltat_sec deltax uu_left_dirich
                uu_right_dirich ttplot uu_0 nsteps Hn) as (s & Hs & _).
    now exists s.
Qed.

Lemma ftcs_nonnegative_and_mass_bounded_witness :
  (0 <= alpha 10 8640 1000 <= 1 / 2)
  /\ exists B, forall nsteps, exists s,
       time_loop 10 8640 1000 (56 / 100) (1 / 1000) [3%nat] nsteps
         [1; 5; 2; 0] = Some s
       /\ Forall (fun x => 0 <= x) (uu_cur s)
       /\ Rabs (mass 1000 (uu_cur s)) <= B.
Proof.
  assert (Ha : 0 <= alpha 10 8640 1000 <= 1 / 2) by (unfold alpha; lra).
  split; [exact Ha|].
  destruct (@ftcs_nonnegative_and_mass_bounded 10 8640 1000 (56 / 100)
              (1 / 1000) [3%nat] [1; 5; 2; 0] Ha)
    as (B & Hrun & Htot); try lra.
  { repeat constructor; lra. }
  exists B. intros nsteps.
  assert (Hn : (1 <= length [1; 5; 2; 0])%nat) by (simpl; lia).
  destruct (Htot Hn nsteps) as (s & Hs).
  exists s. split; [assumption|]. exact (Hrun nsteps s Hs).
Defined.

(** Outside this domain, for a negative coefficient, the sign is not kept:
    a negative [alpha] turns a non-negative field negative in one step. *)
Lemma ftcs_negative_diffusion_flips_sign :
  alpha (-1) 1 1 <= 1 / 2
  /\ 0 <= 1
  /\ Forall (fun x => 0 <= x) [1; 0; 1]
  /\ exists s,
       time_loop (-1) 1 1 1 1 [] 1 [1; 0; 1] = Some s
       /\ nth 1 (uu_cur s) 0 < 0.
Proof.
  split; [unfold alpha; lra|]. split; [lra|].
  split; [repeat constructor; lra|].
  eexists. split; [reflexivity|]. run_arrays. lra.
Qed.

End FtcsClaims.

(** ** Wave propagation: one pass through the loop body *)

Module WaveFacts.
Import ListNotations.
Import Py PyFacts StencilFacts TsunamiWave.
Local Open Scope R_scope.

Ltac shapes :=
  repeat first
    [ rewrite length_map2 | rewrite length_map | rewrite length_left_view
    | rewrite length_mid_view | rewrite length_right_view ];
  lia.

Section Step.
Variables (grv deltat_sec deltax : R).
Variable bathy_a : list R.

Local Notation fac1 := (fac1 grv deltat_sec deltax bathy_a).
Local Notation fac2 := (fac2 grv deltat_sec deltax).
Local Notation interior := (interior grv deltat_sec deltax bathy_a).

(** Pointwise reading of the stencil terms at grid index [j]. *)
Definition laplacian_at (u : list R) (j : nat) : R :=
  nth (j + 1) u 0 - 2 * nth j u 0 + nth (j - 1) u 0.

Definition cross_at (u : list R) (j : nat) : R :=
  (nth (j + 1) bathy_a 0 - nth (j - 1) bathy_a 0)
  * (nth (j + 1) u 0 - nth (j - 1) u 0).

Definition fac1_at (j : nat) : R :=
  (sqrt (grv * nth j bathy_a 0) * deltat_sec / deltax) ^ 2.

(** The value the code stores at interior index [j] on step 0 ... *)
Definition first_point (u : list R) (j : nat) : R :=
  nth j u 0 + 1 / 2 * fac1_at j * laplacian_at u j + fac2 * cross_at u j.

(** ... and on every later step. *)
Definition later_point (u u2 : list R) (j : nat) : R :=
  -1 * nth j u2 0 + 2 * nth j u 0 + fac1_at j * laplacian_at u j
  + fac2 * cross_at u j.

Definition wave_point (tt : nat) (u u2 : list R) (j : nat) : R :=
  if Nat.eqb tt 0 then first_point u j else later_point u u2 j.

Lemma sp_term1_spec (u : list R) :
  exists r, sp_term1 u = Some r
    /\ length r = (length u - 2)%nat
    /\ forall j, (j < length u - 2)%nat -> nth j r 0 = laplacian_at u (S j).
Proof.
  unfold sp_term1, Np.sub, Np.add, Np.scal.
  fold (left_view u) (mid_view u) (right_view u).
  rewrite broadcast2_same by shapes. cbn [bind].
  rewrite broadcast2_same by shapes.
  eexists; split; [reflexivity|]. split; [shapes|].
  intros j Hj. unfold laplacian_at.
  rewrite (nth_map2 _ _ _ 0 0 0) by shapes.
  rewrite (nth_map2 _ _ _ 0 0 0) by shapes.
  rewrite (nth_map_in _ _ 0 0) by shapes.
  rewrite nth_left_view, nth_mid_view, nth_right_view by lia.
  replace (S j + 1)%nat with (S (S j)) by lia.
  replace (S j - 1)%nat with j by lia. reflexivity.
Qed.

Lemma sp_term2_spec (u : list R) :
  length bathy_a = length u ->
  exists r, sp_term2 bathy_a u = Some r
    /\ length r = (length u - 2)%nat
    /\ forall j, (j < length u - 2)%nat -> nth j r 0 = cross_at u (S j).
Proof.
  intros Hb. unfold sp_term2, Np.sub, Np.mul.
  fold (left_view u) (right_view u) (left_view bathy_a) (right_view bathy_a).
  rewrite broadcast2_same by shapes. cbn [bind].
  rewrite broadcast2_same by shapes. cbn [bind].
  rewrite broadcast2_same by shapes.
  eexists; split; [reflexivity|]. split; [shapes|].
  intros j Hj. unfold cross_at.
  rewrite (nth_map2 _ _ _ 0 0 0) by shapes.
  rewrite !(nth_map2 _ _ _ 0 0 0) by shapes.
  rewrite !nth_left_view, !nth_right_view by lia.
  replace (S j + 1)%nat with (S (S j)) by lia.
  replace (S j - 1)%nat with j by lia. reflexivity.
Qed.

Lemma fac1_spec :
  length fac1 = (length bathy_a - 2)%nat
  /\ forall j, (j < length bathy_a - 2)%nat -> nth j fac1 0 = fac1_at (S j).
Proof.
  unfold TsunamiWave.fac1.
  match goal with |- context [slice ?l _ _] => fold (mid_view l) end.
  split; [shapes|]. intros j Hj.
  rewrite nth_mid_view by shapes.
  now rewrite (nth_map_in _ _ 0 0) by lia.
Qed.

Lemma wave_interior_spec (tt : nat) (u u2 : list R) :
  length bathy_a = length u ->
  (tt <> 0%nat -> length u2 = length u) ->
  exists r, interior tt u u2 = Some r
    /\ length r = (length u - 2)%nat
    /\ forall j, (j < length u - 2)%nat -> nth j r 0 = wave_point tt u u2 (S j).
Proof.
  intros Hb H2. unfold TsunamiWave.interior.
  destruct (sp_term1_spec u) as (s1 & -> & Hl1 & Hs1).
  destruct (sp_term2_spec u Hb) as (s2 & -> & Hl2 & Hs2).
  destruct fac1_spec as (Hlf & Hf).
  cbn [bind]. unfold wave_point.
  destruct (Nat.eqb_spec tt 0) as [|Hne];
    unfold Np.mul, Np.add, Np.scal; fold (mid_view u) (mid_view u2).
  - rewrite broadcast2_same by shapes. cbn [bind].
    rewrite broadcast2_same by shapes. cbn [bind].
    rewrite broadcast2_same by shapes.
    eexists; split; [reflexivity|]. split; [shapes|].
    intros j Hj. unfold first_point.
    rewrite (nth_map2 _ _ _ 0 0 0) by shapes.
    rewrite (nth_map2 _ _ _ 0 0 0) by shapes.
    rewrite (nth_map2 _ _ _ 0 0 0) by shapes.
    rewrite !(nth_map_in _ _ 0 0) by shapes.
    rewrite nth_mid_view, Hs1, Hs2, Hf by lia. reflexivity.
  - specialize (H2 Hne).
    rewrite broadcast2_same by shapes. cbn [bind].
    rewrite broadcast2_same by shapes. cbn [bind].
    rewrite broadcast2_same by shapes. cbn [bind].
    rewrite broadcast2_same by shapes.
    eexists; split; [reflexivity|]. split; [shapes|].
    intros j Hj. unfold later_point.
    rewrite (nth_map2 _ _ _ 0 0 0) by shapes.
    rewrite (nth_map2 _ _ _ 0 0 0) by shapes.
    rewrite (nth_map2 _ _ _ 0 0 0) by shapes.
    rewrite (nth_map2 _ _ _ 0 0 0) by shapes.
    rewrite !(nth_map_in _ _ 0 0) by shapes.
    rewrite !nth_mid_view, Hs1, Hs2, Hf by lia. reflexivity.
Qed.

(** The two boundary assignments, in program order. *)
Lemma wave_boundary_spec (c : list R) :
  (3 <= length c)%nat ->
  exists c', boundary c = Some c'
    /\ length c' = length c
    /\ (forall j, (1 <= j <= length c - 2)%nat -> nth j c' 0 = nth j c 0)
    /\ nth 0 c' 0 = nth 2 c' 0
    /\ nth (length c - 1) c' 0 = nth (length c - 3) c' 0.
Proof.
  intros Hn. unfold boundary.
  change 2%Z with (Z.of_nat 2). change (-3)%Z with (- Z.of_nat 3)%Z.
  rewrite (@getitem_nat _ c 2 0) by lia. cbn [bind].
  rewrite (@setitem_nat _ c 0) by lia. cbn [bind].
  set (c2 := update c 0 (nth 2 c 0)).
  assert (Hl2 : length c2 = length c) by (apply length_update; lia).
  rewrite (@getitem_neg _ c2 3 0) by lia. cbn [bind].
  rewrite (@setitem_neg _ c2 1) by lia.
  rewrite Hl2.
  eexists; split; [reflexivity|].
  assert (Hc2 : forall j, nth j c2 0
                  = if Nat.eqb j 0 then nth 2 c 0 else nth j c 0).
  { intros j. unfold c2. apply nth_update. lia. }
  split; [rewrite length_update; lia|]. split; [|split].
  - intros j Hj. rewrite nth_update by lia.
    destruct (Nat.eqb_spec j (length c - 1)); [lia|].
    rewrite Hc2. destruct (Nat.eqb_spec j 0); [lia|reflexivity].
  - rewrite !nth_update by lia. rewrite !Hc2.
    destruct (Nat.eqb_spec 0 (length c - 1)); [lia|].
    destruct (Nat.eqb_spec 2 (length c - 1)) as [E|E].
    + replace (length c - 3)%nat with 0%nat by lia. reflexivity.
    + reflexivity.
  - rewrite !nth_update by lia. rewrite Nat.eqb_refl.
    destruct (Nat.eqb_spec (length c - 3) (length c - 1)); [lia|].
    reflexivity.
Qed.

Variable ttplot : list nat.
Variable nan : R.

Local Notation body := (body grv deltat_sec deltax bathy_a ttplot).
Local Notation time_loop :=
  (time_loop grv deltat_sec deltax bathy_a ttplot nan).

Definition wave_shape (xnum : nat) (s : state) : Prop :=
  length (uu_cur s) = xnum
  /\ length (uu_old s) = xnum
  /\ LoopFacts.plot_shape (length ttplot) xnum (to_plot s).

Lemma wave_body_spec (xnum tt : nat) (s : state) :
  (3 <= xnum)%nat -> length bathy_a = xnum -> wave_shape xnum s ->
  exists s', body tt s = Some s'
    /\ wave_shape xnum s'
    /\ uu_old s' = uu_cur s
    /\ uu_old_2 s' = uu_old s
    /\ (forall j, (1 <= j <= xnum - 2)%nat ->
          nth j (uu_cur s') 0 = wave_point tt (uu_cur s) (uu_old s) j)
    /\ nth 0 (uu_cur s') 0 = nth 2 (uu_cur s') 0
    /\ nth (xnum - 1) (uu_cur s') 0 = nth (xnum - 3) (uu_cur s') 0.
Proof.
  intros Hx Hb (Hc & Ho & Hp). unfold TsunamiWave.body.
  destruct (@wave_interior_spec tt (uu_cur s) (uu_old s))
    as (r & -> & Hlr & Hr); [lia|lia|]. cbn [bind].
  destruct (set_interior (uu_cur s) r Hlr) as (c1 & -> & Hl1 & H1).
  cbn [bind].
  destruct (@wave_boundary_spec c1) as (c2 & -> & Hl2 & Hin & H0 & Hlast);
    [lia|]. cbn [bind].
  destruct (@LoopFacts.save_plot_ok _ ttplot tt c2 (to_plot s))
    as (tp & -> & Htp); [now rewrite Hl2, Hl1, Hc|].
  cbn [bind]. eexists; split; [reflexivity|].
  unfold wave_shape. cbn [uu_cur uu_old uu_old_2 to_plot].
  split.
  { split; [lia|]. split; [exact Hc|].
    rewrite <- Hc, <- Hl1, <- Hl2. exact Htp. }
  split; [reflexivity|]. split; [reflexivity|]. split; [|split].
  - intros j Hj. rewrite Hin by lia. rewrite H1.
    destruct (Nat.leb_spec 1 j); [|lia].
    destruct (Nat.leb_spec j (length (uu_cur s) - 2)); [|lia]. cbn [andb].
    rewrite Hr by lia. f_equal. lia.
  - assumption.
  - rewrite <- Hc, <- Hl1. assumption.
Qed.

Lemma wave_init_shape (uu_0 : list R) :
  wave_shape (length uu_0) (init ttplot nan uu_0).
Proof.
  repeat split; cbn.
  - unfold Np.scal, Np.ones, full. now rewrite length_map, repeat_length.
  - apply repeat_length.
  - apply (LoopFacts.plot_shape_full (length ttplot) (length uu_0) 0).
Qed.

Lemma wave_loop_ok (uu_0 : list R) (nsteps : nat) :
  (3 <= length uu_0)%nat -> length bathy_a = length uu_0 ->
  exists s, time_loop nsteps uu_0 = Some s /\ wave_shape (length uu_0) s.
Proof.
  intros Hn Hb. unfold TsunamiWave.time_loop.
  apply LoopFacts.for_range_inv; [apply wave_init_shape|].
  intros j s0 _ Hs0.
  destruct (@wave_body_spec _ j s0 Hn Hb Hs0) as (s1 & H1 & H2 & _).
  now exists s1.
Qed.

End Step.
End WaveFacts.

(** ** Reading the previous time level only *)

Module FrozenUpdate.
Import ListNotations.
Import Py PyFacts StencilFacts.
Local Open Scope R_scope.

Section Sweeps.
Context {Frozen : Type}.

(** The update the specification asks for: a loop over the interior that
    stores [f frozen j] at index [j], where [frozen] is a copy of the
    earlier time levels taken before the first store. *)
Fixpoint sweep_frozen (f : Frozen -> nat -> R) (frozen : Frozen)
  (js : list nat) (cur : list R) : list R :=
  match js with
  | [] => cur
  | j :: js' => sweep_frozen f frozen js' (update cur j (f frozen j))
  end.

Lemma length_sweep_frozen f (frozen : Frozen) js cur :
  (forall j, In j js -> (j < length cur)%nat) ->
  length (sweep_frozen f frozen js cur) = length cur.
Proof.
  revert cur. induction js as [|j0 js IH]; intros cur Hjs; simpl;
    [reflexivity|].
  rewrite IH.
  - apply length_update. apply Hjs. now left.
  - intros j Hj. rewrite length_update by (apply Hjs; now left).
    apply Hjs. now right.
Qed.

Lemma nth_sweep_frozen f (frozen : Frozen) js cur j d :
  (forall i, In i js -> (i < length cur)%nat) ->
  nth j (sweep_frozen f frozen js cur) d
  = if existsb (Nat.eqb j) js then f frozen j else nth j cur d.
Proof.
  revert cur. induction js as [|j0 js IH]; intros cur Hjs; simpl;
    [reflexivity|].
  assert (H0 : (j0 < length cur)%nat) by (apply Hjs; now left).
  rewrite IH.
  - rewrite nth_update by assumption.
    destruct (Nat.eqb_spec j j0) as [->|]; simpl;
      now destruct (existsb _ js).
  - intros i Hi. rewrite length_update by assumption. apply Hjs. now right.
Qed.

End Sweeps.

(** The forbidden variant: each store is visible to the later reads. *)
Fixpoint sweep_in_place (f : list R -> nat -> R) (js : list nat)
  (cur : list R) : list R :=
  match js with
  | [] => cur
  | j :: js' => sweep_in_place f js' (update cur j (f cur j))
  end.

(** On a spike the two sweeps differ: the in-place sweep feeds the value
    just stored at index 1 into the update at index 2. *)
Example in_place_sweep_differs :
  nth 2 (sweep_frozen (FtcsFacts.three_point 1 1 1) [0; 1; 0; 0]
           (range 1 3) [0; 1; 0; 0]) 0 = 1
  /\ nth 2 (sweep_in_place (FtcsFacts.three_point 1 1 1)
              (range 1 3) [0; 1; 0; 0]) 0 = -1.
Proof. split; run_arrays; field. Qed.

Lemma interior_in_range (n j : nat) :
  (1 <= j <= n - 2)%nat -> existsb (Nat.eqb j) (range 1 (n - 1)) = true.
Proof.
  intros Hj. apply existsb_exists. exists j. split.
  - unfold range. apply in_seq. lia.
  - apply Nat.eqb_refl.
Qed.

Lemma range_in_bounds (n i : nat) :
  In i (range 1 (n - 1)) -> (i < n)%nat.
Proof. unfold range. rewrite in_seq. lia. Qed.

(** C3.  In the explicit diffusion step and in the wave step, the interior of
    the new field is what a sweep over the interior computes from copies of
    the previous level (and of the level before it, for the wave scheme)
    frozen before any store; the implicit step is a function of the
    previous field alone.  All three steps run without raising. *)
Theorem interior_update_reads_frozen_levels :
  (forall bigd deltat_sec deltax uu_left_dirich uu_right_dirich (u : list R),
     (3 <= length u)%nat ->
     exists next,
       DiffusionFTCS.step bigd deltat_sec deltax uu_left_dirich
         uu_right_dirich u = Some next
       /\ forall j, (1 <= j <= length u - 2)%nat ->
            nth j next 0
            = nth j (sweep_frozen
                       (FtcsFacts.three_point bigd deltat_sec deltax)
                       u (range 1 (length u - 1)) u) 0)
  /\ (forall grv deltat_sec deltax bathy_a ttplot tt xnum
        (s : TsunamiWave.state),
       (3 <= xnum)%nat -> length bathy_a = xnum ->
       WaveFacts.wave_shape ttplot xnum s ->
       exists s',
         TsunamiWave.body grv deltat_sec deltax bathy_a ttplot tt s = Some s'
         /\ TsunamiWave.uu_old s' = TsunamiWave.uu_cur s
         /\ TsunamiWave.uu_old_2 s' = TsunamiWave.uu_old s
         /\ forall j, (1 <= j <= xnum - 2)%nat ->
              nth j (TsunamiWave.uu_cur s') 0
              = nth j (sweep_frozen
                         (fun levels =>
                            WaveFacts.wave_point grv deltat_sec deltax
                              bathy_a tt (fst levels) (snd levels))
                         (TsunamiWave.uu_cur s, TsunamiWave.uu_old s)
                         (range 1 (xnum - 1)) (TsunamiWave.uu_cur s)) 0)
  /\ (forall F xnum ttplot inv tt s s',
        @DiffusionImplicit.body F xnum ttplot inv tt s = Some s' ->
        @DiffusionImplicit.step F xnum inv (DiffusionImplicit.uu_cur s)
        = Some (DiffusionImplicit.uu_cur s')).
Proof.
  split; [|split].
  - intros bigd dt dx l r u Hn.
    destruct (@FtcsFacts.ftcs_step_spec bigd dt dx l r u)
      as (next & Hs & Hl & Hj); [lia|].
    exists next. split; [assumption|]. intros j Hr.
    rewrite nth_sweep_frozen by (intros i Hi; now apply range_in_bounds).
    rewrite interior_in_range by assumption.
    rewrite Hj by lia.
    destruct (Nat.eqb_spec j (length u - 1)); [lia|].
    destruct (Nat.eqb_spec j 0); [lia|]. reflexivity.
  - intros grv dt dx b ttplot tt xnum s Hx Hb Hs.
    destruct (@WaveFacts.wave_body_spec grv dt dx b ttplot xnum tt s Hx Hb Hs)
      as (s' & Hbody & _ & Ho & Ho2 & Hj & _).
    exists s'. repeat split; try assumption. intros j Hr.
    destruct Hs as (Hc & _).
    rewrite nth_sweep_frozen
      by (intros i Hi; rewrite Hc; now apply range_in_bounds).
    rewrite interior_in_range by assumption. now apply Hj.
  - intros F xnum ttplot inv tt s s'. unfold DiffusionImplicit.body.
    destruct (@DiffusionImplicit.step F xnum inv (DiffusionImplicit.uu_cur s))
      as [c|]; [|discriminate].
    cbn [bind]. destruct (save_plot _ _ _ _); [|discriminate].
    now intros [= <-].
Qed.

End FrozenUpdate.

(** ** Wave propagation: the first step *)

Module WaveClaims.
Import ListNotations.
Import Py PyFacts StencilFacts TsunamiWave WaveFacts.
Local Open Scope R_scope.

Section FirstStep.
Variables (grv deltat_sec deltax : R).
Variable bathy_a : list R.

(** The one-level form that a zero initial time derivative gives: the
    previous value plus one half of both spatial terms of the two-level
    update. *)
Definition zero_velocity_point (u : list R) (j : nat) : R :=
  nth j u 0
  + 1 / 2 * (fac1_at grv deltat_sec deltax bathy_a j * laplacian_at u j
             + fac2 grv deltat_sec deltax * cross_at bathy_a u j).

(** It is the two-level update in which the level before the first one is
    the mirror image of the level after it. *)
Lemma zero_velocity_point_mirror (u u2 : list R) (j : nat) :
  nth j u2 0 = later_point grv deltat_sec deltax bathy_a u u2 j <->
  nth j u2 0 = zero_velocity_point u j.
Proof.
  unfold later_point, zero_velocity_point.
  set (L := fac1_at _ _ _ _ _ * laplacian_at _ _).
  set (C := fac2 _ _ _ * cross_at _ _ _).
  split; intros H; lra.
Qed.

(** What the code stores on the first step and what the zero-velocity form
    asks for differ by one half of the cross term. *)
Lemma first_point_excess (u : list R) (j : nat) :
  first_point grv deltat_sec deltax bathy_a u j - zero_velocity_point u j
  = 1 / 2 * (fac2 grv deltat_sec deltax * cross_at bathy_a u j).
Proof. unfold first_point, zero_velocity_point. lra. Qed.

End FirstStep.

(** The part of C6 that the code satisfies: step 0 runs without raising,
    never reads the level before the previous one, and halves the Laplacian
    term; every later step uses the two-level form. *)
Lemma wave_step_forms grv deltat_sec deltax bathy_a ttplot xnum tt
    (s : state) :
  (3 <= xnum)%nat -> length bathy_a = xnum -> wave_shape ttplot xnum s ->
  exists s',
    body grv deltat_sec deltax bathy_a ttplot tt s = Some s'
    /\ forall j, (1 <= j <= xnum - 2)%nat ->
         nth j (uu_cur s') 0
         = if Nat.eqb tt 0
           then first_point grv deltat_sec deltax bathy_a (uu_cur s) j
           else later_point grv deltat_sec deltax bathy_a
                  (uu_cur s) (uu_old s) j.
Proof.
  intros Hx Hb Hs.
  destruct (@wave_body_spec grv deltat_sec deltax bathy_a ttplot xnum tt s
              Hx Hb Hs) as (s' & Hbody & _ & _ & _ & Hj & _).
  exists s'. split; [assumption|]. intros j Hr. now rewrite Hj.
Qed.

(** C6, on a grid of three points with depths 1, 1, 2 and field 0, 0, 1
    (gravity, time step and grid step 1): the first step stores 3/4 at the
    interior point, the zero-velocity form asks for 5/8. *)
Theorem wave_first_step_cross_term_not_halved (nan : R) :
  exists s',
    time_loop 1 1 1 [1; 1; 2] [] nan 1 [0; 0; 1] = Some s'
    /\ nth 1 (uu_cur s') 0 = 3 / 4
    /\ zero_velocity_point 1 1 1 [1; 1; 2] [0; 0; 1] 1 = 5 / 8.
Proof.
  eexists. split; [reflexivity|]. split.
  - run_arrays. rewrite !Rmult_1_r, sqrt_1. lra.
  - unfold zero_velocity_point, fac1_at, fac2, laplacian_at, cross_at.
    cbn [nth Nat.add Nat.sub]. rewrite !Rmult_1_r, sqrt_1. lra.
Qed.

End WaveClaims.

(** ** Derivative estimators *)

Module FiniteDifferenceFacts.
Import ListNotations.
Import Py PyFacts FiniteDifference.
Local Open Scope R_scope.

(** A loop that stores [f ii] at index [ii] for every [ii] of its range. *)
Lemma for_range_fill {T} (f : nat -> T)
    (body : nat -> list T -> option (list T)) js a0 n :
  length a0 = n ->
  (forall ii a, In ii js -> length a = n ->
     (ii < n)%nat /\ body ii a = Some (update a ii (f ii))) ->
  exists r, for_range js body a0 = Some r
    /\ length r = n
    /\ forall j d, nth j r d
         = if existsb (Nat.eqb j) js then f j else nth j a0 d.
Proof.
  revert a0. induction js as [|j0 js IH]; intros a0 Hl Hb.
  - exists a0. repeat split; auto.
  - destruct (Hb j0 a0 (or_introl eq_refl) Hl) as [Hlt Hbody].
    cbn [for_range]. rewrite Hbody. cbn [bind].
    destruct (IH (update a0 j0 (f j0))) as (r & Hr & Hlr & Hn).
    + rewrite length_update; lia.
    + intros ii a Hin. apply Hb. now right.
    + exists r. repeat split; auto. intros j d. rewrite Hn.
      cbn [existsb]. rewrite nth_update by lia.
      destruct (Nat.eqb_spec j j0) as [->|]; simpl;
        now destruct (existsb _ js).
Qed.

Lemma existsb_range (lo hi j : nat) :
  existsb (Nat.eqb j) (range lo hi) = (Nat.leb lo j && Nat.ltb j hi)%bool.
Proof.
  unfold range.
  destruct (Nat.leb_spec lo j), (Nat.ltb_spec j hi); cbn [andb].
  - apply existsb_exists. exists j. split; [apply in_seq; lia|].
    apply Nat.eqb_refl.
  - apply not_true_is_false. rewrite existsb_exists.
    intros (x & Hin & Hx). apply in_seq in Hin.
    apply Nat.eqb_eq in Hx. lia.
  - apply not_true_is_false. rewrite existsb_exists.
    intros (x & Hin & Hx). apply in_seq in Hin.
    apply Nat.eqb_eq in Hx. lia.
  - apply not_true_is_false. rewrite existsb_exists.
    intros (x & Hin & Hx). apply in_seq in Hin.
    apply Nat.eqb_eq in Hx. lia.
Qed.

Lemma length_zeros n : length (Np.zeros n) = n.
Proof. apply repeat_length. Qed.

Section Estimators.
Variable deltax : R.
Variable uux : list R.
Hypothesis two_points : (2 <= length uux)%nat.

Local Notation N := (length uux).
Local Notation "'u' i" := (nth i uux 0) (at level 9, i at level 9).

(** The three formulas. *)
Definition forward_at (i : nat) : R := (u (i + 1) - u i) / deltax.
Definition backward_at (i : nat) : R := (u i - u (i - 1)) / deltax.
Definition centered_at (i : nat) : R := (u (i + 1) - u (i - 1)) / (2 * deltax).

Lemma fd_dudx_spec :
  exists fd, fd_dudx deltax uux = Some fd
    /\ length fd = N
    /\ forall i, (i < N)%nat ->
         nth i fd 0 = if Nat.eqb i (N - 1) then backward_at i
                      else forward_at i.
Proof.
  unfold fd_dudx, numx.
  destruct (@for_range_fill _ forward_at
              (fun ii fd =>
                 do a <- getitem uux (Z.of_nat (ii + 1));
                 do b <- getitem uux (Z.of_nat ii);
                 setitem fd (Z.of_nat ii) ((a - b) / deltax))
              (range 0 (N - 1)) (Np.zeros N) N (length_zeros N))
    as (fd & -> & Hl & Hfd).
  { intros ii a Hin Ha. unfold range in Hin. apply in_seq in Hin.
    split; [lia|].
    rewrite (@getitem_nat _ uux (ii + 1) 0) by lia. cbn [bind].
    rewrite (@getitem_nat _ uux ii 0) by lia. cbn [bind].
    now rewrite setitem_nat by lia. }
  cbn [bind].
  change (-1)%Z with (- Z.of_nat 1)%Z. change (-2)%Z with (- Z.of_nat 2)%Z.
  rewrite (@getitem_neg _ uux 1 0) by lia. cbn [bind].
  rewrite (@getitem_neg _ uux 2 0) by lia. cbn [bind].
  rewrite setitem_neg by lia. rewrite Hl.
  eexists; split; [reflexivity|]. split; [rewrite length_update; lia|].
  intros i Hi. rewrite nth_update by lia.
  destruct (Nat.eqb_spec i (N - 1)) as [->|Hne].
  - unfold backward_at. do 2 f_equal. f_equal. lia.
  - rewrite Hfd, existsb_range.
    destruct (Nat.ltb_spec i (N - 1)); [reflexivity|lia].
Qed.

Lemma bd_dudx_spec :
  exists bd, bd_dudx deltax uux = Some bd
    /\ length bd = N
    /\ forall i, (i < N)%nat ->
         nth i bd 0 = if Nat.eqb i 0 then forward_at i else backward_at i.
Proof.
  unfold bd_dudx, numx.
  destruct (@for_range_fill _ backward_at
              (fun ii bd =>
                 do a <- getitem uux (Z.of_nat ii);
                 do b <- getitem uux (Z.of_nat ii - 1);
                 setitem bd (Z.of_nat ii) ((a - b) / deltax))
              (range 1 N) (Np.zeros N) N (length_zeros N))
    as (bd & -> & Hl & Hbd).
  { intros ii a Hin Ha. unfold range in Hin. apply in_seq in Hin.
    split; [lia|].
    rewrite (@getitem_nat _ uux ii 0) by lia. cbn [bind].
    replace (Z.of_nat ii - 1)%Z with (Z.of_nat (ii - 1)) by lia.
    rewrite (@getitem_nat _ uux (ii - 1) 0) by lia. cbn [bind].
    now rewrite setitem_nat by lia. }
  cbn [bind].
  change 1%Z with (Z.of_nat 1). change 0%Z with (Z.of_nat 0).
  rewrite (@getitem_nat _ uux 1 0) by lia. cbn [bind].
  rewrite (@getitem_nat _ uux 0 0) by lia. cbn [bind].
  rewrite setitem_nat by lia.
  eexists; split; [reflexivity|]. split; [rewrite length_update; lia|].
  intros i Hi. rewrite nth_update by lia.
  destruct (Nat.eqb_spec i 0) as [->|Hne]; [reflexivity|].
  rewrite Hbd, existsb_range.
  destruct (Nat.leb_spec 1 i); [|lia].
  destruct (Nat.ltb_spec i N); [reflexivity|lia].
Qed.

Lemma cd_dudx_spec :
  exists cd, cd_dudx deltax uux = Some cd
    /\ length cd = N
    /\ forall i, (i < N)%nat ->
         nth i cd 0 = if Nat.eqb i 0 then forward_at i
                      else if Nat.eqb i (N - 1) then backward_at i
                      else centered_at i.
Proof.
  unfold cd_dudx, numx.
  destruct (@for_range_fill _ centered_at
              (fun ii cd =>
                 do a <- getitem uux (Z.of_nat (ii + 1));
                 do b <- getitem uux (Z.of_nat ii - 1);
                 setitem cd (Z.of_nat ii) ((a - b) / (2 * deltax)))
              (range 1 (N - 1)) (Np.zeros N) N (length_zeros N))
    as (cd & -> & Hl & Hcd).
  { intros ii a Hin Ha. unfold range in Hin. apply in_seq in Hin.
    split; [lia|].
    rewrite (@getitem_nat _ uux (ii + 1) 0) by lia. cbn [bind].
    replace (Z.of_nat ii - 1)%Z with (Z.of_nat (ii - 1)) by lia.
    rewrite (@getitem_nat _ uux (ii - 1) 0) by lia. cbn [bind].
    now rewrite setitem_nat by lia. }
  cbn [bind].
  change (-1)%Z with (- Z.of_nat 1)%Z. change (-2)%Z with (- Z.of_nat 2)%Z.
  rewrite (@getitem_neg _ uux 1 0) by lia. cbn [bind].
  rewrite (@getitem_neg _ uux 2 0) by lia. cbn [bind].
  rewrite setitem_neg by lia. cbn [bind]. rewrite Hl.
  change 1%Z with (Z.of_nat 1). change 0%Z with (Z.of_nat 0).
  rewrite (@getitem_nat _ uux 1 0) by lia. cbn [bind].
  rewrite (@getitem_nat _ uux 0 0) by lia. cbn [bind].
  rewrite setitem_nat by (rewrite length_update; lia).
  eexists; split; [reflexivity|].
  split; [rewrite !length_update; rewrite ?length_update; lia|].
  intros i Hi. rewrite nth_update by (rewrite length_update; lia).
  destruct (Nat.eqb_spec i 0) as [->|Hne]; [reflexivity|].
  rewrite nth_update by lia.
  destruct (Nat.eqb_spec i (N - 1)) as [->|Hne'].
  - unfold backward_at. do 2 f_equal. f_equal. lia.
  - rewrite Hcd, existsb_range.
    destruct (Nat.leb_spec 1 i); [|lia].
    destruct (Nat.ltb_spec i (N - 1)); [reflexivity|lia].
Qed.

End Estimators.
End FiniteDifferenceFacts.

Module FiniteDifferenceClaims.
Import ListNotations.
Import Py PyFacts FiniteDifference FiniteDifferenceFacts.
Local Open Scope R_scope.

(** C5.  On at least two samples the estimator never raises and returns
    three arrays of the length of the input.  Forward: [(u[i+1]-u[i])/dx]
    wherever there is a right neighbour, the backward formula at the last
    point.  Backward: [(u[i]-u[i-1])/dx] wherever there is a left neighbour,
    the forward formula at the first point.  Centered:
    [(u[i+1]-u[i-1])/(2*dx)] in the interior, the forward formula at the
    first point and the backward formula at the last. *)
Theorem derivative_estimates (deltax : R) (uux : list R) :
  (2 <= length uux)%nat ->
  let N := length uux in
  let u := fun i => nth i uux 0 in
  exists fd bd cd,
    fd_dudx deltax uux = Some fd
    /\ bd_dudx deltax uux = Some bd
    /\ cd_dudx deltax uux = Some cd
    /\ length fd = N /\ length bd = N /\ length cd = N
    /\ (forall i, (i + 1 < N)%nat -> nth i fd 0 = (u (i + 1)%nat - u i) / deltax)
    /\ nth (N - 1) fd 0 = (u (N - 1)%nat - u (N - 2)%nat) / deltax
    /\ (forall i, (1 <= i < N)%nat -> nth i bd 0 = (u i - u (i - 1)%nat) / deltax)
    /\ nth 0 bd 0 = (u 1%nat - u 0%nat) / deltax
    /\ (forall i, (1 <= i)%nat -> (i + 1 < N)%nat ->
          nth i cd 0 = (u (i + 1)%nat - u (i - 1)%nat) / (2 * deltax))
    /\ nth 0 cd 0 = (u 1%nat - u 0%nat) / deltax
    /\ nth (N - 1) cd 0 = (u (N - 1)%nat - u (N - 2)%nat) / deltax.
Proof.
  intros HN N u.
  destruct (@fd_dudx_spec deltax uux HN) as (fd & Hfd & Hlf & Hf).
  destruct (@bd_dudx_spec deltax uux HN) as (bd & Hbd & Hlb & Hb).
  destruct (@cd_dudx_spec deltax uux HN) as (cd & Hcd & Hlc & Hc).
  exists fd, bd, cd. repeat split; try assumption.
  - intros i Hi. rewrite Hf by (unfold N in *; lia).
    destruct (Nat.eqb_spec i (length uux - 1)); [unfold N in *; lia|].
    reflexivity.
  - rewrite Hf by lia. fold N. rewrite Nat.eqb_refl.
    unfold backward_at, u, N. do 2 f_equal. f_equal. lia.
  - intros i Hi. rewrite Hb by (unfold N in *; lia).
    destruct (Nat.eqb_spec i 0); [lia|]. reflexivity.
  - rewrite Hb by lia. reflexivity.
  - intros i H1 H2. rewrite Hc by (unfold N in *; lia).
    destruct (Nat.eqb_spec i 0); [lia|].
    destruct (Nat.eqb_spec i (length uux - 1)); [unfold N in *; lia|].
    reflexivity.
  - rewrite Hc by lia. reflexivity.
  - rewrite Hc by lia. fold N.
    destruct (Nat.eqb_spec (N - 1) 0) as [E|E]; [unfold N in *; lia|].
    rewrite Nat.eqb_refl.
    unfold backward_at, u, N. do 2 f_equal. f_equal. lia.
Qed.

Lemma derivative_estimates_witness :
  (2 <= length [0; 1; 4; 9])%nat
  /\ exists fd bd cd,
       fd_dudx 1 [0; 1; 4; 9] = Some fd
       /\ bd_dudx 1 [0; 1; 4; 9] = Some bd
       /\ cd_dudx 1 [0; 1; 4; 9] = Some cd
       /\ nth 1 fd 0 = (4 - 1) / 1
       /\ nth 1 bd 0 = (1 - 0) / 1
       /\ nth 1 cd 0 = (4 - 0) / (2 * 1)
       /\ nth 3 cd 0 = (9 - 4) / 1.
Proof.
  assert (H : (2 <= length [0; 1; 4; 9])%nat) by (simpl; lia).
  split; [exact H|].
  destruct (derivative_estimates 1 [0; 1; 4; 9] H)
    as (fd & bd & cd & H1 & H2 & H3 & _ & _ & _ & Hf & _ & Hb & _ & Hc & _
        & Hl).
  exists fd, bd, cd. repeat split; try assumption.
  - apply (Hf 1%nat). simpl; lia.
  - apply (Hb 1%nat). simpl; lia.
  - apply (Hc 1%nat); simpl; lia.
Defined.

End FiniteDifferenceClaims.

(** ** Truncation errors on the sine *)

Module SineErrorFacts.
Import ListNotations.
Import Py PyFacts FiniteDifference FiniteDifferenceFacts.
Local Open Scope R_scope.

(** First terms of the alternating series of sine and cosine. *)
Lemma sin_lower (h : R) : 0 <= h <= 1 -> h - h ^ 3 / 6 <= sin h.
Proof.
  intros Hh.
  destruct (pre_sin_bound h 0) as [H _]; [lra|lra|].
  unfold sin_approx, sin_term in H. simpl in H. lra.
Qed.

Lemma sin_upper (h : R) : 0 <= h -> sin h <= h.
Proof.
  intros [Hh|<-]; [left; now apply sin_lt_x|rewrite sin_0; lra].
Qed.

Lemma cos_lower (h : R) : 0 <= h <= 1 -> 1 - h ^ 2 / 2 <= cos h.
Proof.
  intros Hh.
  destruct (pre_cos_bound h 0) as [H _]; [lra|lra|].
  unfold cos_approx, cos_term in H. simpl in H. lra.
Qed.

Lemma cos_upper (h : R) : 0 <= h <= 1 -> cos h <= 1 - h ^ 2 / 2 + h ^ 4 / 24.
Proof.
  intros Hh.
  destruct (pre_cos_bound h 0) as [_ H]; [lra|lra|].
  unfold cos_approx, cos_term in H. simpl in H. lra.
Qed.

(** The two defects of the difference quotients of the sine: what
    [sin h / h] lacks to one, and [(1 - cos h) / h]. *)
Definition sinc_defect (h : R) : R := 1 - sin h / h.
Definition cosc_defect (h : R) : R := (1 - cos h) / h.

Lemma sinc_defect_bounds (h : R) :
  0 < h <= 1 -> 0 <= sinc_defect h <= h ^ 2 / 6.
Proof.
  intros Hh. unfold sinc_defect.
  assert (H1 := @sin_lower h ltac:(lra)).
  assert (H2 := @sin_upper h ltac:(lra)).
  assert (Hi : 0 < / h) by (apply Rinv_0_lt_compat; lra).
  split.
  - assert (sin h / h <= 1); [|lra].
    unfold Rdiv. apply Rmult_le_reg_r with h; [lra|].
    rewrite Rmult_assoc, Rinv_l by lra. lra.
  - assert (1 - h ^ 2 / 6 <= sin h / h); [|lra].
    unfold Rdiv at 2. apply Rmult_le_reg_r with h; [lra|].
    rewrite Rmult_assoc, Rinv_l by lra. lra.
Qed.

Lemma cosc_defect_bounds (h : R) :
  0 < h <= 1 -> h / 2 - h ^ 3 / 24 <= cosc_defect h <= h / 2.
Proof.
  intros Hh. unfold cosc_defect.
  assert (H1 := @cos_lower h ltac:(lra)).
  assert (H2 := @cos_upper h ltac:(lra)).
  split.
  - unfold Rdiv at 3. apply Rmult_le_reg_r with h; [lra|].
    rewrite Rmult_assoc, Rinv_l by lra. lra.
  - unfold Rdiv at 1. apply Rmult_le_reg_r with h; [lra|].
    rewrite Rmult_assoc, Rinv_l by lra. lra.
Qed.

(** Errors of the three quotients at a point [x]. *)
Lemma forward_error (x h : R) :
  h <> 0 ->
  (sin (x + h) - sin x) / h - cos x
  = - (sin x * cosc_defect h + cos x * sinc_defect h).
Proof.
  intros Hh. rewrite sin_plus. unfold cosc_defect, sinc_defect. now field.
Qed.

Lemma backward_error (x h : R) :
  h <> 0 ->
  (sin x - sin (x - h)) / h - cos x
  = sin x * cosc_defect h - cos x * sinc_defect h.
Proof.
  intros Hh. rewrite sin_minus. unfold cosc_defect, sinc_defect. now field.
Qed.

Lemma centered_error (x h : R) :
  h <> 0 ->
  (sin (x + h) - sin (x - h)) / (2 * h) - cos x = - (cos x * sinc_defect h).
Proof.
  intros Hh. rewrite sin_plus, sin_minus. unfold sinc_defect. now field.
Qed.

(** For a step of at most one half, the first-order error at the crest
    exceeds the second-order bound. *)
Lemma first_order_gap (h : R) :
  0 < h <= 1 / 2 -> 2 * h ^ 2 / 3 < cos h * cosc_defect h.
Proof.
  intros Hh.
  assert (H1 := @cos_lower h ltac:(lra)).
  destruct (@cosc_defect_bounds h ltac:(lra)) as [H2 _].
  assert (Hc : 7 / 8 <= cos h) by nra.
  assert (Hb : 47 / 96 * h <= cosc_defect h) by nra.
  assert (0 < cosc_defect h) by nra.
  nra.
Qed.

(** Pointwise bounds on the three errors. *)
Lemma centered_error_small (x h : R) :
  0 < h <= 1 ->
  Rabs ((sin (x + h) - sin (x - h)) / (2 * h) - cos x) <= h ^ 2 / 6.
Proof.
  intros Hh. rewrite centered_error by lra. rewrite Rabs_Ropp, Rabs_mult.
  destruct (@sinc_defect_bounds h Hh) as [Ha Hb].
  rewrite (Rabs_pos_eq (sinc_defect h)) by assumption.
  assert (Hc : Rabs (cos x) <= 1) by (apply Rabs_le, COS_bound).
  assert (Hp := Rabs_pos (cos x)). nra.
Qed.

Lemma forward_error_at_origin (h : R) :
  0 < h <= 1 ->
  Rabs ((sin (0 + h) - sin 0) / h - cos 0) <= h ^ 2 / 6.
Proof.
  intros Hh. rewrite forward_error by lra. rewrite sin_0, cos_0.
  destruct (@sinc_defect_bounds h Hh) as [Ha Hb].
  apply Rabs_le. lra.
Qed.

Lemma sin_before_period (x h : R) :
  0 <= h <= 1 -> 2 * PI - h <= x <= 2 * PI -> - h <= sin x <= 0.
Proof.
  intros Hh Hx.
  assert (E : sin x = - sin (2 * PI - x)).
  { rewrite sin_minus, sin_2PI, cos_2PI. ring. }
  assert (Hpi := PI2_3_2).
  assert (H1 : 0 <= sin (2 * PI - x)) by (apply sin_ge_0; lra).
  assert (H2 := @sin_upper (2 * PI - x) ltac:(lra)).
  lra.
Qed.

Lemma backward_error_before_period (x h : R) :
  0 < h <= 1 -> 2 * PI - h <= x <= 2 * PI ->
  Rabs ((sin x - sin (x - h)) / h - cos x) <= 2 * h ^ 2 / 3.
Proof.
  intros Hh Hx. rewrite backward_error by lra.
  destruct (@sinc_defect_bounds h Hh) as [Ha Hb].
  destruct (@cosc_defect_bounds h Hh) as [Hc Hd].
  assert (Hs := @sin_before_period x h ltac:(lra) Hx).
  assert (Hk := COS_bound x).
  assert (0 <= cosc_defect h) by nra.
  apply Rabs_le. split; nra.
Qed.

Lemma sin_near_crest (x h : R) :
  0 <= h <= 1 -> PI / 2 - h <= x <= PI / 2 + h -> cos h <= sin x.
Proof.
  intros Hh Hx. assert (Hpi := PI2_3_2).
  destruct (Rle_dec x (PI / 2)) as [Hl|Hg].
  - rewrite <- (cos_shift x). apply cos_decr_1; lra.
  - replace (sin x) with (cos (x - PI / 2)).
    + apply cos_decr_1; lra.
    + rewrite <- (cos_shift x), <- cos_neg. f_equal. ring.
Qed.

Lemma forward_error_before_crest (x h : R) :
  0 < h <= 1 -> PI / 2 - h <= x <= PI / 2 ->
  cos h * cosc_defect h <= Rabs ((sin (x + h) - sin x) / h - cos x).
Proof.
  intros Hh Hx. rewrite forward_error by lra. rewrite Rabs_Ropp.
  destruct (@sinc_defect_bounds h Hh) as [Ha Hb].
  destruct (@cosc_defect_bounds h Hh) as [Hc Hd].
  assert (Hs := @sin_near_crest x h ltac:(lra) ltac:(lra)).
  assert (Hpi := PI2_3_2).
  assert (Hk : 0 <= cos x) by (apply cos_ge_0; lra).
  assert (0 <= cosc_defect h) by nra.
  eapply Rle_trans; [|apply Rle_abs]. nra.
Qed.

Lemma backward_error_after_crest (x h : R) :
  0 < h <= 1 -> PI / 2 <= x <= PI / 2 + h ->
  cos h * cosc_defect h <= Rabs ((sin x - sin (x - h)) / h - cos x).
Proof.
  intros Hh Hx. rewrite backward_error by lra.
  destruct (@sinc_defect_bounds h Hh) as [Ha Hb].
  destruct (@cosc_defect_bounds h Hh) as [Hc Hd].
  assert (Hs := @sin_near_crest x h ltac:(lra) ltac:(lra)).
  assert (Hpi := PI2_3_2).
  assert (Hk : cos x <= 0) by (apply cos_le_0; lra).
  assert (0 <= cosc_defect h) by nra.
  eapply Rle_trans; [|apply Rle_abs]. nra.
Qed.

(** The largest absolute value of an array. *)
Lemma max_abs_ge (r : list R) (i : nat) :
  (i < length r)%nat -> Rabs (nth i r 0) <= max_abs r.
Proof.
  unfold max_abs. revert i. induction r as [|a r IH]; intros i Hi.
  - cbn [length] in Hi. lia.
  - cbn [map fold_right]. destruct i as [|i]; cbn [nth].
    + apply Rmax_l.
    + eapply Rle_trans; [apply IH; cbn [length] in Hi; lia|apply Rmax_r].
Qed.

Lemma max_abs_le (r : list R) (B : R) :
  0 <= B ->
  (forall i, (i < length r)%nat -> Rabs (nth i r 0) <= B) ->
  max_abs r <= B.
Proof.
  intros HB. unfold max_abs. induction r as [|a r IH]; intros H.
  - exact HB.
  - cbn [map fold_right]. apply Rmax_lub.
    + apply (H 0%nat). cbn [length]. lia.
    + apply IH. intros i Hi. apply (H (S i)). cbn [length]. lia.
Qed.

(** The grid [np.arange(0, 2*np.pi, step)]. *)
Lemma ceil_bounds (x : R) : x <= IZR (ceil x) < x + 1.
Proof.
  unfold ceil. rewrite minus_IZR. destruct (archimed (- x)). lra.
Qed.

Lemma length_arange (xmin xmax step : R) :
  length (arange xmin xmax step) = Z.to_nat (ceil ((xmax - xmin) / step)).
Proof. unfold arange. now rewrite length_map, length_seq. Qed.

Lemma nth_arange (xmin xmax step : R) (i : nat) :
  (i < length (arange xmin xmax step))%nat ->
  nth i (arange xmin xmax step) 0 = xmin + INR i * step.
Proof.
  intros Hi. rewrite length_arange in Hi. unfold arange.
  rewrite (nth_indep _ 0 (xmin + INR 0 * step))
    by now rewrite length_map, length_seq.
  rewrite (map_nth (fun i => xmin + INR i * step)).
  now rewrite seq_nth.
Qed.

Section SineGrid.
Variable h : R.
Hypothesis small_step : 0 < h <= 1 / 2.

Local Notation gridx := (arange 0 (2 * PI) h).
Local Notation N := (length gridx).

Lemma grid_extent : (INR N - 1) * h < 2 * PI <= INR N * h.
Proof.
  rewrite length_arange.
  assert (Hpi := PI2_3_2).
  destruct (ceil_bounds ((2 * PI - 0) / h)) as [H1 H2].
  assert (E : (2 * PI - 0) / h * h = 2 * PI) by (field; lra).
  assert (Hq : 0 < (2 * PI - 0) / h).
  { apply Rmult_lt_reg_r with h; [lra|]. rewrite E. lra. }
  assert (Hc : (0 <= ceil ((2 * PI - 0) / h))%Z).
  { apply le_IZR. lra. }
  rewrite INR_IZR_INZ, Z2Nat.id by assumption.
  set (q := (2 * PI - 0) / h) in *.
  split.
  - assert ((IZR (ceil q) - 1) * h < q * h)
      by (apply Rmult_lt_compat_r; lra).
    lra.
  - assert (q * h <= IZR (ceil q) * h) by (apply Rmult_le_compat_r; lra).
    lra.
Qed.

Lemma grid_size : (4 <= N)%nat.
Proof.
  destruct grid_extent as [_ H]. assert (Hpi := PI2_3_2).
  apply INR_le. change (INR 4) with (1 + 1 + 1 + 1). nra.
Qed.

Lemma grid_point (i : nat) : (i < N)%nat -> nth i gridx 0 = INR i * h.
Proof. intros Hi. rewrite nth_arange by assumption. ring. Qed.

Lemma sine_sample (i : nat) :
  (i < N)%nat -> nth i (sinefunc gridx) 0 = sin (INR i * h).
Proof.
  intros Hi. unfold sinefunc.
  rewrite (@nth_map_in _ sin gridx i 0 0) by assumption.
  now rewrite grid_point.
Qed.

Lemma cosine_sample (i : nat) :
  (i < N)%nat -> nth i (cosinefunc gridx) 0 = cos (INR i * h).
Proof.
  intros Hi. unfold cosinefunc.
  rewrite (@nth_map_in _ cos gridx i 0 0) by assumption.
  now rewrite grid_point.
Qed.

(** An index whose grid point is the last one not after the crest of
    the sine. *)
Lemma crest_index :
  exists k : nat, (k + 1 < N)%nat /\ INR k * h <= PI / 2 < (INR k + 1) * h.
Proof.
  assert (Hpi := PI2_3_2). assert (Hpi4 := PI_4).
  destruct (archimed (PI / 2 / h)) as [H1 H2].
  assert (E : PI / 2 / h * h = PI / 2) by (field; lra).
  assert (Hq : 0 < PI / 2 / h).
  { apply Rmult_lt_reg_r with h; [lra|]. rewrite E. lra. }
  assert (Hc : (0 <= up (PI / 2 / h) - 1)%Z).
  { assert (0 < up (PI / 2 / h))%Z by (apply lt_IZR; lra). lia. }
  exists (Z.to_nat (up (PI / 2 / h) - 1)).
  assert (Ek : INR (Z.to_nat (up (PI / 2 / h) - 1))
               = IZR (up (PI / 2 / h)) - 1).
  { rewrite INR_IZR_INZ, Z2Nat.id by assumption. now rewrite minus_IZR. }
  assert (Hk : INR (Z.to_nat (up (PI / 2 / h) - 1)) * h <= PI / 2
               < (INR (Z.to_nat (up (PI / 2 / h) - 1)) + 1) * h).
  { rewrite Ek. set (q := PI / 2 / h) in *. split.
    - assert ((IZR (up q) - 1) * h <= q * h)
        by (apply Rmult_le_compat_r; lra).
      lra.
    - assert (q * h < (IZR (up q) - 1 + 1) * h)
        by (apply Rmult_lt_compat_r; lra).
      lra. }
  split; [|exact Hk].
  destruct grid_extent as [_ Hn].
  apply INR_lt. rewrite plus_INR. change (INR 1) with 1.
  apply Rmult_lt_reg_r with h; [lra|]. nra.
Qed.

Local Notation uux := (sinefunc gridx).
Local Notation true_dudx := (cosinefunc gridx).

Lemma length_sine : length uux = N.
Proof. unfold sinefunc. now rewrite length_map. Qed.

Lemma length_cosine : length true_dudx = N.
Proof. unfold cosinefunc. now rewrite length_map. Qed.

Lemma two_samples : (2 <= length uux)%nat.
Proof. rewrite length_sine. assert (H := grid_size). lia. Qed.

Lemma next_point (i : nat) : INR (i + 1) * h = INR i * h + h.
Proof. rewrite plus_INR. change (INR 1) with 1. ring. Qed.

Lemma prev_point (i : nat) : (1 <= i)%nat -> INR (i - 1) * h = INR i * h - h.
Proof. intros Hi. rewrite minus_INR by assumption. change (INR 1) with 1. ring. Qed.

Lemma forward_at_sine (i : nat) :
  (i + 1 < N)%nat ->
  forward_at h uux i = (sin (INR i * h + h) - sin (INR i * h)) / h.
Proof.
  intros Hi. unfold forward_at.
  rewrite sine_sample by lia.
  rewrite sine_sample by lia.
  now rewrite next_point.
Qed.

Lemma backward_at_sine (i : nat) :
  (1 <= i < N)%nat ->
  backward_at h uux i = (sin (INR i * h) - sin (INR i * h - h)) / h.
Proof.
  intros Hi. unfold backward_at.
  rewrite sine_sample by lia.
  rewrite sine_sample by lia.
  now rewrite prev_point by lia.
Qed.

Lemma centered_at_sine (i : nat) :
  (1 <= i)%nat -> (i + 1 < N)%nat ->
  centered_at h uux i
  = (sin (INR i * h + h) - sin (INR i * h - h)) / (2 * h).
Proof.
  intros H1 H2. unfold centered_at.
  rewrite sine_sample by lia.
  rewrite sine_sample by lia.
  now rewrite next_point, prev_point by lia.
Qed.

Lemma residual_at (est r : list R) (i : nat) :
  length est = N -> resids est true_dudx = Some r -> (i < N)%nat ->
  length r = N /\ nth i r 0 = nth i est 0 - cos (INR i * h).
Proof.
  intros Hl Hr Hi. unfold resids, Np.sub in Hr.
  rewrite broadcast2_same in Hr by now rewrite length_cosine.
  injection Hr as <-. split.
  - rewrite length_map2, Hl, length_cosine. apply Nat.min_id.
  - rewrite (@nth_map2 _ Rminus est true_dudx i 0 0 0)
      by (rewrite ?length_cosine; lia).
    now rewrite cosine_sample.
Qed.
Lemma residuals_defined (est : list R) :
  length est = N -> exists r, resids est true_dudx = Some r.
Proof.
  intros Hl. unfold resids, Np.sub.
  rewrite broadcast2_same by now rewrite length_cosine.
  now eexists.
Qed.

(** Every centered residual is of second order in the step. *)
Lemma centered_residuals :
  exists cd rc,
    cd_dudx h uux = Some cd /\ resids cd true_dudx = Some rc
    /\ max_abs rc <= 2 * h ^ 2 / 3.
Proof.
  destruct (@cd_dudx_spec h uux two_samples) as (cd & Hcd & Hl & Hc).
  rewrite length_sine in Hl, Hc.
  destruct (@residuals_defined _ Hl) as [rc Hrc].
  exists cd, rc. split; [assumption|]. split; [assumption|].
  assert (HN := grid_size).
  apply max_abs_le; [nra|].
  intros i Hi.
  destruct (@residual_at cd rc 0 Hl Hrc ltac:(lia)) as [Hlr _].
  rewrite Hlr in Hi.
  destruct (@residual_at cd rc i Hl Hrc Hi) as [_ ->].
  rewrite Hc by assumption.
  destruct (Nat.eqb_spec i 0) as [->|Hi0].
  - rewrite forward_at_sine by lia. change (INR 0) with 0.
    replace (0 * h) with 0 by ring.
    eapply Rle_trans; [apply forward_error_at_origin; lra|nra].
  - destruct (Nat.eqb_spec i (N - 1)) as [->|HiN].
    + rewrite backward_at_sine by lia.
      apply backward_error_before_period; [lra|].
      destruct grid_extent as [G1 G2].
      rewrite minus_INR by lia. change (INR 1) with 1. lra.
    + rewrite centered_at_sine by lia.
      eapply Rle_trans; [apply centered_error_small; lra|nra].
Qed.

(** Just before the crest of the sine the forward residual is of first
    order in the step; just after it, the backward residual is. *)
Lemma forward_residuals :
  exists fd rf,
    fd_dudx h uux = Some fd /\ resids fd true_dudx = Some rf
    /\ cos h * cosc_defect h <= max_abs rf.
Proof.
  destruct (@fd_dudx_spec h uux two_samples) as (fd & Hfd & Hl & Hf).
  rewrite length_sine in Hl, Hf.
  destruct (@residuals_defined _ Hl) as [rf Hrf].
  exists fd, rf. split; [assumption|]. split; [assumption|].
  destruct crest_index as (k & HkN & Hk1 & Hk2).
  destruct (@residual_at fd rf k Hl Hrf ltac:(lia)) as [Hlr E].
  eapply Rle_trans; [|apply (@max_abs_ge rf k); lia].
  rewrite E, Hf by lia.
  destruct (Nat.eqb_spec k (N - 1)) as [Hbad|_]; [lia|].
  rewrite forward_at_sine by lia.
  apply forward_error_before_crest; lra.
Qed.

Lemma backward_residuals :
  exists bd rb,
    bd_dudx h uux = Some bd /\ resids bd true_dudx = Some rb
    /\ cos h * cosc_defect h <= max_abs rb.
Proof.
  destruct (@bd_dudx_spec h uux two_samples) as (bd & Hbd & Hl & Hb).
  rewrite length_sine in Hl, Hb.
  destruct (@residuals_defined _ Hl) as [rb Hrb].
  exists bd, rb. split; [assumption|]. split; [assumption|].
  destruct crest_index as (k & HkN & Hk1 & Hk2).
  destruct (@residual_at bd rb (k + 1) Hl Hrb ltac:(lia)) as [Hlr E].
  eapply Rle_trans; [|apply (@max_abs_ge rb (k + 1)); lia].
  rewrite E, Hb by lia.
  destruct (Nat.eqb_spec (k + 1) 0) as [Hbad|_]; [lia|].
  rewrite backward_at_sine by lia.
  assert (Ex := next_point k).
  apply backward_error_after_crest; lra.
Qed.

End SineGrid.

End SineErrorFacts.

Module SineErrorClaims.
Import ListNotations.
Import Py PyFacts FiniteDifference FiniteDifferenceFacts SineErrorFacts.
Local Open Scope R_scope.

(** C8.  Sine sampled on [np.arange(0, 2*np.pi, deltax)] with a step of
    at most one half (the notebook uses 0.2): the three estimators and the
    three residual arrays [est - true_dudx] are defined, and the largest
    absolute residual of the centered estimates is strictly below that of
    the forward estimates and that of the backward estimates.  The
    residuals are compared as computed, before the rounding to three
    decimals that the notebook applies for printing. *)
Theorem centered_error_smallest (deltax : R) :
  0 < deltax <= 1 / 2 ->
  let gridx := arange 0 (2 * PI) deltax in
  let uux := sinefunc gridx in
  let true_dudx := cosinefunc gridx in
  exists fd bd cd resids_fd resids_bd resids_cd,
    fd_dudx deltax uux = Some fd
    /\ bd_dudx deltax uux = Some bd
    /\ cd_dudx deltax uux = Some cd
    /\ resids fd true_dudx = Some resids_fd
    /\ resids bd true_dudx = Some resids_bd
    /\ resids cd true_dudx = Some resids_cd
    /\ max_abs resids_cd < max_abs resids_fd
    /\ max_abs resids_cd < max_abs resids_bd.
Proof.
  intros Hh gridx uux true_dudx.
  destruct (@forward_residuals deltax Hh) as (fd & rf & Hfd & Hrf & Hf).
  destruct (@backward_residuals deltax Hh) as (bd & rb & Hbd & Hrb & Hb).
  destruct (@centered_residuals deltax Hh) as (cd & rc & Hcd & Hrc & Hc).
  assert (Hg := @first_order_gap deltax Hh).
  exists fd, bd, cd, rf, rb, rc.
  repeat split; try assumption; lra.
Qed.

Lemma centered_error_smallest_witness :
  0 < 1 / 5 <= 1 / 2
  /\ exists fd bd cd resids_fd resids_bd resids_cd,
       fd_dudx (1 / 5) (sinefunc (arange 0 (2 * PI) (1 / 5))) = Some fd
       /\ bd_dudx (1 / 5) (sinefunc (arange 0 (2 * PI) (1 / 5))) = Some bd
       /\ cd_dudx (1 / 5) (sinefunc (arange 0 (2 * PI) (1 / 5))) = Some cd
       /\ resids fd (cosinefunc (arange 0 (2 * PI) (1 / 5))) = Some resids_fd
       /\ resids bd (cosinefunc (arange 0 (2 * PI) (1 / 5))) = Some resids_bd
       /\ resids cd (cosinefunc (arange 0 (2 * PI) (1 / 5))) = Some resids_cd
       /\ max_abs resids_cd < max_abs resids_fd
       /\ max_abs resids_cd < max_abs resids_bd.
Proof.
  assert (H : 0 < 1 / 5 <= 1 / 2) by lra.
  split; [exact H|]. exact (@centered_error_smallest (1 / 5) H).
Defined.

End SineErrorClaims.

(** ** Ballistic trajectory *)

Module BallisticFacts.
Import ListNotations.
Import Py PyFacts Ballistic.
Local Open Scope R_scope.

Section Trajectory.
Variables (xx0 zz0 uu0 ww0 grv deltat : R).
Variable nsteps : nat.

Local Notation body := (body uu0 ww0 grv deltat).
Local Notation init := (init xx0 zz0 nsteps).

(** The height that the Euler formula gives at step [k], before clamping,
    from the stored previous height [z]. *)
Definition euler_raw (z : R) (k : nat) : R :=
  z + deltat * (ww0 - grv * INR k * deltat).

(** The value of the parabola at the abscissa of step [k], where the
    function returns one. *)
Definition parabola_at (k : nat) : R :=
  - (grv / 2) * (1 / uu0 ^ 2) * (uu0 * INR k * deltat) ^ 2
  + (ww0 / uu0) * (uu0 * INR k * deltat).

Lemma truediv_some (a b : R) : b <> 0 -> truediv a b = Some (a / b).
Proof.
  intros Hb. unfold truediv. destruct (Req_dec_T b 0); [contradiction|].
  reflexivity.
Qed.

Lemma truediv_zero (a : R) : truediv a 0 = None.
Proof.
  unfold truediv. destruct (Req_dec_T 0 0) as [_|H]; [reflexivity|].
  now elim H.
Qed.

Lemma analytic_ballistic_some (x : R) :
  uu0 <> 0 ->
  analytic_ballistic x uu0 ww0 grv
  = Some (- (grv / 2) * (1 / uu0 ^ 2) * x ^ 2 + (ww0 / uu0) * x).
Proof.
  intros Hu. unfold analytic_ballistic.
  rewrite truediv_some by (apply pow_nonzero; assumption). cbn [bind].
  rewrite truediv_some by assumption. reflexivity.
Qed.

Lemma analytic_ballistic_zero_speed (x w g : R) :
  analytic_ballistic x 0 w g = None.
Proof.
  unfold analytic_ballistic.
  replace (0 ^ 2) with 0 by ring. now rewrite truediv_zero.
Qed.

Definition traj_shape (s : state) : Prop :=
  length (xxfull s) = nsteps
  /\ length (nmr_zzfull s) = nsteps
  /\ length (atic_zzfull s) = nsteps.

Lemma ballistic_init_spec :
  (1 <= nsteps)%nat ->
  exists s, init = Some s /\ traj_shape s
    /\ nth 0 (nmr_zzfull s) 0 = zz0 /\ nth 0 (atic_zzfull s) 0 = zz0.
Proof.
  intros Hn. unfold Ballistic.init.
  assert (Hz : length (Np.zeros nsteps) = nsteps) by apply repeat_length.
  change 0%Z with (Z.of_nat 0).
  rewrite !setitem_nat by lia. cbn [bind].
  eexists; split; [reflexivity|]. unfold traj_shape.
  cbn [xxfull nmr_zzfull atic_zzfull].
  rewrite !length_update by lia. rewrite !nth_update by lia.
  cbn [Nat.eqb]. repeat split; assumption.
Qed.

Lemma ballistic_body_spec (kk : nat) (s : state) :
  uu0 <> 0 -> (kk + 1 < nsteps)%nat -> traj_shape s ->
  exists s', body kk s = Some s' /\ traj_shape s'
    /\ (forall j, nth j (nmr_zzfull s') 0
          = if Nat.eqb j (kk + 1)
            then Rmax (euler_raw (nth kk (nmr_zzfull s) 0) (kk + 1)) 0
            else nth j (nmr_zzfull s) 0)
    /\ (forall j, nth j (atic_zzfull s') 0
          = if Nat.eqb j (kk + 1) then Rmax (parabola_at (kk + 1)) 0
            else nth j (atic_zzfull s) 0).
Proof.
  intros Hu Hk (Hx & Hn & Ha). unfold Ballistic.body.
  rewrite setitem_nat by lia. cbn [bind].
  rewrite (@getitem_nat _ _ kk 0) by lia. cbn [bind].
  rewrite setitem_nat by lia. cbn [bind].
  rewrite (@getitem_nat _ _ (kk + 1) 0) by (rewrite length_update; lia).
  cbn [bind].
  rewrite analytic_ballistic_some by assumption. cbn [bind].
  rewrite setitem_nat by lia. cbn [bind].
  rewrite (@getitem_nat _ _ (kk + 1) 0) by (rewrite length_update; lia).
  cbn [bind].
  rewrite setitem_nat by (rewrite length_update; lia). cbn [bind].
  rewrite (@getitem_nat _ _ (kk + 1) 0) by (rewrite length_update; lia).
  cbn [bind].
  rewrite setitem_nat by (rewrite length_update; lia).
  eexists; split; [reflexivity|]. unfold traj_shape.
  cbn [xxfull nmr_zzfull atic_zzfull].
  rewrite !length_update by (rewrite ?length_update; lia).
  split; [repeat split; assumption|].
  split; intros j; rewrite !nth_update by (rewrite ?length_update; lia);
    rewrite ?Nat.eqb_refl; destruct (Nat.eqb_spec j (kk + 1)); reflexivity.
Qed.

(** With [uu0 = 0] the first pass through the loop body raises, in the
    call of [analytic_ballistic]. *)
Lemma ballistic_body_zero_speed (kk : nat) (s : state) :
  uu0 = 0 -> body kk s = None.
Proof.
  intros ->. unfold Ballistic.body.
  destruct (setitem (xxfull s) _ _) as [xx|]; [|reflexivity]. cbn [bind].
  destruct (getitem (nmr_zzfull s) _) as [z|]; [|reflexivity]. cbn [bind].
  destruct (setitem (nmr_zzfull s) _ _) as [nmr|]; [|reflexivity].
  cbn [bind].
  destruct (getitem xx _) as [x|]; [|reflexivity]. cbn [bind].
  now rewrite analytic_ballistic_zero_speed.
Qed.

(** State after the first [m] iterations of the loop. *)
Lemma ballistic_prefix_spec (m : nat) :
  uu0 <> 0 -> (1 <= nsteps)%nat -> (m <= nsteps - 1)%nat ->
  exists s,
    bind init (for_range (range 0 m) body) = Some s
    /\ traj_shape s
    /\ nth 0 (nmr_zzfull s) 0 = zz0
    /\ nth 0 (atic_zzfull s) 0 = zz0
    /\ forall k, (1 <= k <= m)%nat ->
         nth k (nmr_zzfull s) 0
         = Rmax (euler_raw (nth (k - 1) (nmr_zzfull s) 0) k) 0
         /\ nth k (atic_zzfull s) 0 = Rmax (parabola_at k) 0.
Proof.
  intros Hu Hn. induction m as [|m IH]; intros Hm.
  - destruct (ballistic_init_spec Hn) as (s & -> & Hs & H0 & H0').
    exists s. cbn [bind for_range range seq Nat.sub].
    split; [reflexivity|]. split; [assumption|]. split; [assumption|].
    split; [assumption|]. intros k Hk. lia.
  - destruct IH as (s & Hrun & Hs & H0 & H0' & Hk); [lia|].
    destruct (init) as [s0|] eqn:Ei; [|discriminate]. cbn [bind] in *.
    rewrite LoopFacts.for_range_S, Hrun. cbn [bind].
    destruct (@ballistic_body_spec m s) as (s' & -> & Hs' & Hn' & Ha');
      [assumption|lia|assumption|].
    exists s'. split; [reflexivity|]. split; [assumption|].
    split; [rewrite Hn'; destruct (Nat.eqb_spec 0 (m + 1)); [lia|assumption]|].
    split; [rewrite Ha'; destruct (Nat.eqb_spec 0 (m + 1)); [lia|assumption]|].
    intros k Hr. rewrite !Hn', Ha'.
    destruct (Nat.eqb_spec k (m + 1)) as [->|Hne].
    + destruct (Nat.eqb_spec (m + 1 - 1) (m + 1)); [lia|].
      replace (m + 1 - 1)%nat with m by lia. split; reflexivity.
    + destruct (Nat.eqb_spec (k - 1) (m + 1)); [lia|].
      apply Hk. lia.
Qed.

(** With [uu0 = 0] every run that enters the loop raises. *)
Lemma forward_euler_zero_speed :
  uu0 = 0 -> (2 <= nsteps)%nat ->
  forward_euler xx0 zz0 uu0 ww0 grv deltat nsteps = None.
Proof.
  intros Hu Hn. unfold forward_euler.
  destruct init as [s0|]; [|reflexivity]. cbn [bind].
  unfold range. replace (nsteps - 1 - 0)%nat with (S (nsteps - 2)) by lia.
  cbn [seq for_range]. now rewrite ballistic_body_zero_speed.
Qed.

End Trajectory.
End BallisticFacts.

Module BallisticClaims.
Import ListNotations.
Import Py PyFacts Ballistic BallisticFacts.
Local Open Scope R_scope.

(** C10.  With at least one time level and a non-zero horizontal speed
    [uu0] (the analytic function divides by it) the trajectory loop never
    raises.  At every step [k >= 1] the analytic function returns a value,
    the stored analytic height is the maximum of this value and 0 (so it is
    0 where the parabola is negative), the stored numerical height is the
    maximum of 0 and the Euler formula applied to the stored, clamped,
    previous height, and both stored heights are non-negative. *)
Theorem ballistic_heights_clamped
    (xx0 zz0 uu0 ww0 grv deltat : R) (nsteps : nat) :
  (1 <= nsteps)%nat -> uu0 <> 0 ->
  exists s,
    forward_euler xx0 zz0 uu0 ww0 grv deltat nsteps = Some s
    /\ length (nmr_zzfull s) = nsteps
    /\ length (atic_zzfull s) = nsteps
    /\ forall k, (1 <= k < nsteps)%nat ->
         exists parabola,
           analytic_ballistic (uu0 * INR k * deltat) uu0 ww0 grv
           = Some parabola
           /\ let previous := nth (k - 1) (nmr_zzfull s) 0 in
              nth k (atic_zzfull s) 0 = Rmax parabola 0
              /\ (parabola < 0 -> nth k (atic_zzfull s) 0 = 0)
              /\ nth k (nmr_zzfull s) 0
                 = Rmax (previous + deltat * (ww0 - grv * INR k * deltat)) 0
              /\ 0 <= nth k (atic_zzfull s) 0
              /\ 0 <= nth k (nmr_zzfull s) 0.
Proof.
  intros Hn Hu.
  destruct (@ballistic_prefix_spec xx0 zz0 uu0 ww0 grv deltat nsteps
              (nsteps - 1) Hu Hn (le_n _))
    as (s & Hrun & (_ & Hl1 & Hl2) & _ & _ & Hk).
  exists s. split; [exact Hrun|]. split; [assumption|].
  split; [assumption|].
  intros k Hr.
  exists (parabola_at uu0 ww0 grv deltat k).
  split; [now apply analytic_ballistic_some|].
  set (parabola := parabola_at uu0 ww0 grv deltat k).
  intros previous.
  assert (Hr' : (1 <= k <= nsteps - 1)%nat) by lia.
  destruct (Hk k Hr') as [Hnum Hat].
  assert (Hat' : nth k (atic_zzfull s) 0 = Rmax parabola 0) by exact Hat.
  assert (Hnum' : nth k (nmr_zzfull s) 0
                  = Rmax (previous + deltat * (ww0 - grv * INR k * deltat)) 0)
    by exact Hnum.
  split; [exact Hat'|]. split; [|split; [exact Hnum'|split]].
  - intros Hneg. rewrite Hat'. apply Rmax_right. now apply Rlt_le.
  - rewrite Hat'. apply Rmax_r.
  - rewrite Hnum'. apply Rmax_r.
Qed.

Lemma ballistic_heights_clamped_witness :
  (1 <= 100)%nat /\ 5 <> 0
  /\ exists s,
       forward_euler 0 0 5 30 (981 / 100) (1 / 10) 100 = Some s
       /\ nth 70 (atic_zzfull s) 0 = 0
       /\ 0 <= nth 70 (nmr_zzfull s) 0.
Proof.
  assert (H : (1 <= 100)%nat) by lia.
  assert (Hu : 5 <> 0) by lra.
  split; [exact H|]. split; [exact Hu|].
  destruct (@ballistic_heights_clamped 0 0 5 30 (981 / 100) (1 / 10) 100
              H Hu) as (s & Hs & _ & _ & Hk).
  exists s. split; [exact Hs|].
  destruct (Hk 70%nat ltac:(lia)) as (parabola & Hp & _ & Hneg & _ & _ & Hpos).
  split; [|exact Hpos].
  apply Hneg.
  rewrite (@analytic_ballistic_some 5 30 (981 / 100) _ Hu) in Hp.
  injection Hp as <-.
  replace (INR 70) with 70 by (rewrite INR_IZR_INZ; reflexivity). lra.
Defined.

End BallisticClaims.

(** ** Boundary values after every step: explicit schemes *)

Module BoundaryFacts.
Import ListNotations.
Import Py PyFacts.
Local Open Scope R_scope.

(** After every pass through the FTCS loop the two ends hold the Dirichlet
    constants. *)
Lemma ftcs_boundaries_every_step
    (bigd deltat_sec deltax uu_left_dirich uu_right_dirich : R)
    (ttplot : list nat) (uu_0 : list R) (nsteps : nat) :
  (2 <= length uu_0)%nat ->
  exists s,
    DiffusionFTCS.time_loop bigd deltat_sec deltax uu_left_dirich
      uu_right_dirich ttplot (S nsteps) uu_0 = Some s
    /\ length (DiffusionFTCS.uu_cur s) = length uu_0
    /\ nth 0 (DiffusionFTCS.uu_cur s) 0 = uu_left_dirich
    /\ nth (length uu_0 - 1) (DiffusionFTCS.uu_cur s) 0 = uu_right_dirich.
Proof.
  intros Hn.
  destruct (@FtcsFacts.ftcs_loop_next bigd deltat_sec deltax uu_left_dirich
              uu_right_dirich ttplot uu_0 nsteps)
    as (s & s' & Hs & Hs' & Hl & Hstep & _); [lia|].
  destruct (@FtcsFacts.ftcs_step_spec bigd deltat_sec deltax uu_left_dirich
              uu_right_dirich (DiffusionFTCS.uu_cur s))
    as (next & Hnext & Hln & Hj); [lia|].
  rewrite Hstep in Hnext. injection Hnext as <-.
  exists s'. split; [assumption|]. split; [lia|]. rewrite <- Hl. split.
  - rewrite Hj by lia.
    destruct (Nat.eqb_spec 0 (length (DiffusionFTCS.uu_cur s) - 1)); [lia|].
    reflexivity.
  - rewrite Hj by lia. now rewrite Nat.eqb_refl.
Qed.

(** After every pass through the wave loop each end holds the value found
    two points further in. *)
Lemma wave_boundaries_every_step
    (grv deltat_sec deltax : R) (bathy_a : list R) (ttplot : list nat)
    (nan : R) (uu_0 : list R) (nsteps : nat) :
  (3 <= length uu_0)%nat -> length bathy_a = length uu_0 ->
  exists s,
    TsunamiWave.time_loop grv deltat_sec deltax bathy_a ttplot nan
      (S nsteps) uu_0 = Some s
    /\ length (TsunamiWave.uu_cur s) = length uu_0
    /\ nth 0 (TsunamiWave.uu_cur s) 0 = nth 2 (TsunamiWave.uu_cur s) 0
    /\ nth (length uu_0 - 1) (TsunamiWave.uu_cur s) 0
       = nth (length uu_0 - 3) (TsunamiWave.uu_cur s) 0.
Proof.
  intros Hn Hb.
  destruct (@WaveFacts.wave_loop_ok grv deltat_sec deltax bathy_a ttplot nan
              uu_0 nsteps Hn Hb) as (s & Hs & Hshape).
  destruct (@WaveFacts.wave_body_spec grv deltat_sec deltax bathy_a ttplot
              (length uu_0) nsteps s Hn Hb Hshape)
    as (s' & Hbody & Hshape' & _ & _ & _ & H0 & Hlast).
  exists s'. unfold TsunamiWave.time_loop in *.
  rewrite LoopFacts.for_range_S, Hs. cbn [bind].
  repeat split; try assumption. apply Hshape'.
Qed.

End BoundaryFacts.

(** ** The snapshot buffer of the time loops *)

Module SnapshotFacts.
Import ListNotations.
Import Py PyFacts LoopFacts.

Lemma index_of_nth tt ttplot k :
  index_of tt ttplot = Some k -> nth k ttplot 0%nat = tt.
Proof.
  revert k. induction ttplot as [|t rest IH]; intros k; cbn [index_of];
    [discriminate|].
  destruct (Nat.eqb_spec t tt) as [->|Hne].
  - now intros [= <-].
  - destruct (index_of tt rest) as [k'|]; cbn [bind]; [|discriminate].
    intros [= <-]. cbn [nth]. now apply IH.
Qed.

(** Rows of the buffer after [to_plot[ttplot.index(tt),:] = uu_cur]. *)
Lemma save_plot_rows {T} ttplot tt (uu : list T) to_plot tp k :
  plot_shape (length ttplot) (length uu) to_plot ->
  save_plot ttplot tt uu to_plot = Some tp ->
  nth k tp []
  = match index_of tt ttplot with
    | Some k' => if Nat.eqb k k' then uu else nth k to_plot []
    | None => nth k to_plot []
    end.
Proof.
  intros [Hrows Hcols]. unfold save_plot.
  destruct (index_of tt ttplot) as [k'|] eqn:Ek; [|now intros [= <-]].
  apply index_of_lt in Ek.
  assert (Hk : (k' < length to_plot)%nat) by lia.
  rewrite (nth_error_nth' to_plot [] Hk). cbn [bind].
  assert (Hrow : length (nth k' to_plot []) = length uu).
  { rewrite Forall_nth in Hcols. now apply Hcols. }
  rewrite setslice_same by (simpl; lia). cbn [bind slice_lo firstn app].
  intros [= <-]. rewrite nth_update by assumption.
  destruct (Nat.eqb k k'); [|reflexivity].
  rewrite skipn_all2 by (simpl; lia). apply app_nil_r.
Qed.

Section Loop.
Variables (T St : Type).
Variable cur : St -> list T.
Variable plot : St -> list (list T).
Variable body : nat -> St -> option St.
Variable ttplot : list nat.
Variable xnum : nat.

(** What the three time loops share: the body leaves the length of the
    field as it is and ends with saving the new field. *)
Hypothesis body_saves :
  forall tt s s',
    length (cur s) = xnum -> body tt s = Some s' ->
    length (cur s') = xnum
    /\ save_plot ttplot tt (cur s') (plot s) = Some (plot s').

Lemma loop_rows (s0 : St) :
  length (cur s0) = xnum ->
  plot_shape (length ttplot) xnum (plot s0) ->
  forall n s,
    for_range (range 0 n) body s0 = Some s ->
    length (cur s) = xnum
    /\ plot_shape (length ttplot) xnum (plot s)
    /\ forall tt k,
         index_of tt ttplot = Some k ->
         ((tt < n)%nat ->
          exists st, for_range (range 0 (S tt)) body s0 = Some st
                     /\ nth k (plot s) [] = cur st)
         /\ ((n <= tt)%nat -> nth k (plot s) [] = nth k (plot s0) []).
Proof.
  intros Hc0 Hp0. induction n as [|n IH]; intros s Hs.
  - injection Hs as <-. split; [assumption|]. split; [assumption|].
    intros tt k _. split; [lia|reflexivity].
  - rewrite for_range_S in Hs.
    destruct (for_range (range 0 n) body s0) as [s1|] eqn:E1; [|discriminate].
    cbn [bind] in Hs.
    destruct (IH s1 eq_refl) as (Hc1 & Hp1 & Hrows).
    destruct (body_saves Hc1 Hs) as [Hc Hsave].
    rewrite <- Hc in Hp1.
    destruct (save_plot_ok ttplot n (cur s) Hp1) as (tp & Htp & Hshape).
    rewrite Hsave in Htp. injection Htp as <-. rewrite Hc in Hshape, Hp1.
    split; [assumption|]. split; [assumption|].
    intros tt k Hk.
    assert (Hrow := @save_plot_rows _ ttplot n (cur s) (plot s1) (plot s) k
                      ltac:(now rewrite Hc) Hsave).
    destruct (Hrows tt k Hk) as [Hlt Hge].
    destruct (Nat.eq_dec tt n) as [->|Hne].
    + rewrite Hk, Nat.eqb_refl in Hrow. split; [|lia].
      intros _. exists s. split; [|assumption].
      now rewrite for_range_S, E1.
    + assert (Hsame : nth k (plot s) [] = nth k (plot s1) []).
      { rewrite Hrow. destruct (index_of n ttplot) as [k'|] eqn:En;
          [|reflexivity].
        destruct (Nat.eqb_spec k k') as [->|]; [|reflexivity].
        apply index_of_nth in Hk, En. congruence. }
      rewrite Hsame. split.
      * intros H. apply Hlt. lia.
      * intros H. apply Hge. lia.
Qed.

End Loop.
End SnapshotFacts.

Module FtcsSnapshots.
Import ListNotations.
Import Py PyFacts LoopFacts DiffusionFTCS FtcsFacts SnapshotFacts.
Local Open Scope R_scope.

Lemma ftcs_body_saves bigd deltat_sec deltax uu_left_dirich uu_right_dirich
    ttplot xnum tt (s s' : state) :
  length (uu_cur s) = xnum ->
  body bigd deltat_sec deltax uu_left_dirich uu_right_dirich ttplot tt s
  = Some s' ->
  length (uu_cur s') = xnum
  /\ save_plot ttplot tt (uu_cur s') (to_plot s) = Some (to_plot s').
Proof.
  intros Hx. unfold body.
  destruct (step _ _ _ _ _ (uu_cur s)) as [c|] eqn:Hc; [|discriminate].
  cbn [bind].
  destruct (save_plot ttplot tt c (to_plot s)) as [tp|] eqn:Htp;
    [|discriminate].
  intros [= <-]. cbn [uu_cur to_plot]. split; [|assumption].
  destruct (uu_cur s) as [|a u] eqn:Eu; [cbv in Hc; discriminate|].
  destruct (@ftcs_step_spec bigd deltat_sec deltax uu_left_dirich
              uu_right_dirich (a :: u) ltac:(cbn [length]; lia))
    as (next & Hs & Hl & _).
  rewrite Hc in Hs. injection Hs as <-. congruence.
Qed.

(** X8.  Snapshots of the FTCS loop. After [nsteps] steps, row
    [ttplot.index(tt)] of [to_plot] holds the field as it was right after
    step [tt], for every [tt] of [ttplot] below [nsteps]; the rows of the
    entries not reached yet are still zero. *)
Theorem ftcs_snapshot_rows
    (bigd deltat_sec deltax uu_left_dirich uu_right_dirich : R)
    (ttplot : list nat) (uu_0 : list R) (nsteps : nat) :
  (1 <= length uu_0)%nat ->
  exists s,
    time_loop bigd deltat_sec deltax uu_left_dirich uu_right_dirich ttplot
      nsteps uu_0 = Some s
    /\ length (to_plot s) = length ttplot
    /\ forall tt k,
         index_of tt ttplot = Some k ->
         ((tt < nsteps)%nat ->
          exists st,
            time_loop bigd deltat_sec deltax uu_left_dirich uu_right_dirich
              ttplot (S tt) uu_0 = Some st
            /\ nth k (to_plot s) [] = uu_cur st)
         /\ ((nsteps <= tt)%nat ->
             nth k (to_plot s) [] = Np.zeros (length uu_0)).
Proof.
  intros HN.
  destruct (@ftcs_loop_ok bigd deltat_sec deltax uu_left_dirich
              uu_right_dirich ttplot uu_0 nsteps HN) as (s & Hs & _).
  exists s. split; [assumption|].
  destruct (@loop_rows R state uu_cur to_plot
              (body bigd deltat_sec deltax uu_left_dirich uu_right_dirich
                 ttplot)
              ttplot (length uu_0)
              (fun tt s s' => @ftcs_body_saves bigd deltat_sec deltax
                 uu_left_dirich uu_right_dirich ttplot (length uu_0) tt s s')
              (init ttplot uu_0) eq_refl
              (plot_shape_full (length ttplot) (length uu_0) 0)
              nsteps s Hs) as (_ & Hshape & Hrows).
  split; [apply Hshape|].
  intros tt k Hk. destruct (Hrows tt k Hk) as [Hlt Hge]. split.
  - exact Hlt.
  - intros H. rewrite Hge by assumption. cbn [init to_plot].
    unfold Np.zeros2, full. apply index_of_lt in Hk.
    now rewrite nth_repeat_lt.
Qed.

Lemma ftcs_snapshot_rows_witness :
  (1 <= length [1; 5; 2; 0])%nat
  /\ exists s st,
       time_loop 10 8640 1000 (56 / 100) (1 / 1000) [3; 1]%nat 3
         [1; 5; 2; 0] = Some s
       /\ time_loop 10 8640 1000 (56 / 100) (1 / 1000) [3; 1]%nat 2
            [1; 5; 2; 0] = Some st
       /\ nth 1 (to_plot s) [] = uu_cur st
       /\ nth 0 (to_plot s) [] = Np.zeros 4.
Proof.
  assert (HN : (1 <= length [1; 5; 2; 0])%nat) by (simpl; lia).
  split; [exact HN|].
  destruct (@ftcs_snapshot_rows 10 8640 1000 (56 / 100) (1 / 1000)
              [3; 1]%nat [1; 5; 2; 0] 3 HN) as (s & Hs & _ & Hrows).
  destruct (Hrows 1%nat 1%nat eq_refl) as [Hlt _].
  destruct (Hlt ltac:(lia)) as (st & Hst & Hrow).
  destruct (Hrows 3%nat 0%nat eq_refl) as [_ Hge].
  exists s, st. repeat split; try assumption. apply Hge. lia.
Defined.

End FtcsSnapshots.

(** ** Explicit diffusion: equilibria, mass balance, bounds, short fields *)

Module FtcsExtras.
Import ListNotations.
Import Py PyFacts StencilFacts DiffusionFTCS FtcsFacts.
Local Open Scope R_scope.

Section Loop.
Variables (bigd deltat_sec deltax : R).
Variables (uu_left_dirich uu_right_dirich : R).
Variable ttplot : list nat.

Local Notation alpha := (alpha bigd deltat_sec deltax).
Local Notation step :=
  (step bigd deltat_sec deltax uu_left_dirich uu_right_dirich).
Local Notation time_loop :=
  (time_loop bigd deltat_sec deltax uu_left_dirich uu_right_dirich ttplot).
Local Notation three_point := (three_point bigd deltat_sec deltax).

(** A property of fields that one step preserves is preserved by the loop. *)
Lemma ftcs_loop_preserves (P : list R -> Prop) (uu_0 : list R) :
  P uu_0 ->
  (forall u next, P u -> step u = Some next -> P next) ->
  forall nsteps s, time_loop nsteps uu_0 = Some s -> P (uu_cur s).
Proof.
  intros H0 Hstep. induction nsteps as [|n IH]; intros s Hs.
  - injection Hs as <-. exact H0.
  - unfold DiffusionFTCS.time_loop in *.
    rewrite LoopFacts.for_range_S in Hs.
    destruct (for_range (range 0 n) _ _) as [s0|]; [|discriminate].
    cbn [bind] in Hs. specialize (IH s0 eq_refl).
    unfold body in Hs.
    destruct (DiffusionFTCS.step _ _ _ _ _ (uu_cur s0)) as [c|] eqn:Hc;
      [|discriminate].
    cbn [bind] in Hs.
    destruct (save_plot ttplot n c (to_plot s0)); [|discriminate].
    injection Hs as <-. cbn. eapply Hstep; eauto.
Qed.

(** The discrete Laplacian at an interior index. *)
Definition second_difference (u : list R) (j : nat) : R :=
  nth (j - 1) u 0 - 2 * nth j u 0 + nth (j + 1) u 0.

Lemma three_point_increment (u : list R) (j : nat) :
  three_point u j = nth j u 0 + alpha * second_difference u j.
Proof. unfold FtcsFacts.three_point, second_difference. ring. Qed.

(** Fields that one step leaves as they are. *)
Definition steady (u : list R) : Prop :=
  nth 0 u 0 = uu_left_dirich
  /\ nth (length u - 1) u 0 = uu_right_dirich
  /\ forall j, (1 <= j <= length u - 2)%nat ->
       alpha * second_difference u j = 0.

Lemma steady_step (u : list R) :
  (2 <= length u)%nat -> steady u <-> step u = Some u.
Proof.
  intros HN.
  destruct (@ftcs_step_spec bigd deltat_sec deltax uu_left_dirich
              uu_right_dirich u ltac:(lia)) as (next & Hs & Hl & Hj).
  split.
  - intros (H0 & H1 & Hi). rewrite Hs. f_equal.
    apply (nth_ext _ _ 0 0); [assumption|].
    intros j Hlt. rewrite Hl in Hlt. rewrite Hj by assumption.
    destruct (Nat.eqb_spec j (length u - 1)) as [->|Hne]; [now rewrite H1|].
    destruct (Nat.eqb_spec j 0) as [->|Hne0]; [now rewrite H0|].
    rewrite three_point_increment, Hi by lia. ring.
  - intros E. rewrite E in Hs. injection Hs as <-.
    repeat split.
    + rewrite (Hj 0%nat) by lia.
      destruct (Nat.eqb_spec 0 (length u - 1)); [lia|reflexivity].
    + rewrite (Hj (length u - 1)%nat) by lia. now rewrite Nat.eqb_refl.
    + intros j Hr. assert (H := Hj j ltac:(lia)).
      destruct (Nat.eqb_spec j (length u - 1)); [lia|].
      destruct (Nat.eqb_spec j 0); [lia|].
      rewrite three_point_increment in H. lra.
Qed.

Lemma steady_loop (u : list R) (nsteps : nat) :
  (2 <= length u)%nat -> steady u ->
  exists s, time_loop nsteps u = Some s /\ uu_cur s = u.
Proof.
  intros HN Hu.
  destruct (@ftcs_loop_ok bigd deltat_sec deltax uu_left_dirich
              uu_right_dirich ttplot u nsteps ltac:(lia)) as (s & Hs & _).
  exists s. split; [assumption|].
  apply (@ftcs_loop_preserves (fun v => v = u) u eq_refl) with nsteps;
    [|assumption].
  intros v next -> Hv.
  apply steady_step in Hu; [|assumption]. congruence.
Qed.

(** Sums over an index range, for the mass of the interior. *)
Fixpoint sum_upto (f : nat -> R) (n : nat) : R :=
  match n with
  | O => 0
  | S n' => sum_upto f n' + f n'
  end.

Lemma sum_upto_shift (f : nat -> R) (n : nat) :
  sum_upto f (S n) = f 0%nat + sum_upto (fun j => f (S j)) n.
Proof.
  induction n as [|n IH]; [cbn; ring|].
  change (sum_upto f (S (S n))) with (sum_upto f (S n) + f (S n)).
  rewrite IH. cbn [sum_upto]. ring.
Qed.

Lemma sum_list_upto (l : list R) :
  fold_right Rplus 0 l = sum_upto (fun j => nth j l 0) (length l).
Proof.
  induction l as [|a l IH]; [reflexivity|].
  cbn [length fold_right]. rewrite sum_upto_shift, IH. reflexivity.
Qed.

Lemma sum_upto_ext (f g : nat -> R) (n : nat) :
  (forall j, (j < n)%nat -> f j = g j) -> sum_upto f n = sum_upto g n.
Proof.
  induction n as [|n IH]; intros H; [reflexivity|].
  cbn [sum_upto]. rewrite IH, (H n) by (intros; try apply H; lia).
  reflexivity.
Qed.

Lemma sum_upto_plus (f g : nat -> R) (n : nat) :
  sum_upto (fun j => f j + g j) n = sum_upto f n + sum_upto g n.
Proof. induction n as [|n IH]; cbn [sum_upto]; [ring|rewrite IH; ring]. Qed.

Lemma sum_upto_scal (c : R) (f : nat -> R) (n : nat) :
  sum_upto (fun j => c * f j) n = c * sum_upto f n.
Proof. induction n as [|n IH]; cbn [sum_upto]; [ring|rewrite IH; ring]. Qed.

Lemma sum_upto_telescope (g : nat -> R) (n : nat) :
  sum_upto (fun j => g (S j) - g j) n = g n - g 0%nat.
Proof. induction n as [|n IH]; cbn [sum_upto]; [ring|rewrite IH; ring]. Qed.

Lemma mass_sum (u : list R) :
  mass deltax u
  = sum_upto (fun j => nth (S j) u 0) (length u - 2) * deltax.
Proof.
  unfold mass. fold (mid_view u). rewrite sum_list_upto, length_mid_view.
  f_equal. apply sum_upto_ext. intros j Hj. now apply nth_mid_view.
Qed.

Lemma mass_step (u next : list R) :
  (2 <= length u)%nat -> step u = Some next ->
  mass deltax next - mass deltax u
  = alpha * deltax
    * ((nth (length u - 1) u 0 - nth (length u - 2) u 0)
       - (nth 1 u 0 - nth 0 u 0)).
Proof.
  intros HN Hs.
  destruct (@ftcs_step_spec bigd deltat_sec deltax uu_left_dirich
              uu_right_dirich u ltac:(lia)) as (next' & Hs' & Hl & Hj).
  rewrite Hs in Hs'. injection Hs' as <-.
  rewrite !mass_sum, Hl.
  rewrite (@sum_upto_ext (fun j => nth (S j) next 0)
             (fun j => nth (S j) u 0
                       + alpha * ((nth (S (S j)) u 0 - nth (S j) u 0)
                                  - (nth (S j) u 0 - nth j u 0)))).
  - rewrite sum_upto_plus, sum_upto_scal.
    rewrite (sum_upto_telescope (fun j => nth (S j) u 0 - nth j u 0)).
    replace (S (length u - 2)) with (length u - 1)%nat by lia.
    ring.
  - intros j Hlt. rewrite Hj by lia.
    destruct (Nat.eqb_spec (S j) (length u - 1)); [lia|].
    cbn [Nat.eqb]. rewrite three_point_increment. unfold second_difference.
    replace (S j - 1)%nat with j by lia.
    replace (S j + 1)%nat with (S (S j)) by lia. ring.
Qed.

(** Values between two bounds. *)
Definition between (lo hi : R) (u : list R) : Prop :=
  forall j, (j < length u)%nat -> lo <= nth j u 0 <= hi.

Lemma between_step (lo hi : R) (u next : list R) :
  0 <= alpha <= 1 / 2 ->
  lo <= uu_left_dirich <= hi -> lo <= uu_right_dirich <= hi ->
  between lo hi u -> step u = Some next -> between lo hi next.
Proof.
  intros Ha Hleft Hright Hu Hs.
  destruct u as [|a u'].
  { cbv in Hs. discriminate. }
  destruct (@ftcs_step_spec bigd deltat_sec deltax uu_left_dirich
              uu_right_dirich (a :: u') ltac:(cbn [length]; lia))
    as (next' & Hs' & Hl & Hj).
  rewrite Hs in Hs'. injection Hs' as <-.
  intros j Hlt. rewrite Hl in Hlt. rewrite Hj by assumption.
  destruct (Nat.eqb_spec j (length (a :: u') - 1)); [assumption|].
  destruct (Nat.eqb_spec j 0); [assumption|].
  unfold FtcsFacts.three_point.
  assert (H1 := Hu (j - 1)%nat ltac:(lia)).
  assert (H2 := Hu j ltac:(lia)).
  assert (H3 := Hu (j + 1)%nat ltac:(lia)).
  split; nra.
Qed.

Lemma Forall_between (lo hi : R) (v : list R) :
  Forall (fun x => lo <= x <= hi) v <-> between lo hi v.
Proof.
  rewrite Forall_nth. unfold between. split.
  - intros H j Hj. now apply H.
  - intros H j d Hj. rewrite (nth_indep _ d 0) by assumption. now apply H.
Qed.

Lemma between_loop (lo hi : R) (uu_0 : list R) (nsteps : nat) (s : state) :
  0 <= alpha <= 1 / 2 ->
  lo <= uu_left_dirich <= hi -> lo <= uu_right_dirich <= hi ->
  between lo hi uu_0 -> time_loop nsteps uu_0 = Some s ->
  between lo hi (uu_cur s).
Proof.
  intros Ha Hl Hr H0 Hs.
  apply (@ftcs_loop_preserves (between lo hi) uu_0) with nsteps;
    [assumption| |assumption].
  intros u next Hu Hn. now apply (@between_step lo hi u next).
Qed.

End Loop.

(** X1.  With [alpha = 0] (no diffusion, or a zero time step) the loop only
    overwrites the two ends: after any positive number of steps the interior
    is the initial one. *)
Theorem ftcs_zero_diffusion
    (bigd deltat_sec deltax uu_left_dirich uu_right_dirich : R)
    (ttplot : list nat) (uu_0 : list R) (nsteps : nat) :
  alpha bigd deltat_sec deltax = 0 ->
  (1 <= length uu_0)%nat ->
  exists s,
    time_loop bigd deltat_sec deltax uu_left_dirich uu_right_dirich ttplot
      (S nsteps) uu_0 = Some s
    /\ length (uu_cur s) = length uu_0
    /\ forall j, (j < length uu_0)%nat ->
         nth j (uu_cur s) 0
         = if Nat.eqb j (length uu_0 - 1) then uu_right_dirich
           else if Nat.eqb j 0 then uu_left_dirich
           else nth j uu_0 0.
Proof.
  intros Ha HN.
  destruct (@ftcs_loop_next bigd deltat_sec deltax uu_left_dirich
              uu_right_dirich ttplot uu_0 nsteps HN)
    as (s0 & s & Hs0 & Hs & Hl0 & Hstep & _).
  exists s. split; [assumption|].
  destruct (@ftcs_step_spec bigd deltat_sec deltax uu_left_dirich
              uu_right_dirich (uu_cur s0) ltac:(lia))
    as (next & Hn & Hl & Hj).
  rewrite Hstep in Hn. injection Hn as <-. rewrite Hl0 in Hl, Hj.
  split; [assumption|].
  intros j Hlt. rewrite Hj by assumption.
  destruct (Nat.eqb_spec j (length uu_0 - 1)); [reflexivity|].
  destruct (Nat.eqb_spec j 0); [reflexivity|].
  rewrite three_point_increment, Ha, Rmult_0_l, Rplus_0_r.
  apply (@ftcs_loop_preserves bigd deltat_sec deltax uu_left_dirich
           uu_right_dirich ttplot
           (fun v => length v = length uu_0
                     /\ forall i, (1 <= i <= length uu_0 - 2)%nat ->
                          nth i v 0 = nth i uu_0 0)
           uu_0) with (nsteps := nsteps) (s := s0);
    [now split| |assumption|lia].
  clear - Ha. intros u next' [Hlu Hu] Hs.
  destruct (@ftcs_step_spec bigd deltat_sec deltax uu_left_dirich
              uu_right_dirich u) as (nx & Hn & Hl & Hj).
  { destruct u; [cbv in Hs; discriminate|cbn [length]; lia]. }
  rewrite Hs in Hn. injection Hn as <-. split; [congruence|].
  intros i Hi. rewrite Hj by lia.
  destruct (Nat.eqb_spec i (length u - 1)); [lia|].
  destruct (Nat.eqb_spec i 0); [lia|].
  rewrite three_point_increment, Ha, Rmult_0_l, Rplus_0_r. now apply Hu.
Qed.

Lemma ftcs_zero_diffusion_witness :
  alpha 0 8640 1000 = 0
  /\ (1 <= length [1; 5; 2; 0])%nat
  /\ exists s,
       time_loop 0 8640 1000 (56 / 100) (1 / 1000) [] 4 [1; 5; 2; 0] = Some s
       /\ nth 1 (uu_cur s) 0 = 5 /\ nth 2 (uu_cur s) 0 = 2
       /\ nth 0 (uu_cur s) 0 = 56 / 100.
Proof.
  assert (Ha : alpha 0 8640 1000 = 0) by (unfold alpha; field).
  assert (HN : (1 <= length [1; 5; 2; 0])%nat) by (simpl; lia).
  split; [exact Ha|]. split; [exact HN|].
  destruct (@ftcs_zero_diffusion 0 8640 1000 (56 / 100) (1 / 1000) []
              [1; 5; 2; 0] 3 Ha HN) as (s & Hs & _ & Hj).
  exists s. split; [exact Hs|].
  split; [apply (Hj 1%nat); simpl; lia|].
  split; [apply (Hj 2%nat); simpl; lia|apply (Hj 0%nat); simpl; lia].
Defined.

(** X2.  Equilibria. On at least two points a step returns its input exactly
    when the ends hold the Dirichlet constants and [alpha] times the second
    difference vanishes at every interior point; such a field is then
    returned by the loop after any number of steps. *)
Theorem ftcs_steady_state
    (bigd deltat_sec deltax uu_left_dirich uu_right_dirich : R)
    (ttplot : list nat) (u : list R) :
  (2 <= length u)%nat ->
  let fixed :=
    nth 0 u 0 = uu_left_dirich
    /\ nth (length u - 1) u 0 = uu_right_dirich
    /\ forall j, (1 <= j <= length u - 2)%nat ->
         alpha bigd deltat_sec deltax
         * (nth (j - 1) u 0 - 2 * nth j u 0 + nth (j + 1) u 0) = 0 in
  (fixed <->
   step bigd deltat_sec deltax uu_left_dirich uu_right_dirich u = Some u)
  /\ (fixed ->
      forall nsteps, exists s,
        time_loop bigd deltat_sec deltax uu_left_dirich uu_right_dirich
          ttplot nsteps u = Some s
        /\ uu_cur s = u).
Proof.
  intros HN fixed. split.
  - apply (@steady_step bigd deltat_sec deltax uu_left_dirich
             uu_right_dirich u HN).
  - intros Hf nsteps. now apply steady_loop.
Qed.

Lemma ftcs_steady_state_witness :
  (2 <= length [3; 2; 1; 0])%nat
  /\ forall nsteps, exists s,
       time_loop 10 8640 1000 3 0 [] nsteps [3; 2; 1; 0] = Some s
       /\ uu_cur s = [3; 2; 1; 0].
Proof.
  assert (HN : (2 <= length [3; 2; 1; 0])%nat) by (simpl; lia).
  split; [exact HN|].
  apply (proj2 (@ftcs_steady_state 10 8640 1000 3 0 [] [3; 2; 1; 0] HN)).
  split; [reflexivity|]. split; [reflexivity|].
  intros j Hj. cbn [length] in Hj.
  assert (E : j = 1%nat \/ j = 2%nat) by lia.
  destruct E as [-> | ->]; cbn [nth Nat.sub Nat.add]; ring.
Defined.

(** X3.  The straight line between the two Dirichlet constants is an
    equilibrium for every [alpha]. *)
Theorem ftcs_linear_profile_steady
    (bigd deltat_sec deltax uu_left_dirich uu_right_dirich : R)
    (ttplot : list nat) (xnum nsteps : nat) :
  (2 <= xnum)%nat ->
  let line :=
    map (fun j => uu_left_dirich
                  + INR j * ((uu_right_dirich - uu_left_dirich)
                             / INR (xnum - 1)))
        (seq 0 xnum) in
  exists s,
    time_loop bigd deltat_sec deltax uu_left_dirich uu_right_dirich ttplot
      nsteps line = Some s
    /\ uu_cur s = line.
Proof.
  intros HN line.
  assert (Hlen : length line = xnum)
    by (unfold line; now rewrite length_map, length_seq).
  assert (Hnth : forall j, (j < xnum)%nat ->
            nth j line 0
            = uu_left_dirich
              + INR j * ((uu_right_dirich - uu_left_dirich)
                         / INR (xnum - 1))).
  { intros j Hj. unfold line.
    rewrite (nth_indep _ 0
               (uu_left_dirich
                + INR 0 * ((uu_right_dirich - uu_left_dirich)
                           / INR (xnum - 1))))
      by now rewrite length_map, length_seq.
    rewrite (map_nth (fun j => uu_left_dirich
                  + INR j * ((uu_right_dirich - uu_left_dirich)
                             / INR (xnum - 1)))).
    now rewrite seq_nth. }
  apply steady_loop; [lia|].
  assert (Hne : INR (xnum - 1) <> 0) by (apply not_0_INR; lia).
  rewrite <- Hlen in HN. unfold steady. rewrite Hlen. repeat split.
  - rewrite Hnth by lia. cbn [INR]. ring.
  - rewrite Hnth by lia. field. exact Hne.
  - intros j Hj. unfold second_difference.
    rewrite !Hnth by lia.
    replace (INR (j - 1)) with (INR j - 1)
      by (rewrite minus_INR by lia; reflexivity).
    rewrite plus_INR. cbn [INR]. ring.
Qed.

Lemma ftcs_linear_profile_steady_witness :
  (2 <= 3)%nat
  /\ exists s,
       time_loop 10 8640 1000 4 0 [] 5
         (map (fun j => 4 + INR j * ((0 - 4) / INR (3 - 1))) (seq 0 3))
       = Some s
       /\ uu_cur s
          = map (fun j => 4 + INR j * ((0 - 4) / INR (3 - 1))) (seq 0 3).
Proof.
  assert (HN : (2 <= 3)%nat) by lia.
  split; [exact HN|].
  exact (@ftcs_linear_profile_steady 10 8640 1000 4 0 [] 3 5 HN).
Defined.

(** X4.  Mass balance of one step: the interior mass changes by the
    diffusive flux through the two ends. *)
Theorem ftcs_mass_balance
    (bigd deltat_sec deltax uu_left_dirich uu_right_dirich : R)
    (u : list R) :
  (2 <= length u)%nat ->
  exists next,
    step bigd deltat_sec deltax uu_left_dirich uu_right_dirich u = Some next
    /\ mass deltax next - mass deltax u
       = alpha bigd deltat_sec deltax * deltax
         * ((nth (length u - 1) u 0 - nth (length u - 2) u 0)
            - (nth 1 u 0 - nth 0 u 0)).
Proof.
  intros HN.
  destruct (@ftcs_step_spec bigd deltat_sec deltax uu_left_dirich
              uu_right_dirich u ltac:(lia)) as (next & Hs & _).
  exists next. split; [assumption|]. now apply mass_step with (2 := Hs).
Qed.

Lemma ftcs_mass_balance_witness :
  (2 <= length [1; 5; 2; 0])%nat
  /\ exists next,
       step 10 1 1 7 9 [1; 5; 2; 0] = Some next
       /\ mass 1 next - mass 1 [1; 5; 2; 0]
          = alpha 10 1 1 * 1 * ((0 - 2) - (5 - 1)).
Proof.
  assert (HN : (2 <= length [1; 5; 2; 0])%nat) by (simpl; lia).
  split; [exact HN|].
  exact (@ftcs_mass_balance 10 1 1 7 9 [1; 5; 2; 0] HN).
Defined.

(** X5.  Maximum principle: with [0 <= alpha <= 1/2], bounds that hold for
    the initial field and for the two Dirichlet constants hold for the field
    after any number of steps. *)
Theorem ftcs_maximum_principle
    (bigd deltat_sec deltax uu_left_dirich uu_right_dirich : R)
    (ttplot : list nat) (lo hi : R) (uu_0 : list R) (nsteps : nat)
    (s : state) :
  0 <= alpha bigd deltat_sec deltax <= 1 / 2 ->
  lo <= uu_left_dirich <= hi -> lo <= uu_right_dirich <= hi ->
  Forall (fun x => lo <= x <= hi) uu_0 ->
  time_loop bigd deltat_sec deltax uu_left_dirich uu_right_dirich ttplot
    nsteps uu_0 = Some s ->
  Forall (fun x => lo <= x <= hi) (uu_cur s).
Proof.
  intros Ha Hl Hr H0 Hs. apply Forall_between.
  apply (@between_loop bigd deltat_sec deltax uu_left_dirich uu_right_dirich
           ttplot lo hi uu_0 nsteps s); try assumption.
  now apply Forall_between.
Qed.

Lemma ftcs_maximum_principle_witness :
  0 <= alpha 10 8640 1000 <= 1 / 2
  /\ exists s,
       time_loop 10 8640 1000 (56 / 100) (1 / 1000) [] 2 [1; 5; 2; 0]
       = Some s
       /\ Forall (fun x => 0 <= x <= 5) (uu_cur s).
Proof.
  assert (Ha : 0 <= alpha 10 8640 1000 <= 1 / 2) by (unfold alpha; lra).
  split; [exact Ha|].
  destruct (@ftcs_loop_ok 10 8640 1000 (56 / 100) (1 / 1000) []
              [1; 5; 2; 0] 2) as (s & Hs & _); [simpl; lia|].
  exists s. split; [exact Hs|].
  apply (@ftcs_maximum_principle 10 8640 1000 (56 / 100) (1 / 1000) []
           0 5 [1; 5; 2; 0] 2 s Ha); [lra|lra| |exact Hs].
  repeat constructor; lra.
Defined.

(** X6.  Above the threshold the sign is not kept: with [alpha > 1/2] a
    positive value between two zeros becomes negative in one step. *)
Theorem ftcs_spike_flips_sign
    (bigd deltat_sec deltax uu_left_dirich uu_right_dirich : R)
    (u : list R) (j : nat) :
  1 / 2 < alpha bigd deltat_sec deltax ->
  (1 <= j)%nat -> (j + 1 < length u)%nat ->
  nth (j - 1) u 0 = 0 -> nth (j + 1) u 0 = 0 -> 0 < nth j u 0 ->
  exists next,
    step bigd deltat_sec deltax uu_left_dirich uu_right_dirich u = Some next
    /\ nth j next 0 = (1 - 2 * alpha bigd deltat_sec deltax) * nth j u 0
    /\ nth j next 0 < 0.
Proof.
  intros Ha H1 H2 Hm Hp Hj.
  destruct (@ftcs_step_spec bigd deltat_sec deltax uu_left_dirich
              uu_right_dirich u ltac:(lia)) as (next & Hs & _ & Hn).
  exists next. split; [assumption|].
  rewrite Hn by lia.
  destruct (Nat.eqb_spec j (length u - 1)); [lia|].
  destruct (Nat.eqb_spec j 0); [lia|].
  unfold FtcsFacts.three_point. rewrite Hm, Hp. split; [ring|nra].
Qed.

Lemma ftcs_spike_flips_sign_witness :
  1 / 2 < alpha 1 1 1
  /\ exists next,
       step 1 1 1 0 0 [0; 1; 0] = Some next /\ nth 1 next 0 < 0.
Proof.
  assert (Ha : 1 / 2 < alpha 1 1 1) by (unfold alpha; lra).
  split; [exact Ha|].
  destruct (@ftcs_spike_flips_sign 1 1 1 0 0 [0; 1; 0] 1 Ha)
    as (next & Hs & _ & Hneg);
    [simpl; lia|simpl; lia|reflexivity|reflexivity|simpl; lra|].
  exists next. split; assumption.
Defined.

(** X7.  Fields too short to have an interior: on the empty field the first
    boundary assignment raises; on one point both assignments hit it and the
    right constant is the one that stays; on two points the step returns the
    two constants. *)
Theorem ftcs_short_fields
    (bigd deltat_sec deltax uu_left_dirich uu_right_dirich : R) :
  step bigd deltat_sec deltax uu_left_dirich uu_right_dirich [] = None
  /\ (forall a,
        step bigd deltat_sec deltax uu_left_dirich uu_right_dirich [a]
        = Some [uu_right_dirich])
  /\ (forall a b,
        step bigd deltat_sec deltax uu_left_dirich uu_right_dirich [a; b]
        = Some [uu_left_dirich; uu_right_dirich]).
Proof. repeat split. Qed.

End FtcsExtras.

(** ** Oil spill: the initial profile and the run from it *)

Module OilSpillFacts.
Import ListNotations.
Import Py PyFacts FiniteDifference SineErrorFacts DiffusionFTCS OilSpill
  FtcsExtras.
Local Open Scope R_scope.

Lemma exp_le_mono (x y : R) : x <= y -> exp x <= exp y.
Proof.
  intros [H| ->]; [left; now apply exp_increasing|apply Rle_refl].
Qed.

Section Profile.
Variables (xmax deltax spill_scale uu_base uu_spill : R).
Hypothesis step_positive : 0 < deltax.
Hypothesis scale_nonzero : spill_scale <> 0.

Local Notation xgrid := (xgrid xmax deltax).
Local Notation xnum := (xnum xmax deltax).
Local Notation uu_0 := (uu_0 xmax deltax spill_scale uu_base uu_spill).

Lemma scale_sq_pos : 0 < spill_scale ^ 2.
Proof.
  destruct (Rtotal_order spill_scale 0) as [H|[H|H]];
    [nra|contradiction|nra].
Qed.

Definition bell (i : nat) : R :=
  exp (- (1 / 2) * (INR i * deltax) ^ 2 / spill_scale ^ 2).

Lemma bell_range (i : nat) : 0 < bell i <= 1.
Proof.
  split; [apply exp_pos|]. unfold bell.
  apply Rle_trans with (exp 0); [|rewrite exp_0; lra].
  apply exp_le_mono.
  assert (Hs := scale_sq_pos).
  assert (Hx := pow2_ge_0 (INR i * deltax)).
  assert (Hi : 0 < / spill_scale ^ 2) by now apply Rinv_0_lt_compat.
  unfold Rdiv.
  set (a := (INR i * deltax) ^ 2) in *. set (b := / spill_scale ^ 2) in *.
  assert (0 <= a * b) by (apply Rmult_le_pos; lra).
  lra.
Qed.

Lemma bell_decreasing (i j : nat) : (i <= j)%nat -> bell j <= bell i.
Proof.
  intros Hij. unfold bell. apply exp_le_mono.
  assert (Hs := scale_sq_pos).
  assert (Hi : 0 < / spill_scale ^ 2) by now apply Rinv_0_lt_compat.
  assert (Hx : (INR i * deltax) ^ 2 <= (INR j * deltax) ^ 2).
  { apply pow_incr. split.
    - apply Rmult_le_pos; [apply pos_INR|lra].
    - apply Rmult_le_compat_r; [lra|now apply le_INR]. }
  unfold Rdiv.
  set (a := (INR i * deltax) ^ 2) in *. set (a' := (INR j * deltax) ^ 2) in *.
  set (b := / spill_scale ^ 2) in *.
  assert (a * b <= a' * b) by (apply Rmult_le_compat_r; lra).
  lra.
Qed.

Lemma uu_0_spec :
  exists u, uu_0 = Some u
    /\ length u = xnum
    /\ forall i, (i < xnum)%nat -> nth i u 0 = uu_base + uu_spill * bell i.
Proof.
  unfold OilSpill.uu_0, Np.add.
  assert (Hl1 : length (Np.scal uu_base (Np.ones xnum)) = xnum).
  { unfold Np.scal, Np.ones, full. now rewrite length_map, repeat_length. }
  assert (Hl2 : length (Np.scal uu_spill
                          (gaussian xmax deltax spill_scale)) = xnum).
  { unfold Np.scal, gaussian. now rewrite !length_map. }
  rewrite broadcast2_same by congruence.
  eexists; split; [reflexivity|]. split.
  - rewrite length_map2, Hl1, Hl2. apply Nat.min_id.
  - intros i Hi.
    rewrite (@nth_map2 _ Rplus _ _ i 0 0 0) by lia.
    unfold Np.scal, Np.ones, full, gaussian.
    rewrite (@nth_map_in _ (Rmult uu_base) (repeat 1 xnum) i 0 0)
      by now rewrite repeat_length.
    rewrite nth_repeat_lt by assumption.
    rewrite (@nth_map_in _ (Rmult uu_spill) _ i 0 0)
      by now rewrite length_map.
    rewrite (@nth_map_in _ (fun x => exp (- (1 / 2) * x ^ 2 / spill_scale ^ 2))
               xgrid i 0 0) by assumption.
    unfold OilSpill.xgrid. rewrite nth_arange by assumption.
    unfold bell. rewrite Rplus_0_l. ring.
Qed.

End Profile.

(** X9.  Initial profile of the oil spill, for a positive grid step and a
    non-zero spill scale: the baseline plus a bell that takes the value
    [uu_spill] at the first grid point and, for [uu_spill >= 0], does not
    increase along the grid and stays between the baseline and the baseline
    plus [uu_spill]. *)
Theorem spill_initial_profile
    (xmax deltax spill_scale uu_base uu_spill : R) :
  0 < deltax -> spill_scale <> 0 -> 0 <= uu_spill ->
  let xnum := xnum xmax deltax in
  exists u,
    uu_0 xmax deltax spill_scale uu_base uu_spill = Some u
    /\ length u = xnum
    /\ ((1 <= xnum)%nat -> nth 0 u 0 = uu_base + uu_spill)
    /\ (forall i j, (i <= j)%nat -> (j < xnum)%nat ->
          nth j u 0 <= nth i u 0)
    /\ (forall i, (i < xnum)%nat ->
          uu_base <= nth i u 0 <= uu_base + uu_spill).
Proof.
  intros Hdx Hs Hsp xnum.
  destruct (@uu_0_spec xmax deltax spill_scale uu_base uu_spill)
    as (u & Hu & Hl & Hn).
  exists u. split; [assumption|]. split; [assumption|]. fold xnum in Hn.
  split; [|split].
  - intros H1. rewrite Hn by lia. unfold bell. cbn [INR].
    replace (- (1 / 2) * (0 * deltax) ^ 2 / spill_scale ^ 2) with 0
      by (field; assumption).
    rewrite exp_0. ring.
  - intros i j Hij Hj. rewrite !Hn by lia.
    assert (H := @bell_decreasing deltax spill_scale Hdx Hs i j Hij). nra.
  - intros i Hi. rewrite Hn by assumption.
    destruct (@bell_range deltax spill_scale Hs i) as [H1 H2]. nra.
Qed.

Lemma spill_initial_profile_witness :
  0 < 1000 /\ 1000 <> 0 /\ 0 <= 56 / 100
  /\ exists u,
       uu_0 100000 1000 1000 (1 / 1000) (56 / 100) = Some u
       /\ forall i, (i < xnum 100000 1000)%nat ->
            1 / 1000 <= nth i u 0 <= 1 / 1000 + 56 / 100.
Proof.
  assert (Hdx : 0 < 1000) by lra.
  assert (Hs : 1000 <> 0) by lra.
  assert (Hsp : 0 <= 56 / 100) by lra.
  split; [exact Hdx|]. split; [exact Hs|]. split; [exact Hsp|].
  destruct (@spill_initial_profile 100000 1000 1000 (1 / 1000) (56 / 100)
              Hdx Hs Hsp) as (u & Hu & _ & _ & _ & Hb).
  exists u. split; assumption.
Defined.

(** X10.  The run of the notebook from this profile, with the Dirichlet
    constants it declares ([uu_left_dirich = uu_spill], [uu_right_dirich =
    uu_base]) and [0 <= alpha <= 1/2]: the concentration never exceeds the
    initial peak [uu_base + uu_spill] and never falls below the smaller of
    the two constants. *)
Theorem spill_run_bounded
    (xmax deltax spill_scale uu_base uu_spill bigd deltat_sec : R)
    (ttplot : list nat) (nsteps : nat) :
  0 < deltax -> spill_scale <> 0 -> 0 <= uu_spill -> 0 <= uu_base ->
  0 <= alpha bigd deltat_sec deltax <= 1 / 2 ->
  (1 <= xnum xmax deltax)%nat ->
  let uu_left_dirich := uu_spill in
  let uu_right_dirich := uu_base in
  exists u s,
    uu_0 xmax deltax spill_scale uu_base uu_spill = Some u
    /\ time_loop bigd deltat_sec deltax uu_left_dirich uu_right_dirich
         ttplot nsteps u = Some s
    /\ Forall (fun x => Rmin uu_base uu_spill <= x <= uu_base + uu_spill)
         (uu_cur s).
Proof.
  intros Hdx Hs Hsp Hb Ha Hx uu_left_dirich uu_right_dirich.
  destruct (@uu_0_spec xmax deltax spill_scale uu_base uu_spill)
    as (u & Hu & Hl & Hn).
  destruct (@FtcsFacts.ftcs_loop_ok bigd deltat_sec deltax uu_left_dirich
              uu_right_dirich ttplot u nsteps ltac:(lia)) as (s & Hrun & _).
  exists u, s. split; [assumption|]. split; [assumption|].
  assert (Hmin1 := Rmin_l uu_base uu_spill).
  assert (Hmin2 := Rmin_r uu_base uu_spill).
  apply Forall_between.
  apply (@between_loop bigd deltat_sec deltax uu_left_dirich uu_right_dirich
           ttplot (Rmin uu_base uu_spill) (uu_base + uu_spill) u nsteps s);
    try assumption; unfold uu_left_dirich, uu_right_dirich; try lra.
  intros i Hi. rewrite Hl in Hi. rewrite Hn by assumption.
  destruct (@bell_range deltax spill_scale Hs i) as [H1 H2]. nra.
Qed.

Lemma grid_of_the_notebook : xnum 100000 1000 = 100%nat.
Proof.
  unfold xnum, xgrid. rewrite length_arange.
  destruct (ceil_bounds ((100000 - 0) / 1000)) as [H1 H2].
  replace ((100000 - 0) / 1000) with 100 in * by field.
  assert (100 <= ceil 100 < 101)%Z
    by (split; [apply le_IZR|apply lt_IZR]; lra).
  lia.
Qed.

Lemma spill_run_bounded_witness :
  0 < 1000 /\ 1000 <> 0 /\ 0 <= 56 / 100 /\ 0 <= 1 / 1000
  /\ 0 <= alpha 10 8640 1000 <= 1 / 2
  /\ (1 <= xnum 100000 1000)%nat
  /\ exists u s,
       uu_0 100000 1000 1000 (1 / 1000) (56 / 100) = Some u
       /\ time_loop 10 8640 1000 (56 / 100) (1 / 1000) [] 3650 u = Some s
       /\ Forall (fun x => Rmin (1 / 1000) (56 / 100) <= x
                           <= 1 / 1000 + 56 / 100) (uu_cur s).
Proof.
  assert (Hdx : 0 < 1000) by lra.
  assert (Hs : 1000 <> 0) by lra.
  assert (Hsp : 0 <= 56 / 100) by lra.
  assert (Hb : 0 <= 1 / 1000) by lra.
  assert (Ha : 0 <= alpha 10 8640 1000 <= 1 / 2) by (unfold alpha; lra).
  assert (Hx : (1 <= xnum 100000 1000)%nat)
    by (rewrite grid_of_the_notebook; lia).
  split; [exact Hdx|]. split; [exact Hs|]. split; [exact Hsp|].
  split; [exact Hb|]. split; [exact Ha|]. split; [exact Hx|].
  exact (@spill_run_bounded 100000 1000 1000 (1 / 1000) (56 / 100) 10 8640
           [] 3650 Hdx Hs Hsp Hb Ha Hx).
Defined.

End OilSpillFacts.

(** ** Wave propagation: still water, flat bottom, short fields *)

Module WaveExtras.
Import ListNotations.
Import Py PyFacts StencilFacts LoopFacts TsunamiWave WaveFacts SnapshotFacts.
Local Open Scope R_scope.

Lemma setslice_length {T} (a : list T) (v c : list T) :
  setslice a (Some 1%Z) (Some (-1)%Z) v = Some c -> length c = length a.
Proof.
  unfold setslice. cbn [slice_lo slice_hi]. rewrite bound_m1, bound_1.
  set (l := Nat.min 1 (length a)). set (len := (length a - 1 - l)%nat).
  assert (Hl : (l + len <= length a)%nat) by (unfold l, len; lia).
  assert (Hf : length (firstn l a) = l) by (rewrite length_firstn; lia).
  destruct (Nat.eqb_spec (length v) len) as [E|E].
  - intros [= <-]. rewrite !length_app, Hf, length_skipn. lia.
  - destruct v as [|x [|y v']]; try discriminate.
    intros [= <-]. rewrite !length_app, Hf, repeat_length, length_skipn. lia.
Qed.

Section Step.
Variables (grv deltat_sec deltax : R).
Variable bathy_a : list R.
Variable ttplot : list nat.
Variable nan : R.

Local Notation body := (body grv deltat_sec deltax bathy_a ttplot).
Local Notation time_loop :=
  (time_loop grv deltat_sec deltax bathy_a ttplot nan).
Local Notation wave_point := (wave_point grv deltat_sec deltax bathy_a).

(** The field after the interior assignment and before the boundary ones. *)
Definition after_interior (tt : nat) (u u2 : list R) (j : nat) : R :=
  if (Nat.leb 1 j && Nat.leb j (length u - 2))%bool
  then wave_point tt u u2 j else nth j u 0.

(** The two boundary assignments run in sequence: the second one reads the
    array that the first one has updated. *)
Lemma wave_boundary_reads (c : list R) :
  (3 <= length c)%nat ->
  exists c', boundary c = Some c'
    /\ length c' = length c
    /\ forall j, (j < length c)%nat ->
         nth j c' 0
         = if Nat.eqb j (length c - 1)
           then (if Nat.eqb (length c) 3 then nth 2 c 0
                 else nth (length c - 3) c 0)
           else if Nat.eqb j 0 then nth 2 c 0
           else nth j c 0.
Proof.
  intros Hn. unfold boundary.
  change 2%Z with (Z.of_nat 2). change (-3)%Z with (- Z.of_nat 3)%Z.
  rewrite (@getitem_nat _ c 2 0) by lia. cbn [bind].
  rewrite (@setitem_nat _ c 0) by lia. cbn [bind].
  set (c2 := update c 0 (nth 2 c 0)).
  assert (Hl2 : length c2 = length c) by (apply length_update; lia).
  rewrite (@getitem_neg _ c2 3 0) by lia. cbn [bind].
  rewrite (@setitem_neg _ c2 1) by lia.
  rewrite Hl2.
  eexists; split; [reflexivity|].
  assert (Hc2 : forall j, nth j c2 0
                  = if Nat.eqb j 0 then nth 2 c 0 else nth j c 0).
  { intros j. unfold c2. apply nth_update. lia. }
  split; [rewrite length_update; lia|].
  intros j Hj. rewrite nth_update by lia. rewrite !Hc2.
  destruct (Nat.eqb_spec j (length c - 1)); [|reflexivity].
  destruct (Nat.eqb_spec (length c) 3) as [E|E].
  - rewrite E. reflexivity.
  - destruct (Nat.eqb_spec (length c - 3) 0); [lia|reflexivity].
Qed.

Lemma wave_body_values (xnum tt : nat) (s : state) :
  (3 <= xnum)%nat -> length bathy_a = xnum -> wave_shape ttplot xnum s ->
  exists s', body tt s = Some s'
    /\ wave_shape ttplot xnum s'
    /\ uu_old s' = uu_cur s
    /\ uu_old_2 s' = uu_old s
    /\ forall j, (j < xnum)%nat ->
         nth j (uu_cur s') 0
         = if Nat.eqb j (xnum - 1)
           then after_interior tt (uu_cur s) (uu_old s)
                  (if Nat.eqb xnum 3 then 2 else xnum - 3)
           else if Nat.eqb j 0
           then after_interior tt (uu_cur s) (uu_old s) 2
           else wave_point tt (uu_cur s) (uu_old s) j.
Proof.
  intros Hx Hb (Hc & Ho & Hp). unfold TsunamiWave.body.
  destruct (@wave_interior_spec grv deltat_sec deltax bathy_a tt
              (uu_cur s) (uu_old s))
    as (r & -> & Hlr & Hr); [lia|lia|]. cbn [bind].
  destruct (set_interior (uu_cur s) r Hlr) as (c1 & -> & Hl1 & H1).
  cbn [bind].
  destruct (@wave_boundary_reads c1) as (c2 & -> & Hl2 & H2); [lia|].
  cbn [bind].
  destruct (@LoopFacts.save_plot_ok _ ttplot tt c2 (to_plot s))
    as (tp & -> & Htp); [now rewrite Hl2, Hl1, Hc|].
  cbn [bind]. eexists; split; [reflexivity|].
  unfold wave_shape. cbn [uu_cur uu_old uu_old_2 to_plot].
  split.
  { split; [lia|]. split; [exact Hc|].
    rewrite <- Hc, <- Hl1, <- Hl2. exact Htp. }
  split; [reflexivity|]. split; [reflexivity|].
  assert (Hc1 : forall j, nth j c1 0
                  = after_interior tt (uu_cur s) (uu_old s) j).
  { intros j. rewrite H1. unfold after_interior.
    destruct (Nat.leb_spec 1 j); cbn [andb]; [|reflexivity].
    destruct (Nat.leb_spec j (length (uu_cur s) - 2)); [|reflexivity].
    rewrite Hr by lia. f_equal. lia. }
  intros j Hj. rewrite H2 by lia. rewrite Hl1, Hc, !Hc1.
  destruct (Nat.eqb_spec j (xnum - 1)).
  - now destruct (Nat.eqb xnum 3).
  - destruct (Nat.eqb_spec j 0); [reflexivity|].
    unfold after_interior.
    destruct (Nat.leb_spec 1 j); [|lia].
    destruct (Nat.leb_spec j (length (uu_cur s) - 2)); [|lia].
    reflexivity.
Qed.

(** A field of one value everywhere. *)
Lemma wave_point_still (c : R) (xnum tt j : nat) (u2 : list R) :
  (1 <= j)%nat -> (j + 1 < xnum)%nat ->
  (tt <> 0%nat -> u2 = repeat c xnum) ->
  wave_point tt (repeat c xnum) u2 j = c.
Proof.
  intros H1 H2 Hu2. unfold WaveFacts.wave_point.
  assert (E : forall i, (i < xnum)%nat -> nth i (repeat c xnum) 0 = c)
    by (intros i Hi; now apply nth_repeat_lt).
  destruct (Nat.eqb_spec tt 0) as [->|Hne].
  - unfold first_point, laplacian_at, cross_at. rewrite !E by lia. ring.
  - rewrite (Hu2 Hne). unfold later_point, laplacian_at, cross_at.
    rewrite !E by lia. ring.
Qed.

Lemma still_step (c : R) (xnum tt : nat) (s : state) :
  (3 <= xnum)%nat -> length bathy_a = xnum -> wave_shape ttplot xnum s ->
  uu_cur s = repeat c xnum ->
  (tt <> 0%nat -> uu_old s = repeat c xnum) ->
  exists s', body tt s = Some s'
    /\ wave_shape ttplot xnum s'
    /\ uu_cur s' = repeat c xnum /\ uu_old s' = repeat c xnum.
Proof.
  intros Hx Hb Hs Hc Ho.
  destruct (@wave_body_values xnum tt s Hx Hb Hs)
    as (s' & Hbody & Hs' & Hold & _ & Hj).
  exists s'. split; [assumption|]. split; [assumption|].
  split; [|congruence].
  assert (E : forall i, (i < xnum)%nat -> nth i (repeat c xnum) 0 = c)
    by (intros i Hi; now apply nth_repeat_lt).
  assert (Ha : forall i, (i < xnum)%nat ->
            after_interior tt (uu_cur s) (uu_old s) i = c).
  { intros i Hi. unfold after_interior. rewrite Hc, repeat_length.
    destruct (Nat.leb_spec 1 i); cbn [andb]; [|now apply E].
    destruct (Nat.leb_spec i (xnum - 2)); [|now apply E].
    apply wave_point_still; [lia|lia|assumption]. }
  apply (nth_ext _ _ 0 0).
  - rewrite repeat_length. apply Hs'.
  - intros j Hlt. destruct Hs' as (Hl' & _). rewrite Hl' in Hlt.
    rewrite Hj, E by assumption.
    destruct (Nat.eqb_spec j (xnum - 1)).
    + destruct (Nat.eqb_spec xnum 3); apply Ha; lia.
    + destruct (Nat.eqb_spec j 0); [apply Ha; lia|].
      rewrite Hc. apply wave_point_still; [lia|lia|assumption].
Qed.

Lemma still_loop (c : R) (xnum nsteps : nat) :
  (3 <= xnum)%nat -> length bathy_a = xnum ->
  exists s, time_loop nsteps (repeat c xnum) = Some s
    /\ wave_shape ttplot xnum s
    /\ uu_cur s = repeat c xnum
    /\ (nsteps <> 0%nat -> uu_old s = repeat c xnum).
Proof.
  intros Hx Hb. induction nsteps as [|n IH].
  - eexists. split; [reflexivity|]. split.
    + rewrite <- (repeat_length c xnum) at 1. apply wave_init_shape.
    + split; [reflexivity|]. intros H. now elim H.
  - destruct IH as (s & Hs & Hshape & Hc & Ho).
    destruct (@still_step c xnum n s Hx Hb Hshape Hc Ho)
      as (s' & Hbody & Hshape' & Hc' & Ho').
    exists s'. unfold TsunamiWave.time_loop in *.
    rewrite LoopFacts.for_range_S, Hs. cbn [bind].
    split; [assumption|]. split; [assumption|]. split; [assumption|].
    intros _. assumption.
Qed.

Lemma short_body (tt : nat) (s : state) :
  (length (uu_cur s) < 3)%nat -> body tt s = None.
Proof.
  intros Hn. unfold TsunamiWave.body.
  destruct (interior _ _ _ _ _ _ _) as [rhs|]; [|reflexivity]. cbn [bind].
  destruct (setslice _ _ _ rhs) as [c1|] eqn:E1; [|reflexivity]. cbn [bind].
  apply setslice_length in E1.
  unfold boundary, getitem.
  assert (E : norm_index (length c1) 2%Z = None).
  { unfold norm_index. cbn [Z.leb Z.compare].
    destruct (Z.ltb_spec 2 (Z.of_nat (length c1))); [lia|reflexivity]. }
  now rewrite E.
Qed.

(** The squared square root of a non-negative product. *)
Lemma fac1_at_flat (b : R) (j : nat) :
  0 <= grv * b -> nth j bathy_a 0 = b ->
  fac1_at grv deltat_sec deltax bathy_a j
  = grv * b * (deltat_sec / deltax) ^ 2.
Proof.
  intros Hb E. unfold fac1_at. rewrite E.
  replace ((sqrt (grv * b) * deltat_sec / deltax) ^ 2)
    with (sqrt (grv * b) ^ 2 * (deltat_sec / deltax) ^ 2)
    by (unfold Rdiv; ring).
  now rewrite pow2_sqrt.
Qed.

Lemma wave_body_saves (xnum tt : nat) (s s' : state) :
  length (uu_cur s) = xnum -> body tt s = Some s' ->
  length (uu_cur s') = xnum
  /\ save_plot ttplot tt (uu_cur s') (to_plot s) = Some (to_plot s').
Proof.
  intros Hx. unfold TsunamiWave.body.
  destruct (interior _ _ _ _ _ _ _) as [rhs|]; [|discriminate]. cbn [bind].
  destruct (setslice _ _ _ rhs) as [c1|] eqn:E1; [|discriminate].
  cbn [bind]. apply setslice_length in E1.
  destruct (boundary c1) as [c2|] eqn:E2; [|discriminate]. cbn [bind].
  destruct (save_plot ttplot tt c2 (to_plot s)) as [tp|] eqn:Htp;
    [|discriminate].
  intros [= <-]. cbn [uu_cur to_plot]. split; [|assumption].
  unfold boundary in E2.
  destruct (getitem c1 2) as [v|]; [|discriminate]. cbn [bind] in E2.
  destruct (setitem c1 0 v) as [c|] eqn:Ec; [|discriminate].
  cbn [bind] in E2.
  destruct (getitem c (-3)) as [w|]; [|discriminate]. cbn [bind] in E2.
  apply setitem_length in E2, Ec. congruence.
Qed.

End Step.

(** X11.  Still water stays still.  For a non-negative gravity, non-negative
    depths and a non-zero grid step (so that the square roots and the
    quotients of the two factors are numbers), a field of one value
    everywhere is returned unchanged by any number of steps, whatever the
    shape of the depth profile. *)
Theorem wave_still_water
    (grv deltat_sec deltax : R) (bathy_a : list R) (ttplot : list nat)
    (nan c : R) (xnum nsteps : nat) :
  0 <= grv -> Forall (fun b => 0 <= b) bathy_a -> deltax <> 0 ->
  (3 <= xnum)%nat -> length bathy_a = xnum ->
  exists s,
    time_loop grv deltat_sec deltax bathy_a ttplot nan nsteps
      (repeat c xnum) = Some s
    /\ uu_cur s = repeat c xnum.
Proof.
  intros _ _ _ Hx Hb.
  destruct (@still_loop grv deltat_sec deltax bathy_a ttplot nan c xnum
              nsteps Hx Hb) as (s & Hs & _ & Hc & _).
  now exists s.
Qed.

Lemma wave_still_water_witness :
  0 <= 981 / 100
  /\ Forall (fun b => 0 <= b) [4000; 4000; 3000; 1000]
  /\ 2000 <> 0
  /\ (3 <= 4)%nat /\ length [4000; 4000; 3000; 1000] = 4%nat
  /\ exists s,
       time_loop (981 / 100) 1 2000 [4000; 4000; 3000; 1000] [] 0 7
         (repeat 10 4) = Some s
       /\ uu_cur s = repeat 10 4.
Proof.
  assert (Hg : 0 <= 981 / 100) by lra.
  assert (Hd : Forall (fun b => 0 <= b) [4000; 4000; 3000; 1000])
    by (repeat constructor; lra).
  assert (Hdx : 2000 <> 0) by lra.
  assert (Hx : (3 <= 4)%nat) by lia.
  assert (Hb : length [4000; 4000; 3000; 1000] = 4%nat) by reflexivity.
  split; [exact Hg|]. split; [exact Hd|]. split; [exact Hdx|].
  split; [exact Hx|]. split; [exact Hb|].
  exact (@wave_still_water (981 / 100) 1 2000 [4000; 4000; 3000; 1000] []
           0 10 4 7 Hg Hd Hdx Hx Hb).
Defined.

(** X12.  Fewer than three points: the first pass through the loop body
    raises (at the latest, [uu_cur[2]] is out of range), so any run of at
    least one step does. *)
Theorem wave_short_field_raises
    (grv deltat_sec deltax : R) (bathy_a : list R) (ttplot : list nat)
    (nan : R) (uu_0 : list R) (nsteps : nat) :
  (length uu_0 < 3)%nat ->
  time_loop grv deltat_sec deltax bathy_a ttplot nan (S nsteps) uu_0 = None.
Proof.
  intros Hn. unfold time_loop. induction nsteps as [|n IH].
  - cbn [range Nat.sub seq for_range].
    now rewrite short_body.
  - now rewrite LoopFacts.for_range_S, IH.
Qed.

Lemma wave_short_field_raises_witness :
  (length [1; 2] < 3)%nat
  /\ time_loop 1 1 1 [1; 1] [] 0 1 [1; 2] = None.
Proof.
  assert (Hn : (length [1; 2] < 3)%nat) by (simpl; lia).
  split; [exact Hn|].
  exact (@wave_short_field_raises 1 1 1 [1; 1] [] 0 [1; 2] 0 Hn).
Defined.

(** X13.  Flat bottom.  Over a bottom of constant depth [b >= 0], with
    [grv >= 0] and a non-zero grid step, the cross term vanishes and the
    factor of the Laplacian is [grv*b*(deltat_sec/deltax)^2]: every step
    after the first is the leapfrog scheme of the wave equation, and the
    first one adds one half of the same Laplacian term. *)
Theorem wave_flat_bottom
    (grv deltat_sec deltax b : R) (ttplot : list nat) (nan : R)
    (uu_0 : list R) (nsteps : nat) :
  (3 <= length uu_0)%nat -> 0 <= grv -> 0 <= b -> deltax <> 0 ->
  let bathy_a := repeat b (length uu_0) in
  let courant2 := grv * b * (deltat_sec / deltax) ^ 2 in
  exists s s',
    time_loop grv deltat_sec deltax bathy_a ttplot nan nsteps uu_0 = Some s
    /\ time_loop grv deltat_sec deltax bathy_a ttplot nan (S nsteps) uu_0
       = Some s'
    /\ forall j, (1 <= j <= length uu_0 - 2)%nat ->
         let lap := nth (j + 1) (uu_cur s) 0 - 2 * nth j (uu_cur s) 0
                    + nth (j - 1) (uu_cur s) 0 in
         nth j (uu_cur s') 0
         = if Nat.eqb nsteps 0
           then nth j (uu_cur s) 0 + 1 / 2 * courant2 * lap
           else 2 * nth j (uu_cur s) 0 - nth j (uu_old s) 0 + courant2 * lap.
Proof.
  intros HN Hg Hb0 _ bathy_a courant2.
  assert (Hgb : 0 <= grv * b) by now apply Rmult_le_pos.
  assert (Hb : length bathy_a = length uu_0) by apply repeat_length.
  destruct (@wave_loop_ok grv deltat_sec deltax bathy_a ttplot nan uu_0
              nsteps HN Hb) as (s & Hs & Hshape).
  destruct (@wave_body_spec grv deltat_sec deltax bathy_a ttplot
              (length uu_0) nsteps s HN Hb Hshape)
    as (s' & Hbody & _ & _ & _ & Hj & _).
  exists s, s'. split; [assumption|]. split.
  { unfold time_loop in *. now rewrite LoopFacts.for_range_S, Hs. }
  intros j Hr lap. rewrite Hj by assumption.
  assert (E : forall i, (i < length uu_0)%nat -> nth i bathy_a 0 = b)
    by (intros i Hi; now apply nth_repeat_lt).
  unfold wave_point, first_point, later_point, cross_at, laplacian_at.
  rewrite (@fac1_at_flat grv deltat_sec deltax bathy_a b j Hgb)
    by (apply E; lia).
  rewrite !E by lia. fold lap. fold courant2.
  destruct (Nat.eqb nsteps 0); ring.
Qed.

Lemma wave_flat_bottom_witness :
  (3 <= length [0; 1; 4; 1; 0])%nat /\ 0 <= 10 /\ 0 <= 4000 /\ 2000 <> 0
  /\ exists s',
       time_loop 10 1 2000 (repeat 4000 5) [] 0 1 [0; 1; 4; 1; 0] = Some s'
       /\ nth 2 (uu_cur s') 0
          = 4 + 1 / 2 * (10 * 4000 * (1 / 2000) ^ 2) * (1 - 2 * 4 + 1).
Proof.
  assert (HN : (3 <= length [0; 1; 4; 1; 0])%nat) by (simpl; lia).
  assert (Hg : 0 <= 10) by lra.
  assert (Hb : 0 <= 4000) by lra.
  assert (Hdx : 2000 <> 0) by lra.
  split; [exact HN|]. split; [exact Hg|]. split; [exact Hb|].
  split; [exact Hdx|].
  destruct (@wave_flat_bottom 10 1 2000 4000 [] 0 [0; 1; 4; 1; 0] 0 HN Hg Hb
              Hdx) as (s & s' & Hs & Hs' & Hj).
  exists s'. split; [exact Hs'|].
  injection Hs as <-. apply (Hj 2%nat). simpl; lia.
Defined.

(** X14.  Snapshots of the wave loop. After [nsteps] steps, row
    [ttplot.index(tt)] of [to_plot] holds the field as it was right after
    step [tt], for every [tt] of [ttplot] below [nsteps]; the rows of the
    entries not reached yet are still zero. *)
Theorem wave_snapshot_rows
    (grv deltat_sec deltax : R) (bathy_a : list R) (ttplot : list nat)
    (nan : R) (uu_0 : list R) (nsteps : nat) :
  (3 <= length uu_0)%nat -> length bathy_a = length uu_0 ->
  exists s,
    time_loop grv deltat_sec deltax bathy_a ttplot nan nsteps uu_0 = Some s
    /\ length (to_plot s) = length ttplot
    /\ forall tt k,
         index_of tt ttplot = Some k ->
         ((tt < nsteps)%nat ->
          exists st,
            time_loop grv deltat_sec deltax bathy_a ttplot nan (S tt) uu_0
            = Some st
            /\ nth k (to_plot s) [] = uu_cur st)
         /\ ((nsteps <= tt)%nat ->
             nth k (to_plot s) [] = Np.zeros (length uu_0)).
Proof.
  intros HN Hb.
  destruct (@wave_loop_ok grv deltat_sec deltax bathy_a ttplot nan uu_0
              nsteps HN Hb) as (s & Hs & _).
  exists s. split; [assumption|].
  destruct (@loop_rows R state uu_cur to_plot
              (body grv deltat_sec deltax bathy_a ttplot)
              ttplot (length uu_0)
              (fun tt s s' => @wave_body_saves grv deltat_sec deltax bathy_a
                 ttplot (length uu_0) tt s s')
              (init ttplot nan uu_0) eq_refl
              (plot_shape_full (length ttplot) (length uu_0) 0)
              nsteps s Hs) as (_ & Hshape & Hrows).
  split; [apply Hshape|].
  intros tt k Hk. destruct (Hrows tt k Hk) as [Hlt Hge]. split.
  - exact Hlt.
  - intros H. rewrite Hge by assumption. cbn [init to_plot].
    unfold Np.zeros2, full. apply index_of_lt in Hk.
    now rewrite nth_repeat_lt.
Qed.

Lemma wave_snapshot_rows_witness :
  (3 <= length [0; 1; 4; 1; 0])%nat
  /\ length [1; 1; 1; 1; 1] = length [0; 1; 4; 1; 0]
  /\ exists s st,
       time_loop 1 1 1 [1; 1; 1; 1; 1] [3; 1]%nat 0 3 [0; 1; 4; 1; 0]
       = Some s
       /\ time_loop 1 1 1 [1; 1; 1; 1; 1] [3; 1]%nat 0 2 [0; 1; 4; 1; 0]
          = Some st
       /\ nth 1 (to_plot s) [] = uu_cur st
       /\ nth 0 (to_plot s) [] = Np.zeros 5.
Proof.
  assert (HN : (3 <= length [0; 1; 4; 1; 0])%nat) by (simpl; lia).
  assert (Hb : length [1; 1; 1; 1; 1] = length [0; 1; 4; 1; 0])
    by reflexivity.
  split; [exact HN|]. split; [exact Hb|].
  destruct (@wave_snapshot_rows 1 1 1 [1; 1; 1; 1; 1] [3; 1]%nat 0
              [0; 1; 4; 1; 0] 3 HN Hb) as (s & Hs & _ & Hrows).
  destruct (Hrows 1%nat 1%nat eq_refl) as [Hlt _].
  destruct (Hlt ltac:(lia)) as (st & Hst & Hrow).
  destruct (Hrows 3%nat 0%nat eq_refl) as [_ Hge].
  exists s, st. repeat split; try assumption. apply Hge. lia.
Defined.

End WaveExtras.

(** ** Derivative estimators: short input, exactness, the grid *)

Module FiniteDifferenceExtras.
Import ListNotations.
Import Py PyFacts FiniteDifference FiniteDifferenceFacts SineErrorFacts.
Local Open Scope R_scope.

(** X15.  Fewer than two samples: each of the three cells raises, at the
    latest on reading [uux[-2]] or [uux[1]]. *)
Theorem estimators_raise_below_two_samples (deltax : R) (uux : list R) :
  (length uux < 2)%nat ->
  fd_dudx deltax uux = None
  /\ bd_dudx deltax uux = None
  /\ cd_dudx deltax uux = None.
Proof.
  intros HN. destruct uux as [|a [|b r]]; [| |cbn [length] in HN; lia];
    repeat split.
Qed.

Lemma estimators_raise_below_two_samples_witness :
  (length [7] < 2)%nat
  /\ fd_dudx (1 / 5) [7] = None
  /\ bd_dudx (1 / 5) [7] = None
  /\ cd_dudx (1 / 5) [7] = None.
Proof.
  assert (HN : (length [7] < 2)%nat) by (simpl; lia).
  split; [exact HN|].
  exact (@estimators_raise_below_two_samples (1 / 5) [7] HN).
Defined.

(** X16.  The three outputs are tied together: in the interior the centered
    estimate is the mean of the forward and the backward one, and at each
    end all three hold the same one-sided quotient. *)
Theorem centered_is_mean_of_one_sided (deltax : R) (uux : list R) :
  (2 <= length uux)%nat ->
  exists fd bd cd,
    fd_dudx deltax uux = Some fd
    /\ bd_dudx deltax uux = Some bd
    /\ cd_dudx deltax uux = Some cd
    /\ (forall i, (1 <= i)%nat -> (i + 1 < length uux)%nat ->
          nth i cd 0 = (nth i fd 0 + nth i bd 0) / 2)
    /\ (nth 0 cd 0 = nth 0 fd 0 /\ nth 0 fd 0 = nth 0 bd 0)
    /\ (nth (length uux - 1) cd 0 = nth (length uux - 1) fd 0
        /\ nth (length uux - 1) fd 0 = nth (length uux - 1) bd 0).
Proof.
  intros HN.
  destruct (@fd_dudx_spec deltax uux HN) as (fd & Hfd & _ & Hf).
  destruct (@bd_dudx_spec deltax uux HN) as (bd & Hbd & _ & Hb).
  destruct (@cd_dudx_spec deltax uux HN) as (cd & Hcd & _ & Hc).
  exists fd, bd, cd. do 3 (split; [assumption|]). split; [|split].
  - intros i H1 H2. rewrite Hf, Hb, Hc by lia.
    destruct (Nat.eqb_spec i 0); [lia|].
    destruct (Nat.eqb_spec i (length uux - 1)); [lia|].
    unfold forward_at, backward_at, centered_at, Rdiv.
    rewrite Rinv_mult. ring.
  - rewrite Hf, Hb, Hc by lia.
    destruct (Nat.eqb_spec 0 (length uux - 1)); [lia|]. now split.
  - rewrite Hf, Hb, Hc by lia. rewrite Nat.eqb_refl.
    destruct (Nat.eqb_spec (length uux - 1) 0); [lia|]. now split.
Qed.

Lemma centered_is_mean_of_one_sided_witness :
  (2 <= length [0; 1; 4; 9])%nat
  /\ exists fd bd cd,
       fd_dudx 1 [0; 1; 4; 9] = Some fd
       /\ bd_dudx 1 [0; 1; 4; 9] = Some bd
       /\ cd_dudx 1 [0; 1; 4; 9] = Some cd
       /\ nth 2 cd 0 = (nth 2 fd 0 + nth 2 bd 0) / 2.
Proof.
  assert (HN : (2 <= length [0; 1; 4; 9])%nat) by (simpl; lia).
  split; [exact HN|].
  destruct (@centered_is_mean_of_one_sided 1 [0; 1; 4; 9] HN)
    as (fd & bd & cd & H1 & H2 & H3 & Hm & _).
  exists fd, bd, cd. repeat split; try assumption.
  apply (Hm 2%nat); simpl; lia.
Defined.

Section Polynomials.
Variables (xmin xmax deltax : R).
Hypothesis step_nonzero : deltax <> 0.

Local Notation gridx := (arange xmin xmax deltax).
Local Notation N := (length gridx).

Lemma grid_sample (f : R -> R) (i : nat) :
  (i < N)%nat -> nth i (map f gridx) 0 = f (xmin + INR i * deltax).
Proof.
  intros Hi. rewrite (@nth_map_in _ f gridx i 0 0) by assumption.
  now rewrite nth_arange.
Qed.

(** Samples of [c*x^2 + a*x + b] on the grid. *)
Definition parabola (c a b : R) : list R :=
  map (fun x => c * x ^ 2 + a * x + b) gridx.

Lemma length_parabola c a b : length (parabola c a b) = N.
Proof. unfold parabola. now rewrite length_map. Qed.

Lemma forward_at_parabola c a b (i : nat) :
  (i + 1 < N)%nat ->
  forward_at deltax (parabola c a b) i
  = 2 * c * (xmin + INR i * deltax) + a + c * deltax.
Proof.
  intros Hi. unfold forward_at, parabola.
  rewrite !grid_sample by lia. rewrite plus_INR. cbn [INR]. now field.
Qed.

Lemma backward_at_parabola c a b (i : nat) :
  (1 <= i < N)%nat ->
  backward_at deltax (parabola c a b) i
  = 2 * c * (xmin + INR i * deltax) + a - c * deltax.
Proof.
  intros Hi. unfold backward_at, parabola.
  rewrite !grid_sample by lia. rewrite minus_INR by lia. cbn [INR].
  now field.
Qed.

Lemma centered_at_parabola c a b (i : nat) :
  (1 <= i)%nat -> (i + 1 < N)%nat ->
  centered_at deltax (parabola c a b) i
  = 2 * c * (xmin + INR i * deltax) + a.
Proof.
  intros H1 H2. unfold centered_at, parabola.
  rewrite !grid_sample by lia. rewrite plus_INR, minus_INR by lia.
  cbn [INR]. now field.
Qed.

End Polynomials.

(** X17.  Samples of [c*x^2 + a*x + b] on [np.arange(xmin, xmax, deltax)]:
    each one-sided quotient is off by exactly [c*deltax] (forward) or
    [-c*deltax] (backward) and the centered quotient is exact, so the
    centered array is exact in the interior only: its two ends carry the
    one-sided error. On a straight line ([c = 0]) all three arrays are exact
    everywhere. *)
Theorem errors_on_parabolas (xmin xmax deltax c a b : R) :
  deltax <> 0 ->
  let gridx := arange xmin xmax deltax in
  let uux := map (fun x => c * x ^ 2 + a * x + b) gridx in
  let true_dudx := map (fun x => 2 * c * x + a) gridx in
  (2 <= length gridx)%nat ->
  exists fd bd cd,
    fd_dudx deltax uux = Some fd
    /\ bd_dudx deltax uux = Some bd
    /\ cd_dudx deltax uux = Some cd
    /\ forall i, (i < length gridx)%nat ->
         nth i fd 0 - nth i true_dudx 0
         = (if Nat.eqb i (length gridx - 1) then - (c * deltax)
            else c * deltax)
         /\ nth i bd 0 - nth i true_dudx 0
            = (if Nat.eqb i 0 then c * deltax else - (c * deltax))
         /\ nth i cd 0 - nth i true_dudx 0
            = (if Nat.eqb i 0 then c * deltax
               else if Nat.eqb i (length gridx - 1) then - (c * deltax)
               else 0).
Proof.
  intros Hdx gridx uux true_dudx HN. subst gridx uux true_dudx.
  change (map (fun x => c * x ^ 2 + a * x + b) (arange xmin xmax deltax))
    with (parabola xmin xmax deltax c a b).
  set (N := length (arange xmin xmax deltax)) in *.
  assert (Hlen : length (parabola xmin xmax deltax c a b) = N)
    by apply length_parabola.
  assert (HN' : (2 <= length (parabola xmin xmax deltax c a b))%nat) by lia.
  destruct (@fd_dudx_spec deltax _ HN') as (fd & Hfd & _ & Hf).
  destruct (@bd_dudx_spec deltax _ HN') as (bd & Hbd & _ & Hb).
  destruct (@cd_dudx_spec deltax _ HN') as (cd & Hcd & _ & Hc).
  exists fd, bd, cd. do 3 (split; [assumption|]).
  intros i Hi. rewrite Hf, Hb, Hc by lia. rewrite Hlen.
  rewrite (@grid_sample xmin xmax deltax (fun x => 2 * c * x + a) i Hi).
  destruct (Nat.eqb_spec i (N - 1)) as [E|E];
    destruct (Nat.eqb_spec i 0) as [H0|H0];
    try (exfalso; lia);
    rewrite ?(@forward_at_parabola xmin xmax deltax Hdx c a b),
            ?(@backward_at_parabola xmin xmax deltax Hdx c a b),
            ?(@centered_at_parabola xmin xmax deltax Hdx c a b)
      by (fold N; lia);
    repeat split; ring.
Qed.

Lemma errors_on_parabolas_witness :
  1 / 5 <> 0
  /\ (2 <= length (arange 0 1 (1 / 5)))%nat
  /\ exists fd bd cd,
       fd_dudx (1 / 5) (map (fun x => 3 * x ^ 2 + 2 * x + 1)
                          (arange 0 1 (1 / 5))) = Some fd
       /\ bd_dudx (1 / 5) (map (fun x => 3 * x ^ 2 + 2 * x + 1)
                             (arange 0 1 (1 / 5))) = Some bd
       /\ cd_dudx (1 / 5) (map (fun x => 3 * x ^ 2 + 2 * x + 1)
                             (arange 0 1 (1 / 5))) = Some cd
       /\ nth 1 fd 0 - nth 1 (map (fun x => 2 * 3 * x + 2)
                                (arange 0 1 (1 / 5))) 0 = 3 * (1 / 5)
       /\ nth 1 cd 0 - nth 1 (map (fun x => 2 * 3 * x + 2)
                                (arange 0 1 (1 / 5))) 0 = 0.
Proof.
  assert (Hdx : 1 / 5 <> 0) by lra.
  assert (Hlen : length (arange 0 1 (1 / 5)) = 5%nat).
  { rewrite length_arange.
    destruct (ceil_bounds ((1 - 0) / (1 / 5))) as [H1 H2].
    replace ((1 - 0) / (1 / 5)) with 5 in * by field.
    assert (5 <= ceil 5 < 6)%Z by (split; [apply le_IZR|apply lt_IZR]; lra).
    lia. }
  assert (HN : (2 <= length (arange 0 1 (1 / 5)))%nat) by (rewrite Hlen; lia).
  split; [exact Hdx|]. split; [exact HN|].
  destruct (@errors_on_parabolas 0 1 (1 / 5) 3 2 1 Hdx HN)
    as (fd & bd & cd & H1 & H2 & H3 & Hi).
  exists fd, bd, cd. do 3 (split; [assumption|]).
  destruct (Hi 1%nat ltac:(rewrite Hlen; lia)) as (Ef & _ & Ec).
  rewrite Hlen in Ef, Ec. cbn [Nat.eqb Nat.sub] in Ef, Ec.
  split; assumption.
Defined.

(** X18.  [np.arange(xmin, xmax, step)] with a positive step: every point
    lies in [[xmin, xmax)], the point after the last one would not, and the
    grid is empty when [xmax <= xmin]. *)
Theorem arange_half_open (xmin xmax step : R) :
  0 < step ->
  let gridx := arange xmin xmax step in
  (forall i, (i < length gridx)%nat -> xmin <= nth i gridx 0 < xmax)
  /\ xmax <= xmin + INR (length gridx) * step
  /\ (xmax <= xmin -> gridx = []).
Proof.
  intros Hs gridx.
  set (q := (xmax - xmin) / step).
  assert (E : q * step = xmax - xmin) by (unfold q; field; lra).
  destruct (ceil_bounds q) as [H1 H2].
  assert (Hlen : length gridx = Z.to_nat (ceil q)) by apply length_arange.
  split; [|split].
  - intros i Hi. unfold gridx. rewrite nth_arange by assumption.
    assert (Hpos : (0 < ceil q)%Z) by lia.
    assert (Hn : INR (length gridx) = IZR (ceil q)).
    { rewrite Hlen, INR_IZR_INZ, Z2Nat.id by lia. reflexivity. }
    assert (Hi' : INR i + 1 <= INR (length gridx)).
    { rewrite <- S_INR. apply le_INR. lia. }
    assert (0 <= INR i) by apply pos_INR.
    split; [nra|].
    assert (INR i * step < q * step) by (apply Rmult_lt_compat_r; lra).
    lra.
  - destruct (Z.le_gt_cases (ceil q) 0) as [Hz|Hz].
    + assert (IZR (ceil q) <= 0) by (apply IZR_le in Hz; exact Hz).
      assert (q * step <= 0 * step) by (apply Rmult_le_compat_r; lra).
      replace (length gridx) with 0%nat by lia. cbn [INR]. lra.
    + assert (Hn : INR (length gridx) = IZR (ceil q)).
      { rewrite Hlen, INR_IZR_INZ, Z2Nat.id by lia. reflexivity. }
      rewrite Hn.
      assert (q * step <= IZR (ceil q) * step)
        by (apply Rmult_le_compat_r; lra).
      lra.
  - intros Hx. apply length_zero_iff_nil. rewrite Hlen.
    assert (Hq : q <= 0).
    { unfold q. apply Rmult_le_reg_r with step; [assumption|].
      fold q. rewrite E. lra. }
    assert (ceil q < 1)%Z by (apply lt_IZR; lra).
    lia.
Qed.

Lemma arange_half_open_witness :
  0 < 1 / 5
  /\ forall i, (i < length (arange 0 (2 * PI) (1 / 5)))%nat ->
       0 <= nth i (arange 0 (2 * PI) (1 / 5)) 0 < 2 * PI.
Proof.
  assert (Hs : 0 < 1 / 5) by lra.
  split; [exact Hs|].
  exact (proj1 (@arange_half_open 0 (2 * PI) (1 / 5) Hs)).
Defined.

End FiniteDifferenceExtras.

(** ** Ballistic trajectory: error of the integration, landing *)

Module BallisticExtras.
Import ListNotations.
Import Py PyFacts Ballistic BallisticFacts.
Local Open Scope R_scope.

Section Trajectory.
Variables (xx0 zz0 uu0 ww0 grv deltat : R).
Variable nsteps : nat.

Local Notation forward_euler :=
  (forward_euler xx0 zz0 uu0 ww0 grv deltat nsteps).

(** Height of the parabola at time [k*deltat]. *)
Definition height_at (k : nat) : R :=
  ww0 * (INR k * deltat) - grv * (INR k * deltat) ^ 2 / 2.

Lemma parabola_at_height (k : nat) :
  uu0 <> 0 -> parabola_at uu0 ww0 grv deltat k = height_at k.
Proof.
  intros Hu. unfold parabola_at, height_at. now field.
Qed.

(** The loop, with what it stores at every index. *)
Lemma forward_euler_spec :
  uu0 <> 0 -> (1 <= nsteps)%nat ->
  exists s,
    forward_euler = Some s
    /\ nth 0 (nmr_zzfull s) 0 = zz0
    /\ forall k, (1 <= k < nsteps)%nat ->
         nth k (nmr_zzfull s) 0
         = Rmax (euler_raw ww0 grv deltat (nth (k - 1) (nmr_zzfull s) 0) k) 0
         /\ nth k (atic_zzfull s) 0
            = Rmax (parabola_at uu0 ww0 grv deltat k) 0.
Proof.
  intros Hu Hn.
  destruct (@ballistic_prefix_spec xx0 zz0 uu0 ww0 grv deltat nsteps
              (nsteps - 1) Hu Hn ltac:(lia))
    as (s & Hs & _ & H0 & _ & Hk).
  exists s. split; [exact Hs|]. split; [exact H0|].
  intros k Hr. apply Hk. lia.
Qed.

(** Heights of the numerical trajectory while it has not been clamped. *)
Definition euler_height (k : nat) : R :=
  zz0 + height_at k - grv * deltat * (INR k * deltat) / 2.

Lemma euler_height_step (k : nat) :
  euler_raw ww0 grv deltat (euler_height k) (S k) = euler_height (S k).
Proof.
  unfold euler_raw, euler_height, height_at. rewrite S_INR. field.
Qed.

Lemma unclamped_prefix (s : state) (k : nat) :
  nth 0 (nmr_zzfull s) 0 = zz0 ->
  (forall j, (1 <= j < nsteps)%nat ->
     nth j (nmr_zzfull s) 0
     = Rmax (euler_raw ww0 grv deltat (nth (j - 1) (nmr_zzfull s) 0) j) 0) ->
  (k < nsteps)%nat ->
  (forall j, (1 <= j <= k)%nat -> 0 <= euler_height j) ->
  nth k (nmr_zzfull s) 0 = euler_height k.
Proof.
  intros H0 Hstep Hk Hpos. induction k as [|k IH].
  - rewrite H0. unfold euler_height, height_at. cbn [INR]. field.
  - rewrite Hstep by lia. replace (S k - 1)%nat with k by lia.
    rewrite IH by (try lia; intros j Hj; apply Hpos; lia).
    rewrite euler_height_step. apply Rmax_left. apply Hpos. lia.
Qed.

Lemma grounded_suffix (s : state) (k j : nat) :
  (forall i, (1 <= i < nsteps)%nat ->
     nth i (nmr_zzfull s) 0
     = Rmax (euler_raw ww0 grv deltat (nth (i - 1) (nmr_zzfull s) 0) i) 0) ->
  0 <= deltat -> 0 <= grv ->
  nth k (nmr_zzfull s) 0 = 0 ->
  ww0 <= grv * INR (k + 1) * deltat ->
  (k <= j < nsteps)%nat ->
  nth j (nmr_zzfull s) 0 = 0.
Proof.
  intros Hstep Hdt Hg Hk Hv [Hkj Hj].
  induction j as [|j IH]; [replace k with 0%nat in Hk by lia; exact Hk|].
  destruct (Nat.eq_dec k (S j)) as [<-|Hne]; [exact Hk|].
  rewrite Hstep by lia. replace (S j - 1)%nat with j by lia.
  rewrite IH by lia. apply Rmax_right. unfold euler_raw.
  assert (Hle : INR (k + 1) <= INR (S j)) by (apply le_INR; lia).
  assert (0 <= INR (k + 1)) by apply pos_INR.
  assert (grv * INR (k + 1) * deltat <= grv * INR (S j) * deltat).
  { apply Rmult_le_compat_r; [assumption|].
    apply Rmult_le_compat_l; assumption. }
  nra.
Qed.

End Trajectory.

(** X19.  Error of the numerical height. As long as neither trajectory has
    been clamped, the numerical height at time [t = k*deltat] is below the
    parabola [ww0*t - grv*t^2/2] (shifted by the initial height) by exactly
    [grv*deltat*t/2]: the error is of first order in the time step. *)
Theorem euler_error_before_landing
    (xx0 zz0 uu0 ww0 grv deltat : R) (nsteps k : nat) :
  let t := fun j : nat => INR j * deltat in
  let parabola := fun j : nat => ww0 * t j - grv * t j ^ 2 / 2 in
  (1 <= k < nsteps)%nat -> uu0 <> 0 ->
  (forall j, (1 <= j <= k)%nat ->
     0 <= zz0 + parabola j - grv * deltat * t j / 2) ->
  0 <= parabola k ->
  exists s,
    forward_euler xx0 zz0 uu0 ww0 grv deltat nsteps = Some s
    /\ nth k (atic_zzfull s) 0 = parabola k
    /\ nth k (nmr_zzfull s) 0 - nth k (atic_zzfull s) 0
       = zz0 - grv * deltat * t k / 2.
Proof.
  intros t parabola Hk Hu Hpos Hpk.
  destruct (@forward_euler_spec xx0 zz0 uu0 ww0 grv deltat nsteps
              Hu ltac:(lia)) as (s & Hs & H0 & Hstep).
  exists s. split; [exact Hs|].
  assert (Ha : nth k (atic_zzfull s) 0 = parabola k).
  { rewrite (proj2 (Hstep k Hk)).
    rewrite (@parabola_at_height uu0 ww0 grv deltat k Hu).
    now apply Rmax_left. }
  split; [exact Ha|]. rewrite Ha.
  rewrite (@unclamped_prefix zz0 ww0 grv deltat nsteps s k H0
             (fun j Hj => proj1 (Hstep j Hj)) ltac:(lia) Hpos).
  unfold euler_height, height_at, parabola, t. ring.
Qed.

Lemma euler_error_before_landing_witness :
  (1 <= 2 < 100)%nat /\ 5 <> 0
  /\ exists s,
       forward_euler 0 0 5 30 10 (1 / 10) 100 = Some s
       /\ nth 2 (nmr_zzfull s) 0 - nth 2 (atic_zzfull s) 0
          = 0 - 10 * (1 / 10) * (INR 2 * (1 / 10)) / 2.
Proof.
  assert (Hk : (1 <= 2 < 100)%nat) by lia.
  assert (Hu : 5 <> 0) by lra.
  split; [exact Hk|]. split; [exact Hu|].
  destruct (@euler_error_before_landing 0 0 5 30 10 (1 / 10) 100 2 Hk Hu)
    as (s & Hs & _ & He).
  - intros j Hj. assert (E : j = 1%nat \/ j = 2%nat) by lia.
    destruct E as [-> | ->]; cbn [INR]; lra.
  - cbn [INR]. lra.
  - exists s. split; assumption.
Defined.


(** X21.  On the ground. Once a stored numerical height is zero while the
    velocity of the next step points downwards, every later stored height is
    zero: the clamped trajectory neither sinks nor bounces. *)
Theorem ball_stays_on_ground
    (xx0 zz0 uu0 ww0 grv deltat : R) (nsteps k : nat) (s : state) :
  0 <= deltat -> 0 <= grv ->
  forward_euler xx0 zz0 uu0 ww0 grv deltat nsteps = Some s ->
  nth k (nmr_zzfull s) 0 = 0 ->
  ww0 - grv * INR (k + 1) * deltat <= 0 ->
  forall j, (k <= j < nsteps)%nat -> nth j (nmr_zzfull s) 0 = 0.
Proof.
  intros Hdt Hg Hs Hk Hv j Hj.
  destruct (Req_dec_T uu0 0) as [Hu|Hu].
  { destruct (Nat.le_gt_cases 2 nsteps) as [H2|H2].
    - rewrite (@forward_euler_zero_speed xx0 zz0 uu0 ww0 grv deltat nsteps
                 Hu H2) in Hs. discriminate.
    - replace j with k by lia. exact Hk. }
  destruct (@forward_euler_spec xx0 zz0 uu0 ww0 grv deltat nsteps
              Hu ltac:(lia)) as (s' & Hs' & _ & Hstep).
  rewrite Hs in Hs'. injection Hs' as <-.
  apply (@grounded_suffix ww0 grv deltat nsteps s k j
           (fun i Hi => proj1 (Hstep i Hi)) Hdt Hg Hk); [lra|assumption].
Qed.

Lemma ball_stays_on_ground_witness :
  0 <= 1 /\ 0 <= 10
  /\ exists s,
       forward_euler 0 0 5 10 10 1 5 = Some s
       /\ forall j, (2 <= j < 5)%nat -> nth j (nmr_zzfull s) 0 = 0.
Proof.
  assert (Hdt : 0 <= 1) by lra.
  assert (Hg : 0 <= 10) by lra.
  split; [exact Hdt|]. split; [exact Hg|].
  destruct (@forward_euler_spec 0 0 5 10 10 1 5 ltac:(lra) ltac:(lia))
    as (s & Hs & H0 & Hstep).
  exists s. split; [exact Hs|].
  assert (H1 : nth 1 (nmr_zzfull s) 0 = 0).
  { rewrite (proj1 (Hstep 1%nat ltac:(lia))). cbn [Nat.sub]. rewrite H0.
    unfold euler_raw. cbn [INR]. apply Rmax_right. lra. }
  assert (H2 : nth 2 (nmr_zzfull s) 0 = 0).
  { rewrite (proj1 (Hstep 2%nat ltac:(lia))). cbn [Nat.sub]. rewrite H1.
    unfold euler_raw. cbn [INR]. apply Rmax_right. lra. }
  apply (@ball_stays_on_ground 0 0 5 10 10 1 5 2 s Hdt Hg Hs H2).
  cbn [INR Nat.add]. lra.
Defined.

End BallisticExtras.

(** ** Implicit diffusion: the coefficient matrix and the solve *)

Module ImplicitFacts.
Import boot order algebra.
Import GRing.Theory Num.Theory Order.TotalTheory Order.POrderTheory.
Import DiffusionImplicit.
Local Open Scope ring_scope.

(** Arithmetic on [nat] in SSReflect form, by [lia]. *)
Ltac nat_norm :=
  repeat match goal with
    | H : is_true (_ && _) |- _ => case/andP: H => ? ?
    | H : is_true (_ || _) |- _ => case/orP: H => ?
    | H : (_ && _) = false |- _ =>
        move/negbT: H; rewrite negb_and => /orP [] ?
    | H : (_ || _) = false |- _ =>
        move/negbT: H; rewrite negb_or => /andP [] ? ?
    | H : is_true (~~ (_ < _)%N) |- _ => rewrite -leqNgt in H
    | H : is_true (~~ (_ <= _)%N) |- _ => rewrite -ltnNge in H
    | H : is_true (_ < _)%N |- _ => move/ssrnat.ltP in H
    | H : is_true (_ <= _)%N |- _ => move/ssrnat.leP in H
    | H : is_true (_ == _ :> nat) |- _ => move/eqP in H
    | H : is_true (_ != _ :> nat) |- _ => move/eqP in H
    | H : (_ < _)%N = false |- _ => move/negbT in H; rewrite -leqNgt in H
    | H : (_ <= _)%N = false |- _ => move/negbT in H; rewrite -ltnNge in H
    | H : (_ == _ :> nat) = false |- _ => move/eqP in H
    end.

Ltac nat_lia :=
  nat_norm;
  match goal with
  | |- is_true (_ < _)%N => apply/ssrnat.ltP
  | |- is_true (_ <= _)%N => apply/ssrnat.leP
  | |- is_true (_ == _ :> nat) => apply/eqP
  | |- is_true (_ != _ :> nat) => apply/eqP
  | |- (_ == _ :> nat) = false => apply/eqP
  | |- _ => idtac
  end;
  unfold addn, subn, muln, addn_rec, subn_rec, muln_rec in *; lia.

Section Bridge.
Context {T : Type}.
Implicit Types (a : seq T) (x d : T) (j k n : nat).

Lemma nth_listE d a j : nth d a j = List.nth j a d.
Proof. by elim: a j => [|x a IH] [|j] //=. Qed.

Lemma repeatE x n : List.repeat x n = nseq n x.
Proof. by elim: n => [|n IH] //=; rewrite IH. Qed.

Lemma size_update a k x : (k < size a)%N -> size (Py.update a k x) = size a.
Proof. by move=> /ssrnat.ltP H; apply: PyFacts.length_update. Qed.

Lemma nth_updateE a k x j d :
  (k < size a)%N -> nth d (Py.update a k x) j = if j == k then x else nth d a j.
Proof.
by move=> /ssrnat.ltP H; rewrite !nth_listE PyFacts.nth_update.
Qed.

Lemma setitem_first a x :
  (0 < size a)%N -> Py.setitem a Z0 x = Some (Py.update a 0 x).
Proof. by move=> /ssrnat.ltP H; apply: (@PyFacts.setitem_nat _ a 0 x H). Qed.

Lemma setitem_last a x :
  (0 < size a)%N -> Py.setitem a (Zneg xH) x = Some (Py.update a (size a - 1)%N x).
Proof.
move=> /ssrnat.ltP H; apply: (@PyFacts.setitem_neg _ a 1 x).
by split; [exact: le_n | exact: H].
Qed.
End Bridge.


Section Matrix.
Variable F : fieldType.
Variables (bigd deltat_sec deltax : F).
Variable xnum : nat.

Local Notation alpha := (alpha F bigd deltat_sec deltax).
Local Notation updiag := (updiag F bigd deltat_sec deltax xnum).
Local Notation maindiag := (maindiag F bigd deltat_sec deltax xnum).
Local Notation lowdiag := (lowdiag F bigd deltat_sec deltax xnum).
Local Notation hmat := (hmat F bigd deltat_sec deltax xnum).

Lemma size_scal_ones (c : F) n : size (scal F c (ones F n)) = n.
Proof. by rewrite /scal /ones /Py.full repeatE size_map size_nseq. Qed.

Lemma nth_scal_ones (c : F) n k :
  nth 0 (scal F c (ones F n)) k = if (k < n)%N then c else 0.
Proof.
rewrite /scal /ones /Py.full repeatE.
case: ltnP => H; last by rewrite nth_default // size_map size_nseq.
by rewrite (nth_map 0) ?size_nseq // nth_nseq H mulr1.
Qed.

Lemma updiag_spec :
  (2 <= xnum)%N ->
  exists2 u, updiag = Some u &
    size u = (xnum - 1)%N /\
    forall k, nth 0 u k = if (0 < k < xnum - 1)%N then - alpha else 0.
Proof.
move=> two_points.
have Hs : (0 < size (scal F (- alpha) (ones F (xnum - 1))))%N.
  by rewrite size_scal_ones subn_gt0.
rewrite /DiffusionImplicit.updiag setitem_first //.
eexists; first by []. split; first by rewrite size_update // size_scal_ones.
move=> k; rewrite nth_updateE // nth_scal_ones.
by case: k.
Qed.

Lemma lowdiag_spec :
  (2 <= xnum)%N ->
  exists2 l, lowdiag = Some l &
    size l = (xnum - 1)%N /\
    forall k, nth 0 l k = if (k < xnum - 2)%N then - alpha else 0.
Proof.
move=> two_points.
have Hs : (0 < size (scal F (- alpha) (ones F (xnum - 1))))%N.
  by rewrite size_scal_ones subn_gt0.
rewrite /DiffusionImplicit.lowdiag setitem_last //.
eexists; first by [].
have Hlt : (size (scal F (- alpha) (ones F (xnum - 1))) - 1 <
            size (scal F (- alpha) (ones F (xnum - 1))))%N by nat_lia.
split; first by rewrite size_update // size_scal_ones.
move=> k; rewrite nth_updateE // nth_scal_ones size_scal_ones.
case: eqP => [->|Hk].
  by case: ltnP => // H; nat_lia.
case: (ltnP k (xnum - 1)) => H1; case: (ltnP k (xnum - 2)) => H2 //; nat_lia.
Qed.

Lemma maindiag_spec :
  (2 <= xnum)%N ->
  exists2 m, maindiag = Some m &
    size m = xnum /\
    forall k, nth 0 m k
      = if (k == 0%N) || (k == (xnum - 1)%N) then 1
        else if (k < xnum)%N then 1 + 2%:R * alpha else 0.
Proof.
move=> two_points.
have Hs : (0 < size (scal F (1 + 2%:R * alpha) (ones F xnum)))%N.
  by rewrite size_scal_ones; nat_lia.
rewrite /DiffusionImplicit.maindiag setitem_first //= setitem_last ?size_update //.
eexists; first by [].
have Hlt : (size (scal F (1 + 2%:R * alpha) (ones F xnum)) - 1 <
            size (scal F (1 + 2%:R * alpha) (ones F xnum)))%N by nat_lia.
split; first by rewrite !size_update ?size_update // size_scal_ones.
move=> k; rewrite !nth_updateE ?size_update // nth_scal_ones size_scal_ones.
by case: (k == 0%N); case: (k == (xnum - 1)%N).
Qed.

Lemma hmat_spec :
  (2 <= xnum)%N ->
  exists2 H, hmat = Some H &
    forall i j : 'I_xnum,
      H i j
      = if ((i : nat) == 0%N) || ((i : nat) == (xnum - 1)%N)
        then ((i : nat) == j)%:R
        else if (i : nat) == j then 1 + 2%:R * alpha
        else if ((j : nat) == i.+1) || ((i : nat) == j.+1) then - alpha
        else 0.
Proof.
move=> H2. rewrite /DiffusionImplicit.hmat.
case: (updiag_spec H2) => u -> [Hsu Hu].
case: (maindiag_spec H2) => m -> [Hsm Hm].
case: (lowdiag_spec H2) => l -> [Hsl Hl] /=.
rewrite /diags Hsu Hsm Hsl !eqxx /=. eexists; first by [].
move=> i j; rewrite mxE Hm Hu Hl.
have Hi := ltn_ord i. have Hj := ltn_ord j.
repeat (case: ifP => ?); rewrite ?eqxx //; try (by exfalso; nat_lia).
Qed.

Local Notation reshape := (reshape F xnum).
Local Notation flatten := (@flatten F xnum).
Local Notation step := (@step F xnum).

Lemma size_np_flatten (v : 'cV[F]_xnum) : size (flatten v) = xnum.
Proof. by rewrite /DiffusionImplicit.flatten size_map size_enum_ord. Qed.

Lemma nth_np_flatten (v : 'cV[F]_xnum) (i : 'I_xnum) :
  nth 0 (flatten v) i = v i ord0.
Proof.
rewrite /DiffusionImplicit.flatten (nth_map i) ?size_enum_ord //.
by rewrite nth_ord_enum.
Qed.

Lemma reshape_np_flatten (v : 'cV[F]_xnum) : reshape (flatten v) = Some v.
Proof.
rewrite /DiffusionImplicit.reshape size_np_flatten eqxx; congr Some.
by apply/colP => i; rewrite mxE nth_np_flatten.
Qed.

Lemma reshape_some (a : seq F) (c : 'cV[F]_xnum) :
  reshape a = Some c -> size a = xnum /\ forall i : 'I_xnum, c i ord0 = nth 0 a i.
Proof.
rewrite /DiffusionImplicit.reshape; case: eqP => // Hs [<-]; split=> // i.
by rewrite mxE.
Qed.

Lemma step_some (inv : 'M[F]_xnum) (a : seq F) :
  size a = xnum ->
  exists2 c, reshape a = Some c & step inv a = Some (flatten (inv *m c)).
Proof.
move=> Hs; rewrite /DiffusionImplicit.step /DiffusionImplicit.reshape Hs eqxx /=.
by eexists.
Qed.

(** The step solves the linear system. *)
Lemma step_solves (H : 'M[F]_xnum) (a next : seq F) :
  H \in unitmx -> step (invmx H) a = Some next ->
  exists c c', [/\ reshape a = Some c, reshape next = Some c' & H *m c' = c].
Proof.
move=> HU; rewrite /DiffusionImplicit.step.
case Ec: (reshape a) => [c|] //= [<-].
exists c, (invmx H *m c); split=> //; first exact: reshape_np_flatten.
by rewrite mulKVmx.
Qed.

(** A row of the identity pins the entry of the solution. *)
Lemma identity_row_pins (H : 'M[F]_xnum) (c c' : 'cV[F]_xnum) (i : 'I_xnum) :
  (forall j, H i j = ((i : nat) == j)%:R) -> H *m c' = c -> c' i ord0 = c i ord0.
Proof.
move=> Hrow <-; rewrite mxE (bigD1 i) //= Hrow eqxx mul1r big1 ?addr0 // => j Hj.
rewrite Hrow; case: eqP => [E|_]; last by rewrite mul0r.
by move/eqP: Hj; case; apply/val_inj.
Qed.

End Matrix.

Section Kernel.
Variable F : fieldType.
Variable n : nat.

Lemma unit_of_trivial_kernel (A : 'M[F]_n) :
  (forall x : 'cV[F]_n, A *m x = 0 -> x = 0) -> A \in unitmx.
Proof.
move=> HA; rewrite -unitmx_tr -row_free_unit -kermx_eq0.
apply/eqP/row_matrixP => i; rewrite row0.
have: row i (kermx A^T) *m A^T = 0 by rewrite -row_mul mulmx_ker row0.
move/(congr1 trmx); rewrite trmx_mul trmxK trmx0 => /HA.
by move/(congr1 trmx); rewrite trmxK trmx0.
Qed.

(** Product of a tridiagonal row with a column. *)
Lemma tridiagonal_row (A : 'M[F]_n) (x : 'cV[F]_n) (i im ip : 'I_n) :
  (im : nat) = (i - 1)%N -> (ip : nat) = i.+1 -> (0 < i)%N ->
  (forall j : 'I_n, j != i -> j != im -> j != ip -> A i j = 0) ->
  (A *m x) i ord0
  = A i im * x im ord0 + A i i * x i ord0 + A i ip * x ip ord0.
Proof.
move=> Him Hip Hi0 Hz.
have Hne1 : im != i by apply/eqP => /(congr1 val) /=; rewrite Him => E; nat_lia.
have Hne2 : ip != i by apply/eqP => /(congr1 val) /=; rewrite Hip => E; nat_lia.
have Hne3 : ip != im.
  by apply/eqP => /(congr1 val) /=; rewrite Hip Him => E; nat_lia.
rewrite mxE (bigD1 i) //= (bigD1 im) //= (bigD1 ip) /=; first by rewrite Hne2.
rewrite big1 => [j /andP [/andP [H1 H2] H3]|]; first by rewrite Hz // mul0r.
by rewrite addr0 addrCA addrA.
Qed.
End Kernel.

Section Dominance.
Variable R : realFieldType.

Lemma dominant_entry_zero (alpha a b c : R) :
  0 <= alpha -> `|a| <= `|b| -> `|c| <= `|b| ->
  - alpha * a + (1 + 2%:R * alpha) * b + - alpha * c = 0 -> b = 0.
Proof.
move=> Ha Hab Hcb E.
have E' : (1 + 2%:R * alpha) * b = alpha * (a + c) by lra.
have H0 : 0 <= 1 + 2%:R * alpha by lra.
have := congr1 Num.norm E'.
rewrite !normrM (ger0_norm Ha) (ger0_norm H0) => E2.
have H1 := ler_wpM2l Ha Hab.
have H2 := ler_wpM2l Ha Hcb.
have H3 := ler_wpM2l Ha (ler_normD a c).
apply/eqP; rewrite -normr_le0.
move: E2 H1 H2 H3; set na := `|a|; set nb := `|b|; set nc := `|c|.
set nac := `|a + c|. move=> E2 H1 H2 H3.
nra.
Qed.

Variables (bigd deltat_sec deltax : R).
Variable xnum : nat.
Local Notation alpha := (alpha R bigd deltat_sec deltax).
Local Notation hmat := (hmat R bigd deltat_sec deltax xnum).

(** For a non-negative coefficient the matrix is strictly diagonally
    dominant in its interior rows, hence invertible. *)
Lemma hmat_unit (H : 'M[R]_xnum) :
  (2 <= xnum)%N -> 0 <= alpha -> hmat = Some H -> H \in unitmx.
Proof.
move=> H2 Ha EH.
case: (@hmat_spec R bigd deltat_sec deltax xnum H2) => H' EH' HH.
move: EH'; rewrite EH => -[E]; rewrite -{H'}E in HH.
apply: unit_of_trivial_kernel => x Hx.
have H0 : (0 < xnum)%N by nat_lia.
pose j0 := Ordinal H0.
case: (arg_maxP (fun i : 'I_xnum => `|x i ord0|) (isT : xpredT j0)) => i0 _ Hmax.
suff Hz : x i0 ord0 = 0.
  apply/colP => i; rewrite [RHS]mxE; apply/eqP; rewrite -normr_le0.
  by have := Hmax i isT; rewrite Hz normr0.
have Erow : (H *m x) i0 ord0 = 0 by rewrite Hx mxE.
have Hi0 := ltn_ord i0.
case Eb: (((i0 : nat) == 0%N) || ((i0 : nat) == (xnum - 1)%N)).
  rewrite -[RHS]Erow.
  by apply: (@identity_row_pins _ _ H (H *m x) x i0) => // j; rewrite HH Eb.
have Him : (i0 - 1 < xnum)%N by nat_lia.
have Hip : (i0.+1 < xnum)%N by move: Eb Hi0; clear; move=> Eb Hi0; nat_lia.
pose im := Ordinal Him; pose ip := Ordinal Hip.
have Hpos : (0 < i0)%N by move: Eb; clear; move=> Eb; nat_lia.
have Hzero : forall j : 'I_xnum, j != i0 -> j != im -> j != ip -> H i0 j = 0.
  move=> j Hj1 Hj2 Hj3; rewrite HH Eb.
  have Hj1' : (j : nat) != i0 by [].
  have Hj2' : (j : nat) != (i0 - 1)%N by [].
  have Hj3' : (j : nat) != i0.+1 by [].
  move: Hj1' Hj2' Hj3' Hpos; clear.
  move=> A B C D.
  by repeat (let E := fresh "E" in case: ifP => E) => //; exfalso; nat_lia.
move: Erow; rewrite (@tridiagonal_row _ _ H x i0 im ip) //.
rewrite !HH !Eb /= eqxx.
have -> : ((i0 : nat) == (i0 - 1)%N) = false.
  by move: Hpos; clear=> Hp; nat_lia.
have -> : ((i0 - 1)%N == i0.+1) || ((i0 : nat) == (i0 - 1).+1).
  by move: Hpos; clear=> Hp; apply/orP; right; nat_lia.
have -> : ((i0 : nat) == i0.+1) = false.
  by clear; nat_lia.
rewrite eqxx /= => E.
have A1 : `|x im ord0| <= `|x i0 ord0| := Hmax im isT.
have A2 : `|x ip ord0| <= `|x i0 ord0| := Hmax ip isT.
exact: (@dominant_entry_zero _ _ _ _ Ha A1 A2 E).
Qed.
End Dominance.

End ImplicitFacts.

(** ** Implicit diffusion: the run, and the boundary rule of all schemes *)

Module ImplicitClaims.
(* Real numbers of the explicit schemes, named before the ring notations of
   the matrix library take over. *)
Local Notation Rreal := R (only parsing).
Local Notation Rzero := (0%R) (only parsing).
Local Notation Rone := (1%R) (only parsing).
Local Notation Rsample := (cons 1%R (cons 5%R (cons 2%R (cons 0%R nil))))
  (only parsing).
Local Notation Rtenth := ((1 / 10)%R) (only parsing).
Import boot order algebra.
Import GRing.Theory Num.Theory Order.TotalTheory Order.POrderTheory.
Import DiffusionImplicit ImplicitFacts.
Local Open Scope ring_scope.

Section Loop.
Variable F : fieldType.
Variables (bigd deltat_sec deltax : F).
Variable xnum : nat.
Variable ttplot : seq nat.

Local Notation hmat := (hmat F bigd deltat_sec deltax xnum).
Local Notation invhmat := (invhmat F bigd deltat_sec deltax xnum).
Local Notation step := (@step F xnum).
Local Notation flatten := (@flatten F xnum).
Local Notation body := (@body F xnum ttplot).
Local Notation notebook := (@notebook F bigd deltat_sec deltax xnum ttplot).

Definition implicit_shape (s : state F) : Prop :=
  size (uu_cur s) = xnum
  /\ LoopFacts.plot_shape (size ttplot) xnum (to_plot s).

Lemma implicit_body_spec (inv : 'M[F]_xnum) (tt : nat) (s : state F) :
  implicit_shape s ->
  exists s', [/\ body inv tt s = Some s', implicit_shape s',
              step inv (uu_cur s) = Some (uu_cur s') & uu_old s' = uu_cur s].
Proof.
case=> Hs Hp; rewrite /DiffusionImplicit.body.
case: (@step_some F xnum inv (uu_cur s) Hs) => c Hc Hstep; rewrite Hstep /=.
have Hsz : size (flatten (inv *m c)) = xnum by rewrite size_np_flatten.
have Hl : length (flatten (inv *m c)) = xnum by exact: Hsz.
case: (@LoopFacts.save_plot_ok F ttplot tt (flatten (inv *m c)) (to_plot s)).
  by rewrite Hl.
rewrite Hl => tp [-> Htp] /=.
by eexists; split; [reflexivity| |reflexivity|reflexivity].
Qed.

Lemma invhmat_some (inv : 'M[F]_xnum) :
  invhmat = Some inv ->
  exists H, [/\ hmat = Some H, H \in unitmx & inv = invmx H].
Proof.
rewrite /DiffusionImplicit.invhmat; case: hmat => [H|] //=.
rewrite /np_linalg_inv; case: ifP => // HU [<-].
by exists H.
Qed.

Lemma implicit_init_shape (uu_0 : seq F) :
  size uu_0 = xnum -> implicit_shape (init F xnum ttplot uu_0).
Proof.
move=> Hs; split=> //=.
exact: (LoopFacts.plot_shape_full (size ttplot) xnum (0 : F)).
Qed.

Lemma implicit_loop_ok (inv : 'M[F]_xnum) (uu_0 : seq F) (nsteps : nat) :
  size uu_0 = xnum ->
  exists s, Py.for_range (Py.range 0 nsteps) (body inv)
              (init F xnum ttplot uu_0) = Some s
            /\ implicit_shape s.
Proof.
move=> Hs; apply: LoopFacts.for_range_inv; first exact: implicit_init_shape.
move=> j s0 _ Hs0; case: (@implicit_body_spec inv j s0 Hs0) => s1 [H1 H2 _ _].
by exists s1.
Qed.


(** One step with the inverse of the coefficient matrix keeps both end
    entries. *)
Lemma implicit_step_pins (H : 'M[F]_xnum) (v : seq F) :
  (2 <= xnum)%N -> hmat = Some H -> H \in unitmx -> size v = xnum ->
  exists next c c',
    [/\ step (invmx H) v = Some next,
        reshape F xnum v = Some c, reshape F xnum next = Some c',
        H *m c' = c & next = flatten (invmx H *m c)]
    /\ nth 0 next 0 = nth 0 v 0
    /\ nth 0 next (xnum - 1) = nth 0 v (xnum - 1).
Proof.
move=> H2 EH HU Hs.
case: (@step_some F xnum (invmx H) v Hs) => c Hc Hstep.
case: (@step_solves F xnum H v _ HU Hstep) => c1 [c'] [Hc1 Hc' Hsolve].
move: Hc1; rewrite Hc => -[E]; rewrite -{c1}E in Hsolve.
exists (flatten (invmx H *m c)), c, c'; split.
  by split=> //; move: Hc'; rewrite reshape_np_flatten => -[<-].
case: (@hmat_spec F bigd deltat_sec deltax xnum H2) => H' EH' HH.
move: EH'; rewrite EH => -[E]; rewrite -{H'}E in HH.
have [_ Hcv] := @reshape_some F xnum v c Hc.
have Hc'E : c' = invmx H *m c.
  by move: Hc'; rewrite reshape_np_flatten => -[<-].
have H0 : (0 < xnum)%N by nat_lia.
have H1 : (xnum - 1 < xnum)%N by nat_lia.
pose i0 := Ordinal H0; pose i1 := Ordinal H1.
have P0 : c' i0 ord0 = c i0 ord0.
  by apply: (@identity_row_pins F xnum H c c' i0).
have P1 : c' i1 ord0 = c i1 ord0.
  apply: (@identity_row_pins F xnum H c c' i1) => // j.
  by rewrite HH /= eqxx orbT.
split.
  by rewrite -Hc'E (@nth_np_flatten F xnum c' i0) P0 Hcv.
by rewrite -Hc'E (@nth_np_flatten F xnum c' i1) P1 Hcv.
Qed.

(** The whole run keeps the end entries of the initial field. *)
Lemma implicit_run_pins (H : 'M[F]_xnum) (uu_0 : seq F) (nsteps : nat) :
  (2 <= xnum)%N -> hmat = Some H -> H \in unitmx -> size uu_0 = xnum ->
  exists s,
    [/\ Py.for_range (Py.range 0 nsteps) (body (invmx H))
          (init F xnum ttplot uu_0) = Some s,
        implicit_shape s,
        nth 0 (uu_cur s) 0 = nth 0 uu_0 0
      & nth 0 (uu_cur s) (xnum - 1) = nth 0 uu_0 (xnum - 1)].
Proof.
move=> H2 EH HU Hs; elim: nsteps => [|n [s [Hrun Hsh P0 P1]]].
  by exists (init F xnum ttplot uu_0); split=> //; exact: implicit_init_shape.
case: (@implicit_body_spec (invmx H) n s Hsh) => s' [Hb Hsh' Hstep _].
exists s'; rewrite LoopFacts.for_range_S Hrun /=; split=> //.
  case: (@implicit_step_pins H (uu_cur s) H2 EH HU (proj1 Hsh)).
  move=> next [c] [c'] [[Hnext _ _ _ _] [Q0 _]].
  by move: Hnext; rewrite Hstep => -[->]; rewrite Q0.
case: (@implicit_step_pins H (uu_cur s) H2 EH HU (proj1 Hsh)).
move=> next [c] [c'] [[Hnext _ _ _ _] [_ Q1]].
by move: Hnext; rewrite Hstep => -[->]; rewrite Q1.
Qed.

End Loop.

Section Claims.
Variable R : realFieldType.
Variables (bigd deltat_sec deltax : R).
Variable xnum : nat.
Variable ttplot : seq nat.

Local Notation alpha := (alpha R bigd deltat_sec deltax).
Local Notation hmat := (hmat R bigd deltat_sec deltax xnum).
Local Notation invhmat := (invhmat R bigd deltat_sec deltax xnum).
Local Notation step := (@step R xnum).
Local Notation body := (@body R xnum ttplot).
Local Notation reshape := (reshape R xnum).
Local Notation flatten := (@flatten R xnum).
Local Notation init := (init R xnum ttplot).
Local Notation notebook := (@notebook R bigd deltat_sec deltax xnum ttplot).

Lemma invhmat_nonneg (H : 'M[R]_xnum) :
  (2 <= xnum)%N -> 0 <= alpha -> hmat = Some H ->
  H \in unitmx /\ invhmat = Some (invmx H).
Proof.
move=> H2 Ha EH.
have HU := @hmat_unit R bigd deltat_sec deltax xnum H H2 Ha EH.
by rewrite /DiffusionImplicit.invhmat EH /= /np_linalg_inv HU.
Qed.

(** C4.  On a grid of at least two points the coefficient matrix is built
    without raising and is tridiagonal: off-diagonal entries [-alpha], main
    diagonal [1+2*alpha], except that the first and the last row are rows of
    the identity.  For [alpha >= 0] its inversion succeeds.  Whenever the
    inversion succeeds its result is computed once and used by every
    iteration; the field stored by an iteration is the product of the
    inverse with the previous field, nothing else is assigned to it, and it
    solves (coefficient matrix) * (next field) = (previous field). *)
Theorem implicit_step_solves_tridiagonal_system
    (uu_left_dirich uu_right_dirich : R) :
  (2 <= xnum)%N ->
  exists H : 'M[R]_xnum,
    [/\ hmat = Some H,
        forall i j : 'I_xnum,
          H i j = if ((i : nat) == 0%N) || ((i : nat) == (xnum - 1)%N)
                  then ((i : nat) == j)%:R
                  else if (i : nat) == j then 1 + 2%:R * alpha
                  else if ((j : nat) == i.+1) || ((i : nat) == j.+1)
                       then - alpha
                  else 0,
        0 <= alpha -> invhmat = Some (invmx H)
      & forall inv, invhmat = Some inv ->
        forall (uu_0 : seq R) (nsteps : nat), size uu_0 = xnum ->
          notebook uu_left_dirich uu_right_dirich nsteps uu_0
          = Py.for_range (Py.range 0 nsteps) (body inv) (init uu_0)
          /\ exists s s' c c',
               [/\ notebook uu_left_dirich uu_right_dirich nsteps uu_0
                   = Some s,
                   notebook uu_left_dirich uu_right_dirich nsteps.+1 uu_0
                   = Some s',
                   reshape (uu_cur s) = Some c /\ reshape (uu_cur s') = Some c',
                   H *m c' = c
                 & uu_cur s' = flatten (inv *m c)]].
Proof.
move=> H2.
case: (@hmat_spec R bigd deltat_sec deltax xnum H2) => H EH HH.
exists H; split=> //.
  by move=> Ha; case: (invhmat_nonneg H2 Ha EH).
move=> inv Einv uu_0 nsteps Hs.
split; first by rewrite /DiffusionImplicit.notebook Einv.
case: (@invhmat_some R bigd deltat_sec deltax xnum inv Einv) => H' [EH' HU Ei].
move: EH'; rewrite EH => -[E]; rewrite -{H'}E in HU Ei.
case: (@implicit_loop_ok R xnum ttplot inv uu_0 nsteps Hs) => s [Hrun Hsh].
case: (@implicit_body_spec R xnum ttplot inv nsteps s Hsh) => s' [Hb _ Hstep _].
case: (@implicit_step_pins R bigd deltat_sec deltax xnum H (uu_cur s) H2 EH HU
         (proj1 Hsh)) => next [c] [c'] [[Hnext Hc Hc' Hsolve Hfl] _].
move: Hnext; rewrite -Ei Hstep => -[En]; rewrite -{next}En in Hc' Hfl.
exists s, s', c, c'; split.
- by rewrite /DiffusionImplicit.notebook Einv.
- by rewrite /DiffusionImplicit.notebook Einv /bind LoopFacts.for_range_S Hrun.
- by split.
- exact: Hsolve.
- by rewrite Ei.
Qed.


Variable expF : R -> R.
Variables (uu_base uu_spill spill_scale : R).
Local Notation uu_0 :=
  (uu_0 R deltax xnum expF uu_base uu_spill spill_scale).

Lemma size_uu_0 : size uu_0 = xnum.
Proof.
rewrite /DiffusionImplicit.uu_0.
have -> : forall a b : seq R, size (Py.map2 +%R a b) = minn (size a) (size b).
  by elim=> [|x a IH] [|y b] //=; rewrite IH minnSS.
by rewrite size_scal_ones /scal !size_map size_iota minnn.
Qed.

Lemma head_uu_0 :
  (0 < xnum)%N -> expF 0 = 1 -> nth 0 uu_0 0 = uu_base + uu_spill.
Proof.
rewrite /DiffusionImplicit.uu_0 /xgrid.
case: xnum => [|n] // _ E /=.
by rewrite mul0r expr0n /= mulr0 mul0r E !mulr1.
Qed.

(** C9.  With the coefficient matrix inverted (here for [alpha >= 0]), one
    step leaves the first and the last entry of every input vector
    unchanged; the result of the notebook does not depend on the declared
    Dirichlet constants; and through the whole run the two end entries stay
    those of the initial profile, the left one being baseline plus spill
    (the Gaussian is 1 at [x = 0]), which is not the declared left constant
    [uu_spill] unless the baseline is 0. *)
Theorem implicit_boundaries_stay_initial :
  (2 <= xnum)%N -> 0 <= alpha -> expF 0 = 1 ->
  let uu_left_dirich := uu_spill in
  let uu_right_dirich := uu_base in
  exists H : 'M[R]_xnum,
    [/\ hmat = Some H /\ invhmat = Some (invmx H),
        forall v : seq R, size v = xnum ->
          exists2 next, step (invmx H) v = Some next &
            nth 0 next 0 = nth 0 v 0
            /\ nth 0 next (xnum - 1) = nth 0 v (xnum - 1),
        forall (l r l' r' : R) nsteps (v : seq R),
          notebook l r nsteps v = notebook l' r' nsteps v
      & forall nsteps, exists2 s,
          notebook uu_left_dirich uu_right_dirich nsteps uu_0 = Some s &
          [/\ nth 0 (uu_cur s) 0 = uu_base + uu_spill,
              nth 0 (uu_cur s) (xnum - 1) = nth 0 uu_0 (xnum - 1)
            & uu_base != 0 -> nth 0 (uu_cur s) 0 != uu_left_dirich]].
Proof.
move=> H2 Ha E l r.
case: (@hmat_spec R bigd deltat_sec deltax xnum H2) => H EH _.
case: (invhmat_nonneg H2 Ha EH) => HU Einv.
exists H; split=> //.
- move=> v Hs.
  case: (@implicit_step_pins R bigd deltat_sec deltax xnum H v H2 EH HU Hs).
  by move=> next [c] [c'] [[Hnext _ _ _ _] Hp]; exists next.
- move=> nsteps.
  case: (@implicit_run_pins R bigd deltat_sec deltax xnum ttplot H uu_0 nsteps
           H2 EH HU size_uu_0) => s [Hrun _ P0 P1].
  exists s; first by rewrite /DiffusionImplicit.notebook Einv.
  have H0 : (0 < xnum)%N by nat_lia.
  split=> //; first by rewrite P0 head_uu_0.
  move=> Hb; rewrite P0 head_uu_0 // /l.
  by rewrite -subr_eq0 addrK.
Qed.

End Claims.

Section Bridge2.
Lemma le_coq_nat (m n : nat) : (m <= n)%N -> (m <= n)%coq_nat.
Proof. by move/ssrnat.leP. Qed.
End Bridge2.

(** C2.  After every pass through the loop of each scheme the two end
    entries obey the scheme's boundary rule exactly: the Dirichlet constants
    for the explicit diffusion, the value two points further in for the wave
    scheme, and the values pinned by the identity rows (those of the initial
    field) for the implicit scheme.  Each run is shown to reach every step
    without raising. *)
Theorem boundaries_enforced_every_step :
  (forall (bigd deltat_sec deltax uu_left_dirich uu_right_dirich : Rreal)
      (ttplot : seq nat) (uu_0 : seq Rreal) (nsteps : nat),
     (2 <= size uu_0)%N ->
     exists2 s,
       DiffusionFTCS.time_loop bigd deltat_sec deltax uu_left_dirich
         uu_right_dirich ttplot nsteps.+1 uu_0 = Some s &
       nth Rzero (DiffusionFTCS.uu_cur s) 0 = uu_left_dirich
       /\ nth Rzero (DiffusionFTCS.uu_cur s) (size uu_0 - 1) = uu_right_dirich)
  /\ (forall (grv deltat_sec deltax : Rreal) (bathy_a : seq Rreal)
        (ttplot : seq nat) (nan : Rreal) (uu_0 : seq Rreal) (nsteps : nat),
       (3 <= size uu_0)%N -> size bathy_a = size uu_0 ->
       exists2 s,
         TsunamiWave.time_loop grv deltat_sec deltax bathy_a ttplot nan
           nsteps.+1 uu_0 = Some s &
         nth Rzero (TsunamiWave.uu_cur s) 0
         = nth Rzero (TsunamiWave.uu_cur s) 2
         /\ nth Rzero (TsunamiWave.uu_cur s) (size uu_0 - 1)
            = nth Rzero (TsunamiWave.uu_cur s) (size uu_0 - 3))
  /\ (forall (F : realFieldType) (bigd deltat_sec deltax : F) (xnum : nat)
        (ttplot : seq nat) (uu_left_dirich uu_right_dirich : F)
        (uu_0 : seq F) (nsteps : nat),
       (2 <= xnum)%N -> 0 <= alpha F bigd deltat_sec deltax ->
       size uu_0 = xnum ->
       exists2 s,
         @notebook F bigd deltat_sec deltax xnum ttplot uu_left_dirich
           uu_right_dirich nsteps.+1 uu_0 = Some s &
         nth 0 (uu_cur s) 0 = nth 0 uu_0 0
         /\ nth 0 (uu_cur s) (xnum - 1) = nth 0 uu_0 (xnum - 1)).
Proof.
split; [|split].
- move=> bigd dt dx l r ttplot uu_0 nsteps /le_coq_nat Hn.
  case: (@BoundaryFacts.ftcs_boundaries_every_step bigd dt dx l r ttplot uu_0
           nsteps Hn) => s [Hs [_ [H0 H1]]].
  by exists s => //; rewrite !nth_listE.
- move=> grv dt dx b ttplot nan uu_0 nsteps /le_coq_nat Hn Hb.
  case: (@BoundaryFacts.wave_boundaries_every_step grv dt dx b ttplot nan uu_0
           nsteps Hn Hb) => s [Hs [_ [H0 H1]]].
  by exists s => //; rewrite !nth_listE.
- move=> F bigd dt dx xnum ttplot l r uu_0 nsteps H2 Ha Hs.
  case: (@hmat_spec F bigd dt dx xnum H2) => H EH _.
  case: (@invhmat_nonneg F bigd dt dx xnum H H2 Ha EH) => HU Einv.
  case: (@implicit_run_pins F bigd dt dx xnum ttplot H uu_0 nsteps.+1
           H2 EH HU Hs) => s [Hrun _ P0 P1].
  by exists s => //; rewrite /DiffusionImplicit.notebook Einv.
Qed.

Lemma alpha_two_nonneg : 0 <= alpha rat 2%:R 1 1.
Proof. by rewrite /alpha expr1n divr1 mulr1. Qed.

Lemma implicit_step_solves_tridiagonal_system_witness :
  (2 <= 4)%N
  /\ exists H : 'M[rat]_4,
       hmat rat 2%:R 1 1 4 = Some H
       /\ invhmat rat 2%:R 1 1 4 = Some (invmx H).
Proof.
split=> //.
case: (@implicit_step_solves_tridiagonal_system rat 2%:R 1 1 4 [:: 3%N] 0 0
         (isT : (2 <= 4)%N)) => H [EH _ Hinv _].
by exists H; split=> //; apply: Hinv; exact: alpha_two_nonneg.
Defined.

Lemma implicit_boundaries_stay_initial_witness :
  [/\ (2 <= 4)%N, 0 <= alpha rat 2%:R 1 1, (fun x : rat => 1 + x) 0 = 1
     & forall nsteps, exists2 s,
         @notebook rat 2%:R 1 1 4 [:: 3%N] 5%:R 1 nsteps
           (uu_0 rat 1 4 (fun x => 1 + x) 1 5%:R 1) = Some s &
         nth 0 (uu_cur s) 0 = 1 + 5%:R].
Proof.
have E : (fun x : rat => 1 + x) 0 = 1 by rewrite /= addr0.
split; [by [] | exact: alpha_two_nonneg | exact: E | move=> nsteps].
case: (@implicit_boundaries_stay_initial rat 2%:R 1 1 4 [:: 3%N]
         (fun x => 1 + x) 1 5%:R 1 (isT : (2 <= 4)%N) alpha_two_nonneg E)
  => H [_ _ _ Hrun].
by case: (Hrun nsteps) => s Hs [P0 _ _]; exists s.
Defined.

Lemma boundaries_enforced_every_step_witness :
  (exists2 s,
     DiffusionFTCS.time_loop Rone Rone Rone Rtenth Rzero [:: 0%N] 3 Rsample
     = Some s &
     nth Rzero (DiffusionFTCS.uu_cur s) 0 = Rtenth
     /\ nth Rzero (DiffusionFTCS.uu_cur s) 3 = Rzero)
  /\ (exists2 s,
        @notebook rat 2%:R 1 1 4 [:: 3%N] 5%:R 1 3 [:: 6%:R; 1; 1; 1] = Some s &
        nth 0 (uu_cur s) 0 = 6%:R /\ nth 0 (uu_cur s) 3 = 1).
Proof.
case: boundaries_enforced_every_step => Hf [_ Hi]; split.
- exact: (Hf Rone Rone Rone Rtenth Rzero [:: 0%N] Rsample 2%N isT).
- exact: (Hi rat 2%:R 1 1 4%N [:: 3%N] 5%:R 1 [:: 6%:R; 1; 1; 1] 2%N isT
            alpha_two_nonneg (erefl _)).
Defined.

End ImplicitClaims.

(** ** Implicit diffusion: equations of the step, stability, equilibria *)

Module ImplicitExtras.
Import boot order algebra.
Import GRing.Theory Num.Theory Order.TotalTheory Order.POrderTheory.
Import DiffusionImplicit ImplicitFacts ImplicitClaims.
Local Open Scope ring_scope.

Section Rows.
Variable F : fieldType.
Variables (bigd deltat_sec deltax : F).
Variable xnum : nat.

Local Notation alpha := (alpha F bigd deltat_sec deltax).
Local Notation hmat := (hmat F bigd deltat_sec deltax xnum).
Local Notation reshape := (reshape F xnum).
Local Notation flatten := (@flatten F xnum).
Local Notation step := (@step F xnum).

(** Left-hand side of equation [i] of the system, on a sequence. *)
Definition row_lhs (w : seq F) (i : nat) : F :=
  if (i == 0%N) || (i == (xnum - 1)%N) then nth 0 w i
  else - alpha * nth 0 w (i - 1) + (1 + 2%:R * alpha) * nth 0 w i
       + - alpha * nth 0 w i.+1.

Lemma flatten_reshape (a : seq F) (c : 'cV[F]_xnum) :
  reshape a = Some c -> flatten c = a.
Proof.
move=> /reshape_some [Hs Hc].
apply: (@eq_from_nth _ 0); first by rewrite size_np_flatten Hs.
rewrite size_np_flatten => i Hi.
by rewrite (@nth_np_flatten F xnum c (Ordinal Hi)) Hc.
Qed.

Lemma hmat_apply (H : 'M[F]_xnum) (x : 'cV[F]_xnum) (i : 'I_xnum) :
  (2 <= xnum)%N -> hmat = Some H ->
  (H *m x) i ord0 = row_lhs (flatten x) i.
Proof.
move=> H2 EH.
case: (@hmat_spec F bigd deltat_sec deltax xnum H2) => H' EH' HH.
move: EH'; rewrite EH => -[E]; rewrite -{H'}E in HH.
have Hi := ltn_ord i.
rewrite /row_lhs.
case Eb: (((i : nat) == 0%N) || ((i : nat) == (xnum - 1)%N)).
  rewrite nth_np_flatten; apply/esym.
  by apply: (@identity_row_pins _ _ H (H *m x) x i) => // j; rewrite HH Eb.
have Him : (i - 1 < xnum)%N by nat_lia.
have Hip : (i.+1 < xnum)%N by move: Eb Hi; clear; move=> Eb Hi; nat_lia.
pose im := Ordinal Him; pose ip := Ordinal Hip.
have Hpos : (0 < i)%N by move: Eb; clear; move=> Eb; nat_lia.
have Hzero : forall j : 'I_xnum, j != i -> j != im -> j != ip -> H i j = 0.
  move=> j Hj1 Hj2 Hj3; rewrite HH Eb.
  have Hj1' : (j : nat) != i by [].
  have Hj2' : (j : nat) != (i - 1)%N by [].
  have Hj3' : (j : nat) != i.+1 by [].
  move: Hj1' Hj2' Hj3' Hpos; clear.
  move=> A B C D.
  by repeat (let E := fresh "E" in case: ifP => E) => //; exfalso; nat_lia.
rewrite (@tridiagonal_row _ _ H x i im ip) //.
rewrite !HH !Eb /= eqxx.
have -> : ((i : nat) == (i - 1)%N) = false.
  by move: Hpos; clear=> Hp; nat_lia.
have -> : ((i - 1)%N == i.+1) || ((i : nat) == (i - 1).+1).
  by move: Hpos; clear=> Hp; apply/orP; right; nat_lia.
have -> : ((i : nat) == i.+1) = false.
  by clear; nat_lia.
rewrite eqxx /=.
by rewrite (@nth_np_flatten F xnum x im) (@nth_np_flatten F xnum x i)
           (@nth_np_flatten F xnum x ip).
Qed.

(** The step returns the one sequence that satisfies the equations. *)
Lemma step_equations (H : 'M[F]_xnum) (v : seq F) :
  (2 <= xnum)%N -> hmat = Some H -> H \in unitmx -> size v = xnum ->
  exists2 next, step (invmx H) v = Some next &
    [/\ size next = xnum,
        forall i, (i < xnum)%N -> row_lhs next i = nth 0 v i
      & forall w, size w = xnum ->
          (forall i, (i < xnum)%N -> row_lhs w i = nth 0 v i) -> w = next].
Proof.
move=> H2 EH HU Hs.
case: (@step_some F xnum (invmx H) v Hs) => c Hc Hstep.
exists (flatten (invmx H *m c)) => //.
have [_ Hcv] := @reshape_some F xnum v c Hc.
split; first exact: size_np_flatten.
  move=> i Hi.
  by rewrite -(@hmat_apply H (invmx H *m c) (Ordinal Hi)) // mulKVmx.
move=> w Hw Hrows.
case: (@step_some F xnum (invmx H) w Hw) => cw Hcw _.
have E : H *m cw = c.
  apply/colP => i; rewrite (@hmat_apply H cw i) // (@flatten_reshape w cw Hcw).
  by rewrite Hrows // Hcv.
by rewrite -E mulKmx // (@flatten_reshape w cw Hcw).
Qed.

End Rows.

Section Bounds.
Variable R : realFieldType.
Variables (bigd deltat_sec deltax : R).
Variable xnum : nat.
Variable ttplot : seq nat.

Local Notation alpha := (alpha R bigd deltat_sec deltax).
Local Notation hmat := (hmat R bigd deltat_sec deltax xnum).
Local Notation invhmat := (invhmat R bigd deltat_sec deltax xnum).
Local Notation step := (@step R xnum).
Local Notation body := (@body R xnum ttplot).
Local Notation init := (init R xnum ttplot).
Local Notation notebook := (@notebook R bigd deltat_sec deltax xnum ttplot).
Local Notation row_lhs := (@row_lhs R bigd deltat_sec deltax xnum).

Lemma dominant_upper (a m b v : R) :
  0 <= alpha -> a <= m -> b <= m ->
  - alpha * a + (1 + 2%:R * alpha) * m + - alpha * b = v -> m <= v.
Proof.
move=> Ha Ham Hbm E.
have H1 := ler_wpM2l Ha Ham.
have H2 := ler_wpM2l Ha Hbm.
move: E H1 H2; set x := alpha * a; set y := alpha * b; set z := alpha * m.
move=> E H1 H2.
have E' : m = v + x + y - 2%:R * z by rewrite /x /y /z -E; ring.
lra.
Qed.

Lemma dominant_lower (a m b v : R) :
  0 <= alpha -> m <= a -> m <= b ->
  - alpha * a + (1 + 2%:R * alpha) * m + - alpha * b = v -> v <= m.
Proof.
move=> Ha Ham Hbm E.
have H1 := ler_wpM2l Ha Ham.
have H2 := ler_wpM2l Ha Hbm.
move: E H1 H2; set x := alpha * a; set y := alpha * b; set z := alpha * m.
move=> E H1 H2.
have E' : m = v + x + y - 2%:R * z by rewrite /x /y /z -E; ring.
lra.
Qed.

(** A solution of the equations takes its largest value where the
    right-hand side is at least as large, and likewise for its smallest. *)
Lemma solution_upper (v next : seq R) (hi : R) :
  (2 <= xnum)%N -> 0 <= alpha ->
  (forall i, (i < xnum)%N -> row_lhs next i = nth 0 v i) ->
  (forall i, (i < xnum)%N -> nth 0 v i <= hi) ->
  forall i, (i < xnum)%N -> nth 0 next i <= hi.
Proof.
move=> H2 Ha Hrows Hv i Hi.
have H0 : (0 < xnum)%N by nat_lia.
pose j0 := Ordinal H0.
case: (arg_maxP (fun k : 'I_xnum => nth 0 next k) (isT : xpredT j0))
  => i0 _ Hmax.
apply: (le_trans (Hmax (Ordinal Hi) isT)).
apply: le_trans (Hv i0 (ltn_ord i0)).
have Hi0 := ltn_ord i0.
rewrite -(Hrows i0 Hi0) /row_lhs.
case Eb: (((i0 : nat) == 0%N) || ((i0 : nat) == (xnum - 1)%N)) => //.
have Him : (i0 - 1 < xnum)%N by nat_lia.
have Hip : (i0.+1 < xnum)%N by move: Eb Hi0; clear; move=> Eb Hi0; nat_lia.
apply: (@dominant_upper (nth 0 next (i0 - 1)) _ (nth 0 next i0.+1)) => //.
  exact: (Hmax (Ordinal Him) isT).
exact: (Hmax (Ordinal Hip) isT).
Qed.

Lemma solution_lower (v next : seq R) (lo : R) :
  (2 <= xnum)%N -> 0 <= alpha ->
  (forall i, (i < xnum)%N -> row_lhs next i = nth 0 v i) ->
  (forall i, (i < xnum)%N -> lo <= nth 0 v i) ->
  forall i, (i < xnum)%N -> lo <= nth 0 next i.
Proof.
move=> H2 Ha Hrows Hv i Hi.
have H0 : (0 < xnum)%N by nat_lia.
pose j0 := Ordinal H0.
case: (arg_minP (fun k : 'I_xnum => nth 0 next k) (isT : xpredT j0))
  => i0 _ Hmin.
apply: le_trans (Hmin (Ordinal Hi) isT).
apply: (le_trans (Hv i0 (ltn_ord i0))).
have Hi0 := ltn_ord i0.
rewrite -(Hrows i0 Hi0) /row_lhs.
case Eb: (((i0 : nat) == 0%N) || ((i0 : nat) == (xnum - 1)%N)) => //.
have Him : (i0 - 1 < xnum)%N by nat_lia.
have Hip : (i0.+1 < xnum)%N by move: Eb Hi0; clear; move=> Eb Hi0; nat_lia.
apply: (@dominant_lower (nth 0 next (i0 - 1)) _ (nth 0 next i0.+1)) => //.
  exact: (Hmin (Ordinal Him) isT).
exact: (Hmin (Ordinal Hip) isT).
Qed.

Lemma implicit_loop_preserves (P : seq R -> Prop) (inv : 'M[R]_xnum)
    (uu_0 : seq R) :
  size uu_0 = xnum -> P uu_0 ->
  (forall v next, size v = xnum -> P v -> step inv v = Some next -> P next) ->
  forall nsteps, exists s,
    [/\ Py.for_range (Py.range 0 nsteps) (body inv) (init uu_0) = Some s,
        @implicit_shape R xnum ttplot s & P (uu_cur s)].
Proof.
move=> Hs H0 Hstep; elim=> [|n [s [Hrun Hsh HP]]].
  by exists (init uu_0); split=> //; exact: implicit_init_shape.
case: (@implicit_body_spec R xnum ttplot inv n s Hsh) => s' [Hb Hsh' Hst _].
exists s'; rewrite LoopFacts.for_range_S Hrun /=; split=> //.
exact: (Hstep (uu_cur s) (uu_cur s') (proj1 Hsh) HP Hst).
Qed.

(** Fields that satisfy the equations with themselves on the right. *)
Definition harmonic (v : seq R) : Prop :=
  forall i, (0 < i)%N -> (i.+1 < xnum)%N ->
    alpha * (nth 0 v (i - 1) - 2%:R * nth 0 v i + nth 0 v i.+1) = 0.

Lemma harmonic_rows (v : seq R) :
  harmonic v <-> forall i, (i < xnum)%N -> row_lhs v i = nth 0 v i.
Proof.
rewrite /row_lhs; split=> Hv i.
  move=> Hi; case Eb: ((i == 0%N) || (i == (xnum - 1)%N)) => //.
  have H1 : (0 < i)%N by move: Eb; clear; move=> Eb; nat_lia.
  have H2 : (i.+1 < xnum)%N by move: Eb Hi; clear; move=> Eb Hi; nat_lia.
  have := Hv i H1 H2.
  set a := nth 0 v (i - 1); set b := nth 0 v i; set c := nth 0 v i.+1.
  move=> E.
  have -> : - alpha * a + (1 + 2%:R * alpha) * b + - alpha * c
            = b - alpha * (a - 2%:R * b + c) by ring.
  by rewrite E subr0.
move=> H1 H2.
have Hi : (i < xnum)%N by nat_lia.
have := Hv i Hi.
have -> : ((i == 0%N) || (i == (xnum - 1)%N)) = false.
  by move: H1 H2; clear; move=> H1 H2; apply/negbTE; rewrite negb_or;
     apply/andP; split; nat_lia.
set a := nth 0 v (i - 1); set b := nth 0 v i; set c := nth 0 v i.+1.
move=> E.
have -> : alpha * (a - 2%:R * b + c)
          = b - (- alpha * a + (1 + 2%:R * alpha) * b + - alpha * c) by ring.
by rewrite E subrr.
Qed.

End Bounds.

(** X22.  Unconditional stability. For every [alpha >= 0], however large,
    bounds that hold for the initial field hold for the field after any
    number of implicit steps: no entry leaves the range of the initial
    values. *)
Theorem implicit_maximum_principle
    (R : realFieldType) (bigd deltat_sec deltax : R) (xnum : nat)
    (ttplot : seq nat) (uu_left_dirich uu_right_dirich lo hi : R)
    (uu_0 : seq R) (nsteps : nat) :
  (2 <= xnum)%N -> 0 <= alpha R bigd deltat_sec deltax ->
  size uu_0 = xnum ->
  (forall i, (i < xnum)%N -> lo <= nth 0 uu_0 i <= hi) ->
  exists2 s,
    @notebook R bigd deltat_sec deltax xnum ttplot uu_left_dirich
      uu_right_dirich nsteps uu_0 = Some s &
    forall i, (i < xnum)%N -> lo <= nth 0 (uu_cur s) i <= hi.
Proof.
move=> H2 Ha Hs H0.
case: (@hmat_spec R bigd deltat_sec deltax xnum H2) => H EH _.
case: (@invhmat_nonneg R bigd deltat_sec deltax xnum H H2 Ha EH) => HU Einv.
pose P := fun v : seq R => forall i, (i < xnum)%N -> lo <= nth 0 v i <= hi.
have Hpres : forall v next,
    size v = xnum -> P v -> @step R xnum (invmx H) v = Some next -> P next.
  move=> v next Hv Pv Hstep.
  case: (@step_equations R bigd deltat_sec deltax xnum H v H2 EH HU Hv).
  move=> next'; rewrite Hstep => -[<-] [_ Hrows _] i Hi.
  apply/andP; split.
    apply: (@solution_lower R bigd deltat_sec deltax xnum v next lo) => //.
    by move=> k Hk; case/andP: (Pv k Hk).
  apply: (@solution_upper R bigd deltat_sec deltax xnum v next hi) => //.
  by move=> k Hk; case/andP: (Pv k Hk).
case: (@implicit_loop_preserves R xnum ttplot P (invmx H) uu_0 Hs H0 Hpres
         nsteps) => s [Hrun _ Ps].
by exists s => //; rewrite /DiffusionImplicit.notebook Einv.
Qed.

Lemma implicit_maximum_principle_witness :
  [/\ (2 <= 4)%N, 0 <= alpha rat 2%:R 1 1
    & forall nsteps, exists2 s,
        @notebook rat 2%:R 1 1 4 [:: 3%N] 5%:R 1 nsteps [:: 6%:R; 1; 1; 1]
        = Some s &
        forall i, (i < 4)%N -> 1 <= nth 0 (uu_cur s) i <= 6%:R].
Proof.
have H2 : (2 <= 4)%N by [].
split; [by [] | exact: alpha_two_nonneg | move=> nsteps].
apply: (@implicit_maximum_principle rat 2%:R 1 1 4 [:: 3%N] 5%:R 1 1 6%:R
          [:: 6%:R; 1; 1; 1] nsteps H2 alpha_two_nonneg) => //.
by case=> [|[|[|[|]]]].
Defined.

(** X23.  Equilibria of the implicit step: for [alpha >= 0] the step returns
    its input exactly when [alpha] times the second difference vanishes at
    every interior point, and such a field is then returned after any number
    of steps. The end values are free: they are kept anyway. *)
Theorem implicit_steady_state
    (R : realFieldType) (bigd deltat_sec deltax : R) (xnum : nat)
    (ttplot : seq nat) (uu_left_dirich uu_right_dirich : R) (v : seq R) :
  (2 <= xnum)%N -> 0 <= alpha R bigd deltat_sec deltax -> size v = xnum ->
  let fixed :=
    forall i, (0 < i)%N -> (i.+1 < xnum)%N ->
      alpha R bigd deltat_sec deltax
      * (nth 0 v (i - 1) - 2%:R * nth 0 v i + nth 0 v i.+1) = 0 in
  exists H : 'M[R]_xnum,
    [/\ invhmat R bigd deltat_sec deltax xnum = Some (invmx H),
        fixed <-> @step R xnum (invmx H) v = Some v
      & fixed ->
        forall nsteps, exists2 s,
          @notebook R bigd deltat_sec deltax xnum ttplot uu_left_dirich
            uu_right_dirich nsteps v = Some s &
          uu_cur s = v].
Proof.
move=> H2 Ha Hs fixed.
case: (@hmat_spec R bigd deltat_sec deltax xnum H2) => H EH _.
case: (@invhmat_nonneg R bigd deltat_sec deltax xnum H H2 Ha EH) => HU Einv.
have Hfix : fixed <-> @step R xnum (invmx H) v = Some v.
  case: (@step_equations R bigd deltat_sec deltax xnum H v H2 EH HU Hs).
  move=> next Hstep [Hsn Hrows Huniq]; split.
    move=> /(@harmonic_rows R bigd deltat_sec deltax xnum v) Hv.
    by rewrite Hstep (Huniq v Hs Hv).
  rewrite Hstep => -[E]; rewrite E in Hrows.
  exact/(@harmonic_rows R bigd deltat_sec deltax xnum v).
exists H; split=> // Hv nsteps.
have Hpres : forall w next,
    size w = xnum -> w = v -> @step R xnum (invmx H) w = Some next ->
    next = v.
  by move=> w next _ -> Hstep; move/Hfix: Hv; rewrite Hstep => -[].
case: (@implicit_loop_preserves R xnum ttplot (fun w => w = v)
         (invmx H) v Hs erefl Hpres nsteps) => s [Hrun _ Ps].
by exists s => //; rewrite /DiffusionImplicit.notebook Einv.
Qed.

Lemma implicit_steady_state_witness :
  [/\ (2 <= 4)%N, 0 <= alpha rat 2%:R 1 1
    & forall nsteps, exists2 s,
        @notebook rat 2%:R 1 1 4 [:: 3%N] 5%:R 1 nsteps
          [:: 3%:R; 2%:R; 1; 0] = Some s &
        uu_cur s = [:: 3%:R; 2%:R; 1; 0]].
Proof.
have H2 : (2 <= 4)%N by [].
split; [by [] | exact: alpha_two_nonneg | move=> nsteps].
case: (@implicit_steady_state rat 2%:R 1 1 4 [:: 3%N] 5%:R 1
         [:: 3%:R; 2%:R; 1; 0] H2 alpha_two_nonneg erefl) => H [_ _ Hloop].
apply: Hloop.
by case=> [|[|[|]]] //= _ _; rewrite /alpha; apply/eqP.
Defined.

(** X24.  Fewer than two grid points: the construction of the matrix raises
    (the first diagonal has no entry to assign), so the notebook does. *)
Theorem hmat_raises_below_two_points
    (F : fieldType) (bigd deltat_sec deltax : F) (xnum : nat)
    (ttplot : seq nat) (uu_left_dirich uu_right_dirich : F)
    (nsteps : nat) (uu_0 : seq F) :
  (xnum < 2)%N ->
  [/\ hmat F bigd deltat_sec deltax xnum = None,
      invhmat F bigd deltat_sec deltax xnum = None
    & @notebook F bigd deltat_sec deltax xnum ttplot uu_left_dirich
        uu_right_dirich nsteps uu_0 = None].
Proof.
move=> Hx.
have E : hmat F bigd deltat_sec deltax xnum = None.
  by case: xnum Hx => [|[|n]].
by split=> //; rewrite /DiffusionImplicit.notebook /DiffusionImplicit.invhmat E.
Qed.

Lemma hmat_raises_below_two_points_witness :
  (1 < 2)%N /\ hmat rat 2%:R 1 1 1 = None.
Proof.
have Hx : (1 < 2)%N by [].
split; first by [].
by case: (@hmat_raises_below_two_points rat 2%:R 1 1 1 [::] 0 0 0 [:: 1] Hx).
Defined.


Lemma implicit_body_saves (F : fieldType) (xnum : nat) (ttplot : seq nat)
    (inv : 'M[F]_xnum) (tt : nat) (s s' : state F) :
  length (uu_cur s) = xnum ->
  @body F xnum ttplot inv tt s = Some s' ->
  length (uu_cur s') = xnum
  /\ Py.save_plot ttplot tt (uu_cur s') (to_plot s) = Some (to_plot s').
Proof.
move=> _; rewrite /DiffusionImplicit.body /DiffusionImplicit.step.
case: (reshape F xnum (uu_cur s)) => [c|] //=.
case E: (Py.save_plot _ _ _ _) => [tp|] //= [<-] /=; split=> //.
exact: size_np_flatten.
Qed.

(** X25.  Snapshots of the implicit loop. After [nsteps] steps, row
    [ttplot.index(tt)] of [to_plot] holds the field as it was right after
    step [tt], for every [tt] of [ttplot] below [nsteps]; the rows of the
    entries not reached yet are still zero. *)
Theorem implicit_snapshot_rows
    (R : realFieldType) (bigd deltat_sec deltax : R) (xnum : nat)
    (ttplot : seq nat) (uu_left_dirich uu_right_dirich : R)
    (uu_0 : seq R) (nsteps : nat) :
  (2 <= xnum)%N -> 0 <= alpha R bigd deltat_sec deltax ->
  size uu_0 = xnum ->
  exists2 s,
    @notebook R bigd deltat_sec deltax xnum ttplot uu_left_dirich
      uu_right_dirich nsteps uu_0 = Some s &
    forall tt k,
      Py.index_of tt ttplot = Some k ->
      ((tt < nsteps)%N ->
       exists2 st,
         @notebook R bigd deltat_sec deltax xnum ttplot uu_left_dirich
           uu_right_dirich tt.+1 uu_0 = Some st &
         nth [::] (to_plot s) k = uu_cur st)
      /\ ((nsteps <= tt)%N -> nth [::] (to_plot s) k = nseq xnum 0).
Proof.
move=> H2 Ha Hs.
case: (@hmat_spec R bigd deltat_sec deltax xnum H2) => H EH _.
case: (@invhmat_nonneg R bigd deltat_sec deltax xnum H H2 Ha EH) => HU Einv.
case: (@implicit_loop_ok R xnum ttplot (invmx H) uu_0 nsteps Hs) => s [Hrun _].
exists s; first by rewrite /DiffusionImplicit.notebook Einv.
case: (@SnapshotFacts.loop_rows R (state R) (@uu_cur R) (@to_plot R)
         (@body R xnum ttplot (invmx H)) ttplot xnum
         (fun tt s s' => @implicit_body_saves R xnum ttplot (invmx H) tt s s')
         (init R xnum ttplot uu_0) Hs
         (LoopFacts.plot_shape_full (length ttplot) xnum 0)
         nsteps s Hrun) => _ [_ Hrows] tt k Hk.
case: (Hrows tt k Hk) => Hlt Hge; split.
  move=> /ssrnat.ltP /Hlt [st [Hst Hrow]].
  exists st; first by rewrite /DiffusionImplicit.notebook Einv.
  by rewrite nth_listE.
move=> /ssrnat.leP /Hge; rewrite nth_listE => ->.
have Hk' := @LoopFacts.index_of_lt tt ttplot k Hk.
by rewrite /= /Py.full List.nth_repeat_lt // repeatE.
Qed.

Lemma implicit_snapshot_rows_witness :
  [/\ (2 <= 4)%N, 0 <= alpha rat 2%:R 1 1
    & exists s st,
        [/\ @notebook rat 2%:R 1 1 4 [:: 3%N; 1%N] 5%:R 1 3
              [:: 6%:R; 1; 1; 1] = Some s,
            @notebook rat 2%:R 1 1 4 [:: 3%N; 1%N] 5%:R 1 2
              [:: 6%:R; 1; 1; 1] = Some st,
            nth [::] (to_plot s) 1 = uu_cur st
          & nth [::] (to_plot s) 0 = nseq 4 0]].
Proof.
have H2 : (2 <= 4)%N by [].
split; [by [] | exact: alpha_two_nonneg | ].
case: (@implicit_snapshot_rows rat 2%:R 1 1 4 [:: 3%N; 1%N] 5%:R 1
         [:: 6%:R; 1; 1; 1] 3 H2 alpha_two_nonneg erefl) => s Hs Hrows.
case: (Hrows 1%N 1%N erefl) => Hlt _.
case: (Hlt isT) => st Hst Hrow.
case: (Hrows 3%N 0%N erefl) => _ Hge.
by exists s, st; split=> //; apply: Hge.
Defined.

End ImplicitExtras.
